(** * nbconvert: the markdown-with-math filter ([nbconvert/filters/markdown_mistune.py])

    A shallow embedding of the math rules that [MathBlockParser] and
    [MathInlineParser] add to mistune, and of [IPythonRenderer].

    Text is a list of characters.  The patterns of the source only ever test
    ASCII characters, so a character is an [ascii] here; a character outside
    ASCII stands as its UTF-8 bytes, none of which is a dollar, a backslash,
    a bracket or a letter.  The regular expressions are kept as syntax trees
    that follow the pattern strings of the source one construct at a time,
    and are run by a backtracking matcher with the priorities of Python's
    [re] (first alternative first, greedy or lazy repetition, named groups,
    back-references, look-behind).  Whitespace, which [str.strip()] and
    [str.split()] read by character, is recognised on the bytes of the
    characters that Python counts as whitespace.

    What the source calls and does not define is a parameter: the rules and
    the renderer methods of mistune, pygments, [ElementTree], the file
    system, [mimetypes] and [base64].

    Beside them stand the raw HTML methods of the renderer, with [bs4] as
    one more parameter, the string filters of
    [IPython/nbconvert/filters/strings.py] and [rm_math_space] of
    [filters/latex.py]. *)

From Stdlib Require Import Ascii String List Arith ZArith Lia Bool.
Import ListNotations.

Local Open Scope list_scope.

(** ** Text *)

Definition str := list ascii.

(** A literal of the source, as text. *)
Definition lit (s : string) : str := list_ascii_of_string s.

Definition chr (s : string) : ascii :=
  match s with
  | String c _ => c
  | EmptyString => zero
  end.

Definition mem (c : ascii) (cs : list ascii) : bool :=
  existsb (Ascii.eqb c) cs.

Fixpoint str_eqb (a b : str) : bool :=
  match a, b with
  | [], [] => true
  | x :: a', y :: b' => Ascii.eqb x y && str_eqb a' b'
  | _, _ => false
  end.

(** [s.startswith(p)], returning what follows the prefix. *)
Fixpoint strip_prefix (p s : str) : option str :=
  match p with
  | [] => Some s
  | x :: p' =>
      match s with
      | y :: s' => if Ascii.eqb x y then strip_prefix p' s' else None
      | [] => None
      end
  end.

Definition startswith (s p : str) : bool :=
  match strip_prefix p s with Some _ => true | None => false end.

(** [d in s] for strings: [d] occurs in [s] as a substring. *)
Fixpoint occurs (d s : str) : bool :=
  startswith s d ||
  match s with
  | [] => false
  | _ :: s' => occurs d s'
  end.

(** ** Regular expressions *)

Inductive regex : Type :=
| Eps                             (* the empty pattern *)
| Lit (c : ascii)                 (* a literal character, escaped or not *)
| Dot                             (* [.] inside [(?s:...)]: any character *)
| Range (lo hi : ascii)           (* [[a-z]] *)
| OneOf (cs : list ascii)         (* [[$]] *)
| NotBehind (cs : list ascii)     (* [(?<![...])], [(?<!\\)] *)
| Cat (r1 r2 : regex)
| Or (r1 r2 : regex)              (* [r1|r2] *)
| Star (r : regex)                (* [r*], greedy *)
| LazyStar (r : regex)            (* [r*?] *)
| Opt (r : regex)                 (* [r?], greedy *)
| Group (name : string) (r : regex)   (* [(?P<name>r)] *)
| Backref (name : string).        (* [(?P=name)] *)

(** [r+?] and [r{2}]. *)
Definition LazyPlus (r : regex) : regex := Cat r (LazyStar r).
Definition Twice (r : regex) : regex := Cat r r.

Fixpoint Cats (rs : list regex) : regex :=
  match rs with
  | [] => Eps
  | r :: rs' => Cat r (Cats rs')
  end.

(** The literal text [s] as a pattern. *)
Definition Lits (s : string) : regex := Cats (map Lit (lit s)).

(** The state of a match: the text before the cursor (latest character
    first), the text after it, and the groups closed so far. *)
Record mstate : Type := MState {
  before : str;
  after : str;
  groups : list (string * str)
}.

Definition cursor (st : mstate) : nat := length (before st).

Fixpoint advance_over (p : str) (st : mstate) : option mstate :=
  match p with
  | [] => Some st
  | x :: p' =>
      match after st with
      | c :: s =>
          if Ascii.eqb x c
          then advance_over p' (MState (c :: before st) s (groups st))
          else None
      | [] => None
      end
  end.

Definition one (ok : ascii -> bool) (st : mstate)
    (k : mstate -> option mstate) : option mstate :=
  match after st with
  | c :: s => if ok c then k (MState (c :: before st) s (groups st)) else None
  | [] => None
  end.

Definition in_range (lo hi c : ascii) : bool :=
  (nat_of_ascii lo <=? nat_of_ascii c) && (nat_of_ascii c <=? nat_of_ascii hi).

Fixpoint group_get (name : string) (gs : list (string * str)) : option str :=
  match gs with
  | [] => None
  | (n, v) :: gs' => if String.eqb n name then Some v else group_get name gs'
  end.

(** The text a group spans: what was read between two states. *)
Definition captured (st st' : mstate) : str :=
  rev (firstn (cursor st' - cursor st) (before st')).

Definition progress (st st' : mstate) : bool :=
  length (after st') <? length (after st).

Section Loops.
Variable step : mstate -> (mstate -> option mstate) -> option mstate.
Variable k : mstate -> option mstate.

(** [r*]: one more round of [r] is tried before leaving the loop. *)
Fixpoint greedy_loop (fuel : nat) (st : mstate) : option mstate :=
  match fuel with
  | 0 => k st
  | S f =>
      match step st (fun st' =>
              if progress st st' then greedy_loop f st' else None) with
      | Some out => Some out
      | None => k st
      end
  end.

(** [r*?]: leaving the loop is tried before one more round of [r]. *)
Fixpoint lazy_loop (fuel : nat) (st : mstate) : option mstate :=
  match k st with
  | Some out => Some out
  | None =>
      match fuel with
      | 0 => None
      | S f => step st (fun st' =>
                 if progress st st' then lazy_loop f st' else None)
      end
  end.
End Loops.

(** The matcher, in continuation-passing style: [exec r st k] reads [r] at
    [st] and hands every state it can reach to [k], in the order in which
    Python's matcher tries them, until [k] accepts one. *)
Fixpoint exec (r : regex) (st : mstate) (k : mstate -> option mstate)
    {struct r} : option mstate :=
  match r with
  | Eps => k st
  | Lit c => one (Ascii.eqb c) st k
  | Dot => one (fun _ => true) st k
  | Range lo hi => one (in_range lo hi) st k
  | OneOf cs => one (fun c => mem c cs) st k
  | NotBehind cs =>
      match before st with
      | c :: _ => if mem c cs then None else k st
      | [] => k st
      end
  | Cat r1 r2 => exec r1 st (fun st1 => exec r2 st1 k)
  | Or r1 r2 =>
      match exec r1 st k with
      | Some out => Some out
      | None => exec r2 st k
      end
  | Star r1 => greedy_loop (exec r1) k (length (after st)) st
  | LazyStar r1 => lazy_loop (exec r1) k (length (after st)) st
  | Opt r1 =>
      match exec r1 st k with
      | Some out => Some out
      | None => k st
      end
  | Group name r1 =>
      exec r1 st (fun st' =>
        k (MState (before st') (after st')
             ((name, captured st st') :: groups st')))
  | Backref name =>
      match group_get name (groups st) with
      | Some v =>
          match advance_over v st with
          | Some st' => k st'
          | None => None
          end
      | None => None
      end
  end.

(** A match object: where the match starts, and the state at its end. *)
Record Match : Type := MkMatch {
  m_start : nat;
  m_state : mstate
}.

Definition m_end (m : Match) : nat := cursor (m_state m).
Definition m_group (m : Match) (name : string) : option str :=
  group_get name (groups (m_state m)).
(** [m[0]]: the whole matched text. *)
Definition m_0 (m : Match) : str :=
  rev (firstn (m_end m - m_start m) (before (m_state m))).

Definition at_pos (src : str) (pos : nat) : mstate :=
  MState (rev (firstn pos src)) (skipn pos src) [].

(** [pattern.match(src, pos)] with look-behind seeing the text before [pos]. *)
Definition match_at (r : regex) (src : str) (pos : nat) : option Match :=
  match exec r (at_pos src pos) Some with
  | Some st => Some (MkMatch pos st)
  | None => None
  end.

(** [pattern.search(src, pos)]: the first start position, from [pos] on, at
    which the pattern matches. [n] counts the start positions left to try. *)
Fixpoint search_from (r : regex) (src : str) (n pos : nat) : option Match :=
  match match_at r src pos with
  | Some m => Some m
  | None =>
      match n with
      | 0 => None
      | S n' => search_from r src n' (S pos)
      end
  end.

Definition search (r : regex) (src : str) (pos : nat) : option Match :=
  search_from r src (length src - pos) pos.

(** ** The patterns of [MathBlockParser] and [MathInlineParser]

    Every pattern of the source is wrapped in [_dotall], so [Dot] stands for
    a [.] that also matches a newline. *)

Definition backslash : ascii := chr "\".
Definition dollar : ascii := chr "$".

(** [[a-z]*\*?] *)
Definition ENV_NAME : regex :=
  Cat (Star (Range (chr "a") (chr "z"))) (Opt (Lit (chr "*"))).

Definition MULTILINE_MATH : regex :=
  Or (* (?<!\\)[$]{2}.*?(?<!\\)[$]{2} *)
     (Cats [NotBehind [backslash]; Twice (OneOf [dollar]); LazyStar Dot;
            NotBehind [backslash]; Twice (OneOf [dollar])])
 (Or (* \\\\\[.*?\\\\\] *)
     (Cats [Lit backslash; Lit backslash; Lit (chr "["); LazyStar Dot;
            Lit backslash; Lit backslash; Lit (chr "]")])
     (* \\begin\{(?P<math_env_name>[a-z]*\*?)\}.*?\\end\{(?P=math_env_name)\} *)
     (Cats [Lits "\begin"; Lit (chr "{"); Group "math_env_name" ENV_NAME;
            Lit (chr "}"); LazyStar Dot;
            Lits "\end"; Lit (chr "{"); Backref "math_env_name";
            Lit (chr "}")])).

(** [(?<!\\)\$\$(?P<math_block_tex>.*?)(?<!\\)\$\$] *)
Definition BLOCK_MATH_TEX : regex :=
  Cats [NotBehind [backslash]; Lit dollar; Lit dollar;
        Group "math_block_tex" (LazyStar Dot);
        NotBehind [backslash]; Lit dollar; Lit dollar].

(** [(?<!\\)\\\\\[(?P<math_block_latex>.*?)(?<!\\)\\\\\]] *)
Definition BLOCK_MATH_LATEX : regex :=
  Cats [NotBehind [backslash]; Lit backslash; Lit backslash; Lit (chr "[");
        Group "math_block_latex" (LazyStar Dot);
        NotBehind [backslash]; Lit backslash; Lit backslash; Lit (chr "]")].

(** [(?<![$\\])\$(?P<math_inline_tex>.+?)(?<![$\\])\$] *)
Definition INLINE_MATH_TEX : regex :=
  Cats [NotBehind [dollar; backslash]; Lit dollar;
        Group "math_inline_tex" (LazyPlus Dot);
        NotBehind [dollar; backslash]; Lit dollar].

(** [(?<!\\)\\\\\((?P<math_inline_latex>.*?)(?<!\\)\\\\\)] *)
Definition INLINE_MATH_LATEX : regex :=
  Cats [NotBehind [backslash]; Lit backslash; Lit backslash; Lit (chr "(");
        Group "math_inline_latex" (LazyStar Dot);
        NotBehind [backslash]; Lit backslash; Lit backslash; Lit (chr ")")].

(** [\\begin\{(?P<math_env_name>[a-z]*\*?)\}(?P<math_env_body>.*?)\\end\{(?P=math_env_name)\}] *)
Definition LATEX_ENVIRONMENT : regex :=
  Cats [Lits "\begin"; Lit (chr "{"); Group "math_env_name" ENV_NAME;
        Lit (chr "}");
        Group "math_env_body" (LazyStar Dot);
        Lits "\end"; Lit (chr "{"); Backref "math_env_name"; Lit (chr "}")].

(** ** Tokens *)

Section Parser.

(** The tokens of the rules that mistune brings ([InlineParser.DEFAULT_RULES]:
    code spans, emphasis, links, escapes, ...) are mistune's own; their
    content is left open. *)
Variable other : Type.

Inductive token : Type :=
| tok_text (raw : str)
| tok_block_math (raw : str)
| tok_inline_math (raw : str)
| tok_latex_environment (name body : str)
| tok_inherited (t : other).

Definition group_or_empty (m : Match) (name : string) : str :=
  match m_group m name with Some v => v | None => [] end.

(** Each [parse_*] method appends one token and returns [m.end()]. *)
Definition parse_block_math_tex (m : Match) (tokens : list token)
    : list token * nat :=
  let body := group_or_empty m "math_block_tex" in
  (tokens ++ [tok_block_math body], m_end m).

Definition parse_block_math_latex (m : Match) (tokens : list token)
    : list token * nat :=
  let body := group_or_empty m "math_block_latex" in
  (tokens ++ [tok_block_math body], m_end m).

Definition parse_inline_math_tex (m : Match) (tokens : list token)
    : list token * nat :=
  let body := group_or_empty m "math_inline_tex" in
  (tokens ++ [tok_inline_math body], m_end m).

Definition parse_inline_math_latex (m : Match) (tokens : list token)
    : list token * nat :=
  let body := group_or_empty m "math_inline_latex" in
  (tokens ++ [tok_inline_math body], m_end m).

Definition parse_latex_environment (m : Match) (tokens : list token)
    : list token * nat :=
  let name := group_or_empty m "math_env_name" in
  let body := group_or_empty m "math_env_body" in
  (tokens ++ [tok_latex_environment name body], m_end m).

Definition handler : Type := Match -> list token -> list token * nat.

(** [SPECIFICATION] and the parse methods, in the order of [DEFAULT_RULES]:
    block math first, all math before the rules of mistune. *)
Record rule : Type := Rule {
  rule_name : string;
  rule_pattern : regex;
  rule_method : handler
}.

Definition MATH_RULES : list rule :=
  [ Rule "block_math_tex" BLOCK_MATH_TEX parse_block_math_tex;
    Rule "block_math_latex" BLOCK_MATH_LATEX parse_block_math_latex;
    Rule "inline_math_tex" INLINE_MATH_TEX parse_inline_math_tex;
    Rule "inline_math_latex" INLINE_MATH_LATEX parse_inline_math_latex;
    Rule "latex_environment" LATEX_ENVIRONMENT parse_latex_environment ].

(** ** The scanning loop of mistune

    mistune joins the patterns of the rules into one alternation, in rule
    order, and searches it from the cursor: the match is the one at the
    first start position where some rule matches, and there the first rule
    that matches.  The rules of mistune itself come after the math rules;
    [inherited src pos] is what they do at start position [pos], when one of
    them matches there: the tokens they append and the new cursor. *)
Variable inherited : str -> nat -> option (list token * nat).

Fixpoint first_rule (rules : list rule) (src : str) (pos : nat)
    : option (Match * handler) :=
  match rules with
  | [] => None
  | r :: rules' =>
      match match_at (rule_pattern r) src pos with
      | Some m => Some (m, rule_method r)
      | None => first_rule rules' src pos
      end
  end.

(** What the joined pattern does at one start position: where the match
    starts, and the rule's effect on the token list. *)
Definition rules_at (src : str) (pos : nat)
    : option (list token -> list token * nat) :=
  match first_rule MATH_RULES src pos with
  | Some (m, h) => Some (h m)
  | None =>
      match inherited src pos with
      | Some (toks, new_pos) => Some (fun tokens => (tokens ++ toks, new_pos))
      | None => None
      end
  end.

Fixpoint sc_search_from (src : str) (n pos : nat)
    : option (nat * (list token -> list token * nat)) :=
  match rules_at src pos with
  | Some f => Some (pos, f)
  | None =>
      match n with
      | 0 => None
      | S n' => sc_search_from src n' (S pos)
      end
  end.

Definition sc_search (src : str) (pos : nat)
    : option (nat * (list token -> list token * nat)) :=
  sc_search_from src (length src - pos) pos.

Definition slice (src : str) (i j : nat) : str :=
  firstn (j - i) (skipn i src).

Definition process_text (s : str) (tokens : list token) : list token :=
  tokens ++ [tok_text s].

(** One round of the loop of [InlineParser.parse], from cursor [pos]: the
    text between the cursor and the match becomes a [text] token, then the
    rule's method runs; a method that returns no position moves the cursor
    one character on, past a [text] token for that character.  [None] when
    the search finds nothing. *)
Definition round (src : str) (pos : nat) (tokens : list token)
    : option (list token * nat) :=
  match sc_search src pos with
  | None => None
  | Some (end_pos, f) =>
      let tokens1 :=
        if pos <? end_pos then process_text (slice src pos end_pos) tokens
        else tokens in
      let '(tokens2, new_pos) := f tokens1 in
      if new_pos =? 0 then
        Some (process_text (slice src end_pos (S end_pos)) tokens2, S end_pos)
      else Some (tokens2, new_pos)
  end.

(** [InlineParser.parse]: rounds while the cursor is inside the text, then
    a [text] token for what is left; a text without any match is one
    [text] token.  [fuel] bounds the rounds, and runs out only if a rule of
    mistune fails to move the cursor forward. *)
Fixpoint parse_loop (fuel : nat) (src : str) (pos : nat)
    (tokens : list token) : option (list token) :=
  if length src <=? pos then
    Some (if pos =? 0 then process_text src tokens else tokens)
  else
    match round src pos tokens with
    | None =>
        Some (if pos =? 0 then process_text src tokens
              else process_text (skipn pos src) tokens)
    | Some (tokens', pos') =>
        match fuel with
        | 0 => None
        | S fuel' => parse_loop fuel' src pos' tokens'
        end
    end.

Definition parse (src : str) : option (list token) :=
  parse_loop (length src) src 0 [].

(** ** Block level

    [MathBlockParser] puts [multiline_math] before the block rules of
    mistune; its parse method hands the whole match to
    [BlockState.add_paragraph], which extends the paragraph under
    construction when the last token is a paragraph. *)
Inductive block_token : Type :=
| paragraph (txt : str)
| inherited_block (t : other).

Record BlockState : Type := MkBlockState {
  bs_src : str;
  bs_tokens : list block_token;
  bs_cursor : nat
}.

Fixpoint add_paragraph_tokens (tokens : list block_token) (s : str)
    : list block_token :=
  match tokens with
  | [] => [paragraph s]
  | [paragraph t] => [paragraph (t ++ s)]
  | [b] => [b; paragraph s]
  | b :: tokens' => b :: add_paragraph_tokens tokens' s
  end.

Definition add_paragraph (state : BlockState) (s : str) : BlockState :=
  MkBlockState (bs_src state) (add_paragraph_tokens (bs_tokens state) s)
    (bs_cursor state).

Definition parse_multiline_math (m : Match) (state : BlockState)
    : BlockState * nat :=
  let matched_text := m_0 m in
  (add_paragraph state matched_text, m_end m).

End Parser.

Arguments tok_text {other}.
Arguments tok_block_math {other}.
Arguments tok_inline_math {other}.
Arguments tok_latex_environment {other}.
Arguments tok_inherited {other}.
Arguments paragraph {other}.
Arguments inherited_block {other}.

(** ** Strings of the renderer *)

(** [s.replace(c, by)] for a one-character [c]. *)
Definition replace_char (c : ascii) (by_ : str) (s : str) : str :=
  flat_map (fun x => if Ascii.eqb x c then by_ else [x]) s.

(** [html_escape = partial(escape, quote=False)]: [html.escape] replaces
    [&] first, then [<], then [>]. *)
Definition html_escape (s : str) : str :=
  replace_char (chr ">") (lit "&gt;")
    (replace_char (chr "<") (lit "&lt;")
       (replace_char (chr "&") (lit "&amp;") s)).

(** The whitespace of [str.strip()] and [str.split(None)]: the characters
    for which [str.isspace()] holds.  A character outside ASCII stands in a
    text as its UTF-8 bytes, so a whitespace character is one byte, two or
    three.  In one byte: tab, line feed, vertical tab, form feed, carriage
    return (9 to 13), the four separators 28 to 31, and the space (32). *)
Definition isspace (c : ascii) : bool :=
  let n := nat_of_ascii c in
  ((9 <=? n) && (n <=? 13)) || ((28 <=? n) && (n <=? 32)).

(** In two bytes: U+0085, next line (194 133), and U+00A0, the no-break
    space (194 160). *)
Definition isspace2 (c1 c2 : ascii) : bool :=
  let n1 := nat_of_ascii c1 in
  let n2 := nat_of_ascii c2 in
  (n1 =? 194) && ((n2 =? 133) || (n2 =? 160)).

(** In three bytes: U+1680 (225 154 128); U+2000 to U+200A, the spaces of
    fixed width (226 128 128 to 226 128 138); U+2028, U+2029 and U+202F
    (226 128 168, 169 and 175); U+205F (226 129 159); and U+3000, the
    ideographic space (227 128 128). *)
Definition isspace3 (c1 c2 c3 : ascii) : bool :=
  let n1 := nat_of_ascii c1 in
  let n2 := nat_of_ascii c2 in
  let n3 := nat_of_ascii c3 in
  ((n1 =? 225) && (n2 =? 154) && (n3 =? 128))
  || ((n1 =? 226) && (n2 =? 128)
        && (((128 <=? n3) && (n3 <=? 138))
              || (n3 =? 168) || (n3 =? 169) || (n3 =? 175)))
  || ((n1 =? 226) && (n2 =? 129) && (n3 =? 159))
  || ((n1 =? 227) && (n2 =? 128) && (n3 =? 128)).

(** The whitespace character that a text starts with, if it starts with
    one: what follows it. *)
Definition skip_space (s : str) : option str :=
  match s with
  | c1 :: s1 =>
      if isspace c1 then Some s1
      else
        match s1 with
        | c2 :: s2 =>
            if isspace2 c1 c2 then Some s2
            else
              match s2 with
              | c3 :: s3 => if isspace3 c1 c2 c3 then Some s3 else None
              | [] => None
              end
        | [] => None
        end
  | [] => None
  end.

(** [s.lstrip()] *)
Fixpoint lstrip (s : str) : str :=
  match s with
  | c1 :: s1 =>
      if isspace c1 then lstrip s1
      else
        match s1 with
        | c2 :: s2 =>
            if isspace2 c1 c2 then lstrip s2
            else
              match s2 with
              | c3 :: s3 => if isspace3 c1 c2 c3 then lstrip s3 else s
              | [] => s
              end
        | [] => s
        end
  | [] => []
  end.

(** The text is made of whitespace characters: [s.isspace()], or [s] is
    empty. *)
Fixpoint all_space (s : str) : bool :=
  match s with
  | c1 :: s1 =>
      if isspace c1 then all_space s1
      else
        match s1 with
        | c2 :: s2 =>
            if isspace2 c1 c2 then all_space s2
            else
              match s2 with
              | c3 :: s3 => isspace3 c1 c2 c3 && all_space s3
              | [] => false
              end
        | [] => false
        end
  | [] => true
  end.

(** [s.rstrip()]: the text up to the whitespace it ends with. *)
Fixpoint rstrip (s : str) : str :=
  match s with
  | c :: s' => if all_space s then [] else c :: rstrip s'
  | [] => []
  end.

(** [s.strip()] *)
Definition strip (s : str) : str := rstrip (lstrip s).

(** The text up to its first whitespace character. *)
Fixpoint take_word (s : str) : str :=
  match s with
  | c :: s' =>
      match skip_space s with
      | Some _ => []
      | None => c :: take_word s'
      end
  | [] => []
  end.

(** [s.split(None, 1)]: the first word, when there is one. *)
Definition split_first (s : str) : option str :=
  match lstrip s with
  | [] => None
  | w => Some (take_word w)
  end.

Definition newline : ascii := ascii_of_nat 10.
Definition dquote : ascii := ascii_of_nat 34.
Definition space : ascii := chr " ".

(** ** Dictionaries

    A Python [dict] keeps its keys in insertion order, and
    [list(d.keys())[0]] reads that order. *)
Definition dict (V : Type) : Type := list (str * V).

Fixpoint dict_get {V : Type} (key : str) (d : dict V) : option V :=
  match d with
  | [] => None
  | (k', v) :: d' => if str_eqb k' key then Some v else dict_get key d'
  end.

Definition dict_mem {V : Type} (key : str) (d : dict V) : bool :=
  match dict_get key d with Some _ => true | None => false end.

Definition dict_keys {V : Type} (d : dict V) : list str := map fst d.

Fixpoint dict_set {V : Type} (key : str) (v : V) (d : dict V) : dict V :=
  match d with
  | [] => [(key, v)]
  | (k', v') :: d' =>
      if str_eqb k' key then (k', v) :: d' else (k', v') :: dict_set key v d'
  end.

(** ** Element trees ([xml.etree.ElementTree]) *)

#[local] Set Warnings "-register-all".

Inductive Element : Type :=
| Elem (tag : str) (attrib : dict str) (etext : option str)
       (children : list Element) (tail : option str).

Definition el_attrib (e : Element) : dict str :=
  match e with Elem _ a _ _ _ => a end.
Definition el_children (e : Element) : list Element :=
  match e with Elem _ _ _ c _ => c end.

Definition or_empty (o : option str) : str :=
  match o with Some s => s | None => [] end.

Definition el_tail (e : Element) : option str :=
  match e with Elem _ _ _ _ tl => tl end.

(** Modelled from the spec: the visible text of a heading, which
    [nbconvert.filters.strings.add_anchor] (not among the sources) reads.
    It is the text inside the element: its own, and for each child the
    visible text of the child and the text that follows the child. *)
Fixpoint visible_text (element : Element) : str :=
  match element with
  | Elem _ _ t children _ =>
      or_empty t
        ++ flat_map
             (fun child => visible_text child ++ or_empty (el_tail child))
             children
  end.

(** [h.set(key, v)] and [h.append(a)]. *)
Definition el_set (key v : str) (e : Element) : Element :=
  match e with Elem tg a t c tl => Elem tg (dict_set key v a) t c tl end.
Definition el_append (child : Element) (e : Element) : Element :=
  match e with Elem tg a t c tl => Elem tg a t (c ++ [child]) tl end.

(** Modelled from the spec: whitespace replaced by hyphens, one hyphen for
    each whitespace character.  This is the id that
    [nbconvert.filters.strings.add_anchor] (not among the sources) derives
    from the visible text. *)
Fixpoint hyphenate_whitespace (s : str) : str :=
  match s with
  | c1 :: s1 =>
      if isspace c1 then chr "-" :: hyphenate_whitespace s1
      else
        match s1 with
        | c2 :: s2 =>
            if isspace2 c1 c2 then chr "-" :: hyphenate_whitespace s2
            else
              match s2 with
              | c3 :: s3 =>
                  if isspace3 c1 c2 c3 then chr "-" :: hyphenate_whitespace s3
                  else c1 :: hyphenate_whitespace s1
              | [] => c1 :: hyphenate_whitespace s1
              end
        | [] => c1 :: hyphenate_whitespace s1
        end
  | [] => []
  end.

(** Modelled from the spec: [nbconvert.filters.strings.add_anchor], which
    [IPythonRenderer.heading] imports and calls with [anchor_link_text], is
    not among the sources; [IPython/nbconvert/filters/strings.py] holds a
    function of that name with one argument, which [heading] cannot call.
    By the spec the heading gets, appended, an anchor link whose target id
    is derived from the heading's visible text with whitespace replaced by
    hyphens, and whose visible glyph is the configured anchor-link text.
    So the heading takes that id, and the link, which shows the glyph,
    points to it.  The function acts on the parsed heading. *)
Definition add_anchor_element (h : Element) (anchor_link_text : str)
    : Element :=
  let link := hyphenate_whitespace (visible_text h) in
  let h1 := el_set (lit "id") link h in
  let a := Elem (lit "a") [(lit "href", lit "#" ++ link)]
             (Some anchor_link_text) [] None in
  el_append a h1.

(** ** Errors *)

Inductive error : Type :=
| InvalidNotebook (msg : str)     (* raised by [image] *)
| IndexError                      (* [...][0] of an empty list *)
| KeyError
| IsADirectoryError               (* [open] of a directory *)
| OSError.                        (* [open] or [read] fails otherwise *)

Inductive result (A : Type) : Type :=
| Ok (a : A)
| Raise (e : error).
Arguments Ok {A}.
Arguments Raise {A}.

Definition bind {A B : Type} (x : result A) (f : A -> result B) : result B :=
  match x with
  | Ok a => f a
  | Raise e => Raise e
  end.

Notation "x <- e ;; k" := (bind e (fun x => k))
  (at level 61, e at next level, right associativity).
Notation "' p <- e ;; k" := (bind e (fun x => let 'p := x in k))
  (at level 61, p pattern, e at next level, right associativity).

(** ** [IPythonRenderer] *)

(** What a path names when [os.path.exists] holds of it: a file that can
    be read, a directory, or something that [open] or [read] refuses with an
    [OSError] of another kind: a file without the permission to read it
    ([PermissionError]), a socket. *)
Inductive node : Type :=
| File (content : str)
| Directory
| Unreadable.

Record IPythonRenderer : Type := MkRenderer {
  embed_images : bool;
  exclude_anchor_links : bool;
  anchor_link_text : str;
  path : str;
  attachments : dict (dict str)
}.

(** The defaults of [__init__]; the default glyph is the pilcrow, U+00B6. *)
Definition pilcrow : str := [ascii_of_nat 194; ascii_of_nat 182].
Definition default_renderer : IPythonRenderer :=
  MkRenderer false false pilcrow [] [].

Section Renderer.

(** What the renderer calls and does not define. *)
Variable lexer : Type.
(** pygments: [None] stands for [ClassNotFound]. *)
Variable get_lexer_by_name : str -> option lexer.
(** [highlight(code, lexer, HtmlFormatter())] *)
Variable highlight : str -> option lexer -> str.
(** The methods of mistune's [HTMLRenderer] that are reached by [super()]. *)
Variable HTMLRenderer_block_code : str -> str.
Variable HTMLRenderer_heading : str -> nat -> dict str -> str.
Variable HTMLRenderer_image : str -> str -> option str -> str.
(** The parser and the printer of the heading markup; [None] when the
    markup is not one element. *)
Variable fromstring : str -> option Element.
Variable tostring : Element -> str.
(** The file system: [os.path.join], what a path names, [mimetypes] and
    [base64]. *)
Variable os_path_join : str -> str -> str.
Variable fs : str -> option node.
Variable guess_type : str -> option str.
Variable b64encode : str -> str.

Variable self : IPythonRenderer.

Definition escape_html (s : str) : str := html_escape s.

Definition block_math (body : str) : str :=
  lit "$$" ++ escape_html body ++ lit "$$".

Definition latex_environment (name body : str) : str :=
  let name := escape_html name in
  let body := escape_html body in
  lit "\begin{" ++ name ++ lit "}" ++ body ++ lit "\end{" ++ name ++ lit "}".

Definition inline_math (body : str) : str :=
  lit "$" ++ escape_html body ++ lit "$".

Definition block_mermaidjs (code : str) : str :=
  lit "<div class=" ++ [dquote] ++ lit "jp-Mermaid" ++ [dquote]
    ++ lit "><pre class=" ++ [dquote] ++ lit "mermaid" ++ [dquote]
    ++ lit ">" ++ [newline]
    ++ strip code
    ++ [newline] ++ lit "</pre></div>".

(** [if info]: neither [None] nor empty. *)
Definition truthy (info : option str) : option str :=
  match info with
  | Some [] => None
  | other => other
  end.

(** [not lang]: [None] or empty. *)
Definition falsy (lang : option str) : bool :=
  match lang with
  | Some (_ :: _) => false
  | _ => true
  end.

Definition block_code (code : str) (info : option str) : result str :=
  let lang : option str := Some [] in
  let lx : option lexer := None in
  match truthy info with
  | Some i =>
      if startswith i (lit "mermaid") then Ok (block_mermaidjs code)
      else
        '(code, lang, lx) <-
          match split_first (strip i) with
          | None => Raise IndexError
          | Some lang =>
              match get_lexer_by_name lang with
              | Some l => Ok (code, Some lang, Some l)
              | None =>
                  (* except ClassNotFound *)
                  Ok (lang ++ [newline] ++ code, None, None)
              end
          end ;;
        if falsy lang then Ok (HTMLRenderer_block_code code)
        else Ok (highlight code lx)
  | None =>
      if falsy lang then Ok (HTMLRenderer_block_code code)
      else Ok (highlight code lx)
  end.

(** Modelled from the spec: [add_anchor] on markup.  The spec does not say
    what becomes of markup that is not one element: there is no result
    then. *)
Definition add_anchor (html : str) (glyph : str) : option str :=
  match fromstring html with
  | Some h => Some (tostring (add_anchor_element h glyph))
  | None => None
  end.

Definition heading (txt : str) (level : nat) (attrs : dict str)
    : option str :=
  let html := HTMLRenderer_heading txt level attrs in
  if exclude_anchor_links self then Some html
  else add_anchor html (anchor_link_text self).

(** [f"{mime_type}"]: [None] prints as its name. *)
Definition format_optional (o : option str) : str :=
  match o with
  | Some s => s
  | None => lit "None"
  end.

(** [_src_to_base64]: [None] when nothing is at the path. *)
Definition _src_to_base64 (src : str) : result (option str) :=
  let src_path := os_path_join (path self) src in
  match fs src_path with
  | None => Ok None
  | Some Directory => Raise IsADirectoryError
  | Some Unreadable => Raise OSError
  | Some (File content) =>
      let mime_type := guess_type src_path in
      let base64_data := b64encode content in
      let base64_str := replace_char newline [] base64_data in
      Ok (Some (lit "data:" ++ format_optional mime_type
                  ++ lit ";base64," ++ base64_str))
  end.

Definition preferred_mime_types : list str :=
  [lit "image/svg+xml"; lit "image/png"; lit "image/jpeg"].

Definition attachment_prefix : str := lit "attachment:".

Definition image (txt url : str) (title : option str) : result str :=
  match strip_prefix attachment_prefix url with
  | Some name =>
      match dict_get name (attachments self) with
      | None => Raise (InvalidNotebook (lit "missing attachment: " ++ name))
      | Some attachment =>
          (* vector over raster, and lossless over lossy *)
          mime_type <-
            match find (fun p => dict_mem p attachment)
                    preferred_mime_types with
            | Some p => Ok p
            | None =>
                (* otherwise the first mimetype that can be found *)
                match dict_keys attachment with
                | k0 :: _ => Ok k0
                | [] => Raise IndexError
                end
            end ;;
          data <-
            match dict_get mime_type attachment with
            | Some d => Ok d
            | None => Raise KeyError
            end ;;
          let url := lit "data:" ++ mime_type ++ lit ";base64," ++ data in
          Ok (HTMLRenderer_image txt url title)
      end
  | None =>
      if embed_images self then
        base64_url <- _src_to_base64 url ;;
        match base64_url with
        | Some u => Ok (HTMLRenderer_image txt u title)
        | None => Ok (HTMLRenderer_image txt url title)
        end
      else Ok (HTMLRenderer_image txt url title)
  end.

(** How mistune's [render_token] reaches the math methods: a token with
    [raw] gives it as the one argument, a token with [attrs] gives them by
    name. Other tokens are rendered by mistune. *)
Definition render_math_token {other : Type} (t : token other)
    : option str :=
  match t with
  | tok_block_math raw => Some (block_math raw)
  | tok_inline_math raw => Some (inline_math raw)
  | tok_latex_environment name body => Some (latex_environment name body)
  | _ => None
  end.

End Renderer.

(** ** Raw HTML ([bs4])

    In embed-images mode [block_html] and [inline_html] send the markup
    through [bs4]: the text is parsed, the [src] of every [img] tag that
    names an existing file is replaced by a data URL, and the tree is
    printed again. *)

(** The tree of [bs4]: a string, or a tag with its attributes and its
    contents. *)
Inductive PageElement : Type :=
| NavigableString (s : str)
| Tag (name : str) (attrs : dict str) (contents : list PageElement).

Fixpoint mapM {A B : Type} (f : A -> result B) (l : list A)
    : result (list B) :=
  match l with
  | [] => Ok []
  | x :: l' =>
      y <- f x ;;
      l'' <- mapM f l' ;;
      Ok (y :: l'')
  end.

Section Html.

Variable os_path_join : str -> str -> str.
Variable fs : str -> option node.
Variable guess_type : str -> option str.
Variable b64encode : str -> str.
(** [bs4.BeautifulSoup(html, features="html.parser")], as the contents of
    the document, and [str(parsed_html)]. *)
Variable BeautifulSoup : str -> list PageElement.
Variable soup_str : list PageElement -> str.
Variable HTMLRenderer_block_html : str -> str.
Variable HTMLRenderer_inline_html : str -> str.

Variable self : IPythonRenderer.

(** The body of the loop of [_html_embed_images], on the attributes of one
    [img] tag. *)
Definition embed_src (a : dict str) : result (dict str) :=
  match dict_get (lit "src") a with
  | None => Ok a   (* continue *)
  | Some src =>
      base64_url <-
        _src_to_base64 os_path_join fs guess_type b64encode self src ;;
      match base64_url with
      | Some u => Ok (dict_set (lit "src") u a)
      | None => Ok a
      end
  end.

(** [find_all("img")] lists the [img] tags below the document in document
    order; the loop visits them in that order and rewrites each in
    place. *)
Fixpoint embed_images_in (e : PageElement) : result PageElement :=
  match e with
  | NavigableString s => Ok (NavigableString s)
  | Tag name a contents =>
      a' <- (if str_eqb name (lit "img") then embed_src a else Ok a) ;;
      contents' <- mapM embed_images_in contents ;;
      Ok (Tag name a' contents')
  end.

Definition _html_embed_images (html : str) : result str :=
  let parsed_html := BeautifulSoup html in
  parsed_html' <- mapM embed_images_in parsed_html ;;
  Ok (soup_str parsed_html').

Definition block_html (html : str) : result str :=
  html <- (if embed_images self then _html_embed_images html else Ok html) ;;
  Ok (HTMLRenderer_block_html html).

Definition inline_html (html : str) : result str :=
  html <- (if embed_images self then _html_embed_images html else Ok html) ;;
  Ok (HTMLRenderer_inline_html html).

End Html.

(** ** String filters ([IPython/nbconvert/filters/strings.py]) *)

(** [s.split(sep)] for a one-character separator: the pieces between the
    separators, at least one. *)
Fixpoint str_split (sep : ascii) (s : str) : list str :=
  match s with
  | [] => [[]]
  | c :: s' =>
      if Ascii.eqb c sep then [] :: str_split sep s'
      else
        match str_split sep s' with
        | piece :: pieces => (c :: piece) :: pieces
        | [] => [[c]]
        end
  end.

(** [sep.join(pieces)] *)
Fixpoint str_join (sep : str) (pieces : list str) : str :=
  match pieces with
  | [] => []
  | [piece] => piece
  | piece :: pieces' => piece ++ sep ++ str_join sep pieces'
  end.

(** [s.lstrip(chars)] and [s.strip(chars)] *)
Fixpoint lstrip_chars (chars : list ascii) (s : str) : str :=
  match s with
  | c :: s' => if mem c chars then lstrip_chars chars s' else s
  | [] => []
  end.

Definition strip_chars (chars : list ascii) (s : str) : str :=
  rev (lstrip_chars chars (rev (lstrip_chars chars s))).

Definition strip_dollars (text : str) : str := strip_chars [dollar] text.

Definition python_comment (text : str) : str :=
  lit "# " ++ str_join (newline :: lit "# ") (str_split newline text).

(** An index of a slice [l[start:end]] on a list of length [n]: a negative
    index counts from the end, and every index is clipped to the list. *)
Definition slice_index (n : nat) (i : option Z) (default : nat) : nat :=
  match i with
  | None => default
  | Some z =>
      if (z <? 0)%Z then Z.to_nat (Z.max 0 (z + Z.of_nat n))
      else Nat.min n (Z.to_nat z)
  end.

Definition list_slice {A : Type} (l : list A) (start end_ : option Z)
    : list A :=
  let n := length l in
  let lo := slice_index n start 0 in
  let hi := slice_index n end_ n in
  firstn (hi - lo) (skipn lo l).

Definition get_lines (text : str) (start end_ : option Z) : str :=
  let lines := str_split newline text in
  str_join [newline] (list_slice lines start end_).

Definition squote : ascii := ascii_of_nat 39.

(** [files_url_pattern]: [src] or [href] as group 1, an equals sign, at most
    one quote, single or double, as group 2, and [files/]. *)
Definition files_url_pattern : regex :=
  Cats [Group "1" (Or (Lits "src") (Lits "href")); Lit (chr "=");
        Group "2" (Opt (OneOf [squote; dquote])); Lits "files/"].

(** [pattern.sub(repl, text)] for a pattern that matches no empty text:
    the matches are taken from left to right, each search starting where
    the match before ended; the text between the matches is kept and each
    match gives way to its replacement.  [fuel] bounds the matches. *)
Fixpoint sub_from (r : regex) (repl : Match -> str) (src : str)
    (fuel pos : nat) : str :=
  match fuel with
  | 0 => skipn pos src
  | S fuel' =>
      match search r src pos with
      | None => skipn pos src
      | Some m =>
          slice src pos (m_start m) ++ repl m
            ++ sub_from r repl src fuel' (m_end m)
      end
  end.

Definition sub (r : regex) (repl : Match -> str) (src : str) : str :=
  sub_from r repl src (length src) 0.

(** The template [\1=\2]. *)
Definition rm_fake_repl (m : Match) : str :=
  group_or_empty m "1" ++ lit "=" ++ group_or_empty m "2".

Definition rm_fake (text : str) : str :=
  sub files_url_pattern rm_fake_repl text.

(** ** [rm_math_space] ([filters/latex.py])

    The function walks through the text once, one character at a time,
    and keeps its state in local variables. *)
Record math_state : Type := MathState {
  math_regions : list (nat * nat);
  math_lines : nat;
  within_math : bool;
  math_start_index : nat;
  ptext : str;
  last_character : option ascii;   (* [None] for the empty string *)
  skip : bool
}.

Definition math_state_init : math_state :=
  MathState [] 0 false 0 [] None false.

Definition is_backslash (last : option ascii) : bool :=
  match last with
  | Some c => Ascii.eqb c backslash
  | None => false
  end.

(** The body of the loop, for the character [char] at [index]. *)
Definition rm_math_space_step (text : str) (st : math_state) (index : nat)
    (char : ascii) : math_state :=
  let st1 :=
    if Ascii.eqb char dollar && negb (is_backslash (last_character st)) then
      if within_math st then
        (* an ending dollar closes the math region *)
        MathState
          (math_regions st ++ [(math_start_index st, index + 1)])
          (math_lines st) false (math_start_index st)
          (ptext st ++ lit "$"
             ++ strip (slice text (math_start_index st + 1) index)
             ++ lit "$")
          (last_character st) true
      else
        (* a new math region starts *)
        MathState (math_regions st) 0 true index (ptext st)
          (last_character st) (skip st)
    else if Ascii.eqb char newline then
      if within_math st then
        let lines := math_lines st + 1 in
        if 1 <? lines then
          (* two line breaks cancel the math region *)
          MathState (math_regions st) lines false (math_start_index st)
            (ptext st ++ slice text (math_start_index st) index)
            (last_character st) (skip st)
        else
          MathState (math_regions st) lines (within_math st)
            (math_start_index st) (ptext st) (last_character st) (skip st)
      else st
    else st in
  let st2 :=
    MathState (math_regions st1) (math_lines st1) (within_math st1)
      (math_start_index st1) (ptext st1) (Some char) (skip st1) in
  let st3 :=
    if negb (within_math st2) && negb (skip st2) then
      MathState (math_regions st2) (math_lines st2) (within_math st2)
        (math_start_index st2) (ptext st2 ++ [char]) (last_character st2)
        (skip st2)
    else st2 in
  if skip st3 then
    MathState (math_regions st3) (math_lines st3) (within_math st3)
      (math_start_index st3) (ptext st3) (last_character st3) false
  else st3.

(** [for index, char in enumerate(text)], from [index] on. *)
Fixpoint rm_math_space_loop (text : str) (index : nat) (rest : str)
    (st : math_state) : math_state :=
  match rest with
  | [] => st
  | char :: rest' =>
      rm_math_space_loop text (S index) rest'
        (rm_math_space_step text st index char)
  end.

Definition rm_math_space (text : str) : str :=
  ptext (rm_math_space_loop text 0 text math_state_init).

(** ** Vocabulary of the statements *)

(** Characters that open no math rule: neither a dollar nor a backslash. *)
Definition plain (c : ascii) : bool :=
  negb (Ascii.eqb c dollar) && negb (Ascii.eqb c backslash).

Definition plain_text (s : str) : bool := forallb plain s.

Definition ends_with_backslash (s : str) : bool :=
  match rev s with
  | c :: _ => Ascii.eqb c backslash
  | [] => false
  end.

Definition math_patterns : list regex :=
  [BLOCK_MATH_TEX; BLOCK_MATH_LATEX; INLINE_MATH_TEX; INLINE_MATH_LATEX;
   LATEX_ENVIRONMENT; MULTILINE_MATH].

(** The [text] token of a stretch between two matches; an empty stretch
    leaves no token. *)
Definition text_hole {other : Type} (s : str) : list (token other) :=
  match s with
  | [] => []
  | _ => [tok_text s]
  end.

(** The last character of a text, if there is one, is neither a dollar nor
    a backslash. *)
Definition last_is_plain (s : str) : Prop :=
  match rev s with
  | c :: _ => plain c = true
  | [] => True
  end.

(** No rule of mistune: the math rules run alone. *)
Definition no_rule {other : Type} (src : str) (pos : nat)
    : option (list (token other) * nat) := None.

(** The names [[a-z]*\*?] admits: lowercase letters, then maybe a star. *)
Definition is_env_name (name : str) : Prop :=
  exists letters,
    forallb (in_range (chr "a") (chr "z")) letters = true /\
    (name = letters \/ name = letters ++ [chr "*"]).

(** Nothing for [html_escape] to replace. *)
Definition no_markup (s : str) : bool :=
  forallb (fun c => negb (mem c [chr "&"; chr "<"; chr ">"])) s.

Definition has_type (attachment : dict str) (p : string) : bool :=
  dict_mem (lit p) attachment.

(** The MIME type the spec asks for: the first of SVG, PNG and JPEG that the
    attachment has, else a type that the attachment has (here its first). *)
Definition preferred_choice (attachment : dict str) (mime : str) : Prop :=
  (has_type attachment "image/svg+xml" = true -> mime = lit "image/svg+xml") /\
  (has_type attachment "image/svg+xml" = false ->
   has_type attachment "image/png" = true -> mime = lit "image/png") /\
  (has_type attachment "image/svg+xml" = false ->
   has_type attachment "image/png" = false ->
   has_type attachment "image/jpeg" = true -> mime = lit "image/jpeg") /\
  (has_type attachment "image/svg+xml" = false ->
   has_type attachment "image/png" = false ->
   has_type attachment "image/jpeg" = false ->
   hd_error (dict_keys attachment) = Some mime).

Definition data_url (mime data : str) : str :=
  lit "data:" ++ mime ++ lit ";base64," ++ data.

(** Stand-ins for the collaborators, for closed examples: an image renderer
    that shows the URL it is given, an empty file system, a path join that
    concatenates, no MIME guess, and an encoder that leaves bytes alone. *)
Definition show_url (txt url : str) (title : option str) : str := url.
Definition concat_path (a b : str) : str := a ++ b.
Definition empty_fs (p : str) : option node := None.
Definition no_guess (p : str) : option str := None.
Definition id_encode (content : str) : str := content.

(** A file system with one file, [figures/plot] with content [abc], and a
    guess of [image/png] for every name. *)
Definition one_file_fs (p : str) : option node :=
  if str_eqb p (lit "figures/plot") then Some (File (lit "abc")) else None.
Definition guess_png (p : str) : option str := Some (lit "image/png").

(** A highlighter that knows one language, and a plain block renderer. *)
Definition only_python (name : str) : option unit :=
  if str_eqb name (lit "python") then Some tt else None.
Definition mark_highlight (code : str) (lx : option unit) : str :=
  lit "<div class=highlight><pre>" ++ code ++ lit "</pre></div>".
Definition plain_block (code : str) : str :=
  lit "<pre><code>" ++ code ++ lit "</code></pre>".

(** The anchor link to an id, showing a glyph. *)
Definition anchor_element (link glyph : str) : Element :=
  Elem (lit "a") [(lit "href", lit "#" ++ link)] (Some glyph) [] None.

(** Stand-ins for mistune's heading, for the parser and for the printer, on
    headings without markup: [<h1>text</h1>] parses to an element with that
    text, and an element is printed as its id, a space, and the target and
    the glyph of its last child. *)
Definition plain_heading (txt : str) (level : nat) (attrs : dict str) : str :=
  lit "<h1>" ++ txt ++ lit "</h1>".
Definition parse_plain_heading (html : str) : option Element :=
  if startswith html (lit "<h1>") then
    Some (Elem (lit "h1") []
            (Some (firstn (length html - 9) (skipn 4 html))) [] None)
  else None.
Definition show_id (e : Element) : str :=
  or_empty (dict_get (lit "id") (el_attrib e)) ++ lit " "
    ++ match rev (el_children e) with
       | Elem _ a t _ _ :: _ =>
           or_empty (dict_get (lit "href") a) ++ or_empty t
       | [] => []
       end.

(** Counting the tokens of a kind in the outcome of a parse. *)
Definition is_block_math {other : Type} (t : token other) : bool :=
  match t with tok_block_math _ => true | _ => false end.
Definition is_inline_math {other : Type} (t : token other) : bool :=
  match t with tok_inline_math _ => true | _ => false end.
Definition count_tokens {other : Type} (kind : token other -> bool)
    (outcome : option (list (token other))) : nat :=
  match outcome with
  | Some tokens => length (filter kind tokens)
  | None => 0
  end.

(** ** Vocabulary of the further properties *)

(** A text that is safe inside HTML: no angle bracket, and every ampersand
    opens one of the entities [&amp;], [&lt;], [&gt;]. *)
Fixpoint well_escaped (s : str) : bool :=
  match s with
  | [] => true
  | c :: s' =>
      if Ascii.eqb c (chr "<") || Ascii.eqb c (chr ">") then false
      else if Ascii.eqb c (chr "&") then
        (startswith s' (lit "amp;") || startswith s' (lit "lt;")
           || startswith s' (lit "gt;")) && well_escaped s'
      else well_escaped s'
  end.

(** An encoder that breaks its output into lines. *)
Definition lines_encode (content : str) : str :=
  flat_map (fun c => [c; newline]) content.

(** The [src] attributes of the [img] tags of a tree, in document order. *)
Fixpoint img_srcs (e : PageElement) : list str :=
  match e with
  | NavigableString _ => []
  | Tag name a contents =>
      (if str_eqb name (lit "img") then
         match dict_get (lit "src") a with
         | Some src => [src]
         | None => []
         end
       else [])
      ++ flat_map img_srcs contents
  end.

Fixpoint dict_remove {V : Type} (key : str) (d : dict V) : dict V :=
  match d with
  | [] => []
  | (k', v) :: d' =>
      if str_eqb k' key then dict_remove key d'
      else (k', v) :: dict_remove key d'
  end.

(** A tree without the [src] attributes of its [img] tags. *)
Fixpoint forget_src (e : PageElement) : PageElement :=
  match e with
  | NavigableString s => NavigableString s
  | Tag name a contents =>
      Tag name
        (if str_eqb name (lit "img") then dict_remove (lit "src") a else a)
        (map forget_src contents)
  end.

(** Stand-ins for [bs4] and for the raw HTML of mistune: a parser that
    knows one document, a link around an image, a printer that lists the
    [src] attributes, and renderers that leave the markup alone. *)
Definition one_image_soup (html : str) : list PageElement :=
  [Tag (lit "a") [(lit "href", lit "plot")]
     [Tag (lit "img") [(lit "alt", lit "x"); (lit "src", lit "plot")] [];
      NavigableString (lit "see")]].
Definition show_srcs (soup : list PageElement) : str :=
  str_join (lit " ") (flat_map img_srcs soup).
Definition same_html (html : str) : str := html.
Definition dir_fs (p : str) : option node :=
  if str_eqb p (lit "figures/plot") then Some Directory else None.
Definition locked_fs (p : str) : option node :=
  if str_eqb p (lit "figures/plot") then Some Unreadable else None.

(** The error of the first thing, in a list of what paths name, that
    cannot be read. *)
Fixpoint first_refused (nodes : list (option node)) : option error :=
  match nodes with
  | [] => None
  | Some Directory :: _ => Some IsADirectoryError
  | Some Unreadable :: _ => Some OSError
  | _ :: nodes' => first_refused nodes'
  end.

(** What [files_url_pattern] reads at the head of a text, after the
    attribute name [attr]: the equals sign, a quote if there is one, and
    [files/]; the result is the name, the quote and the text that
    follows. *)
Definition files_url_tail (attr r : str) : option (str * str * str) :=
  match strip_prefix (lit "=") r with
  | None => None
  | Some r1 =>
      let '(q, r2) :=
        match r1 with
        | c :: r' => if mem c [squote; dquote] then ([c], r') else ([], r1)
        | [] => ([], r1)
        end in
      match strip_prefix (lit "files/") r2 with
      | Some rest => Some (attr, q, rest)
      | None => None
      end
  end.

Definition files_url_head (s : str) : option (str * str * str) :=
  match strip_prefix (lit "src") s with
  | Some r => files_url_tail (lit "src") r
  | None =>
      match strip_prefix (lit "href") s with
      | Some r => files_url_tail (lit "href") r
      | None => None
      end
  end.

(** A stand-in for a rule of mistune: a star becomes a token of its own
    and the cursor moves past it. *)
Definition star_rule (src : str) (pos : nat)
    : option (list (token unit) * nat) :=
  match skipn pos src with
  | c :: _ =>
      if Ascii.eqb c (chr "*") then Some ([tok_inherited tt], S pos) else None
  | [] => None
  end.

(** Every dollar of the text comes right after a backslash; [last] is the
    character before the text. *)
Fixpoint dollars_escaped (last : option ascii) (s : str) : bool :=
  match s with
  | [] => true
  | c :: s' =>
      (negb (Ascii.eqb c dollar) || is_backslash last)
        && dollars_escaped (Some c) s'
  end.

Definition last_of (last : option ascii) (s : str) : option ascii :=
  match rev s with
  | c :: _ => Some c
  | [] => last
  end.

(** The line breaks of a text. *)
Definition line_breaks (s : str) : nat :=
  length (filter (Ascii.eqb newline) s).

(** Two whitespace characters outside ASCII: the no-break space, U+00A0,
    and the em space, U+2003. *)
Definition no_break_space : str := [ascii_of_nat 194; ascii_of_nat 160].
Definition em_space : str :=
  [ascii_of_nat 226; ascii_of_nat 128; ascii_of_nat 131].

(** A byte that continues a character of several bytes. *)
Definition continuation (c : ascii) : bool :=
  let n := nat_of_ascii c in
  (128 <=? n) && (n <=? 191).

(** The text does not start in the middle of a character. *)
Definition starts_char (s : str) : bool :=
  match s with
  | c :: _ => negb (continuation c)
  | [] => true
  end.

(** No whitespace character starts in the text. *)
Fixpoint no_space (s : str) : bool :=
  match s with
  | _ :: s' =>
      match skip_space s with
      | Some _ => false
      | None => no_space s'
      end
  | [] => true
  end.

(** * Properties *)

(** ** Text *)

Lemma str_eqb_refl (a : str) : str_eqb a a = true.
Proof.
  induction a as [|x a IH]; simpl; [reflexivity|].
  now rewrite Ascii.eqb_refl, IH.
Qed.

Lemma strip_prefix_app (p s : str) : strip_prefix p (p ++ s) = Some s.
Proof.
  induction p as [|x p IH]; simpl; [reflexivity|].
  now rewrite Ascii.eqb_refl.
Qed.

Lemma strip_prefix_some (p s r : str) :
  strip_prefix p s = Some r -> s = p ++ r.
Proof.
  revert s; induction p as [|x p IH]; intros s H; simpl in *.
  - now injection H as ->.
  - destruct s as [|y s]; [discriminate|].
    destruct (Ascii.eqb x y) eqn:E; [|discriminate].
    apply Ascii.eqb_eq in E; subst y. f_equal. now apply IH.
Qed.

Lemma startswith_cons (x y : ascii) (d s : str) :
  startswith (y :: s) (x :: d) = Ascii.eqb x y && startswith s d.
Proof. unfold startswith; simpl. now destruct (Ascii.eqb x y). Qed.

(** A prefix that fits in the first part of a text is a prefix of it. *)
Lemma startswith_app_short (d x y : str) :
  startswith (x ++ y) d = true -> length d <= length x ->
  startswith x d = true.
Proof.
  revert x; induction d as [|c d IH]; intros x H Hlen; [reflexivity|].
  destruct x as [|a x]; simpl in Hlen; [lia|].
  simpl app in H. rewrite startswith_cons in *.
  apply andb_true_iff in H as [Hc H]. rewrite Hc; simpl.
  apply IH; [assumption | lia].
Qed.

Lemma startswith_app_prefix (p q s : str) :
  startswith s (p ++ q) =
  match strip_prefix p s with
  | Some r => startswith r q
  | None => false
  end.
Proof.
  revert s; induction p as [|x p IH]; intros s; [reflexivity|].
  destruct s as [|y s]; [reflexivity|].
  cbn [app]. rewrite startswith_cons. cbn [strip_prefix].
  destruct (Ascii.eqb x y); [apply IH | reflexivity].
Qed.

Lemma startswith_2 (s : str) (x y : ascii) :
  startswith s [x; y] =
  match s with
  | a :: b :: _ => Ascii.eqb x a && Ascii.eqb y b
  | _ => false
  end.
Proof.
  destruct s as [|a [|b s]]; unfold startswith; simpl;
    try destruct (Ascii.eqb x a); try destruct (Ascii.eqb y b); reflexivity.
Qed.

Lemma startswith_3 (s : str) (x y z : ascii) :
  startswith s [x; y; z] =
  match s with
  | a :: b :: c :: _ => Ascii.eqb x a && Ascii.eqb y b && Ascii.eqb z c
  | _ => false
  end.
Proof.
  destruct s as [|a [|b [|c s]]]; unfold startswith; simpl;
    try destruct (Ascii.eqb x a); try destruct (Ascii.eqb y b);
    try destruct (Ascii.eqb z c); reflexivity.
Qed.

Lemma occurs_head (d s : str) : occurs d s = false -> startswith s d = false.
Proof.
  destruct s; simpl; intros H; apply orb_false_iff in H; tauto.
Qed.

Lemma occurs_suffix (d a s : str) :
  occurs d (a ++ s) = false -> occurs d s = false.
Proof.
  induction a as [|x a IH]; simpl; [tauto|].
  intros H. apply orb_false_iff in H as [_ H]. now apply IH.
Qed.

(** When the text [d0 ++ [x]] does not occur in [body ++ d0], its first
    occurrence in [body ++ d0 ++ [x] ++ post] is the one after [body]. *)
Lemma no_early_occurrence (d0 : str) (x : ascii) (body b1 b2 post : str)
    (c : ascii) :
  occurs (d0 ++ [x]) (body ++ d0) = false ->
  body = b1 ++ c :: b2 ->
  startswith (c :: b2 ++ (d0 ++ [x]) ++ post) (d0 ++ [x]) = false.
Proof.
  intros Hocc ->.
  destruct (startswith (c :: b2 ++ (d0 ++ [x]) ++ post) (d0 ++ [x])) eqn:E;
    [|reflexivity].
  exfalso.
  replace (c :: b2 ++ (d0 ++ [x]) ++ post)
    with ((c :: b2 ++ d0) ++ ([x] ++ post)) in E
    by (simpl; now rewrite <- !app_assoc).
  apply startswith_app_short in E.
  - rewrite <- app_assoc in Hocc. apply occurs_suffix in Hocc.
    apply occurs_head in Hocc. simpl app in Hocc. congruence.
  - simpl. rewrite !length_app. simpl. lia.
Qed.

Lemma plain_not_dollar (c : ascii) : plain c = true -> Ascii.eqb dollar c = false.
Proof.
  unfold plain. intros H. apply andb_true_iff in H as [H _].
  rewrite Ascii.eqb_sym. now apply negb_true_iff.
Qed.

Lemma plain_not_backslash (c : ascii) :
  plain c = true -> Ascii.eqb backslash c = false.
Proof.
  unfold plain. intros H. apply andb_true_iff in H as [_ H].
  rewrite Ascii.eqb_sym. now apply negb_true_iff.
Qed.

Lemma mem_guard_plain (c : ascii) :
  mem c [dollar; backslash] = false <-> plain c = true.
Proof.
  unfold plain, mem; simpl. rewrite orb_false_r.
  destruct (Ascii.eqb c dollar), (Ascii.eqb c backslash); simpl;
    split; congruence.
Qed.

Lemma plain_text_skipn (pre rest : str) (p : nat) :
  plain_text pre = true -> p < length pre ->
  exists c s, skipn p (pre ++ rest) = c :: s /\ plain c = true.
Proof.
  revert p; induction pre as [|x pre IH]; intros p H Hp; simpl in *; [lia|].
  apply andb_true_iff in H as [Hx H].
  destruct p as [|p]; simpl.
  - now exists x, (pre ++ rest).
  - apply IH; [assumption | lia].
Qed.

Lemma plain_text_last (pre : str) :
  plain_text pre = true ->
  match rev pre with c :: _ => plain c = true | [] => True end.
Proof.
  intros H. destruct (rev pre) as [|c r] eqn:E; [exact I|].
  unfold plain_text in H. rewrite forallb_forall in H. apply H.
  apply in_rev. rewrite E. now left.
Qed.

Lemma ends_with_backslash_rev (s : str) :
  ends_with_backslash s = false ->
  match rev s with c :: _ => Ascii.eqb c backslash = false | [] => True end.
Proof. unfold ends_with_backslash. now destruct (rev s). Qed.

Lemma plain_text_no_backslash (s : str) :
  plain_text s = true -> ends_with_backslash s = false.
Proof.
  intros H. pose proof (plain_text_last s H) as Hl.
  unfold ends_with_backslash. destruct (rev s) as [|c r]; [reflexivity|].
  rewrite Ascii.eqb_sym. now apply plain_not_backslash.
Qed.

Lemma replace_char_absent (c : ascii) (by_ s : str) :
  forallb (fun x => negb (Ascii.eqb x c)) s = true ->
  replace_char c by_ s = s.
Proof.
  unfold replace_char. induction s as [|x s IH]; simpl; [reflexivity|].
  intros H. apply andb_true_iff in H as [Hx Hs].
  apply negb_true_iff in Hx. rewrite Hx. simpl. now rewrite IH.
Qed.

Lemma html_escape_no_markup (s : str) :
  no_markup s = true -> html_escape s = s.
Proof.
  unfold no_markup, html_escape. intros H.
  assert (Hc : forall c, In c [chr "&"; chr "<"; chr ">"] ->
               forallb (fun x => negb (Ascii.eqb x c)) s = true).
  { intros c Hin. apply forallb_forall. intros x Hx.
    rewrite forallb_forall in H. specialize (H x Hx).
    apply negb_true_iff in H. apply negb_true_iff.
    destruct (Ascii.eqb x c) eqn:E; [|reflexivity].
    apply Ascii.eqb_eq in E; subst x.
    simpl in Hin. unfold mem in H. simpl in H.
    destruct Hin as [<-|[<-|[<-|[]]]]; simpl in H; discriminate. }
  rewrite (replace_char_absent (chr "&")) by (apply Hc; simpl; auto).
  rewrite (replace_char_absent (chr "<")) by (apply Hc; simpl; auto).
  rewrite (replace_char_absent (chr ">")) by (apply Hc; simpl; auto).
  reflexivity.
Qed.

Lemma env_name_no_markup (name : str) :
  is_env_name name -> no_markup name = true.
Proof.
  intros (letters & Hl & Hn).
  assert (H : no_markup letters = true).
  { unfold no_markup. apply forallb_forall. intros x Hx.
    rewrite forallb_forall in Hl. specialize (Hl x Hx).
    apply negb_true_iff. unfold mem; cbn [existsb chr].
    destruct (Ascii.eqb x "&") eqn:E1;
      [apply Ascii.eqb_eq in E1; subst x; discriminate|].
    destruct (Ascii.eqb x "<") eqn:E2;
      [apply Ascii.eqb_eq in E2; subst x; discriminate|].
    destruct (Ascii.eqb x ">") eqn:E3;
      [apply Ascii.eqb_eq in E3; subst x; discriminate|].
    reflexivity. }
  destruct Hn as [-> | ->]; [exact H|].
  unfold no_markup in *. rewrite forallb_app, H. reflexivity.
Qed.

Lemma dict_get_set {V : Type} (key : str) (v : V) (d : dict V) :
  dict_get key (dict_set key v d) = Some v.
Proof.
  induction d as [|[k' v'] d IH]; simpl.
  - now rewrite str_eqb_refl.
  - destruct (str_eqb k' key) eqn:E; simpl; rewrite E; [reflexivity | exact IH].
Qed.

Lemma lstrip_skip (s : str) :
  lstrip s = match skip_space s with Some r => lstrip r | None => s end.
Proof.
  destruct s as [|c1 [|c2 [|c3 s3]]]; cbn [lstrip skip_space];
    try reflexivity.
  - now destruct (isspace c1).
  - destruct (isspace c1); [reflexivity|]. now destruct (isspace2 c1 c2).
  - destruct (isspace c1); [reflexivity|].
    destruct (isspace2 c1 c2); [reflexivity|].
    now destruct (isspace3 c1 c2 c3).
Qed.

Lemma all_space_skip (s : str) :
  all_space s =
  match s with
  | [] => true
  | _ => match skip_space s with Some r => all_space r | None => false end
  end.
Proof.
  destruct s as [|c1 [|c2 [|c3 s3]]]; cbn [all_space skip_space];
    try reflexivity.
  - now destruct (isspace c1).
  - destruct (isspace c1); [reflexivity|]. now destruct (isspace2 c1 c2).
  - destruct (isspace c1); [reflexivity|].
    destruct (isspace2 c1 c2); [reflexivity|].
    now destruct (isspace3 c1 c2 c3).
Qed.

(** A whitespace character at the head of a text is a prefix of one, two or
    three bytes. *)
Lemma skip_space_some (s r : str) :
  skip_space s = Some r ->
  exists w, s = w ++ r /\ w <> [] /\ forall t, skip_space (w ++ t) = Some t.
Proof.
  destruct s as [|c1 s1]; [discriminate|]. cbn [skip_space].
  destruct (isspace c1) eqn:H1.
  { intros H; injection H as <-. exists [c1]. repeat split; [discriminate|].
    intros t. cbn [app skip_space]. now rewrite H1. }
  destruct s1 as [|c2 s2]; [discriminate|].
  destruct (isspace2 c1 c2) eqn:H2.
  { intros H; injection H as <-. exists [c1; c2].
    repeat split; [discriminate|].
    intros t. cbn [app skip_space]. now rewrite H1, H2. }
  destruct s2 as [|c3 s3]; [discriminate|].
  destruct (isspace3 c1 c2 c3) eqn:H3; [|discriminate].
  intros H; injection H as <-. exists [c1; c2; c3].
  repeat split; [discriminate|].
  intros t. cbn [app skip_space]. now rewrite H1, H2, H3.
Qed.

Lemma skip_space_length (s r : str) :
  skip_space s = Some r -> length r < length s.
Proof.
  intros H. destruct (skip_space_some s r H) as (w & -> & Hw & _).
  rewrite length_app. destruct w; [congruence|]. cbn [length]. lia.
Qed.

Lemma skip_space_app (s r t : str) :
  skip_space s = Some r -> skip_space (s ++ t) = Some (r ++ t).
Proof.
  intros H. destruct (skip_space_some s r H) as (w & -> & _ & Hw).
  rewrite <- app_assoc. apply Hw.
Qed.

(** Induction along the whitespace characters at the head of a text. *)
Lemma skip_space_ind (P : str -> Prop) :
  P [] ->
  (forall s r, skip_space s = Some r -> P r -> P s) ->
  (forall s, s <> [] -> skip_space s = None -> P s) ->
  forall s, P s.
Proof.
  intros Hnil Hsome Hnone s.
  assert (H : forall n s, length s < n -> P s).
  { clear s. induction n as [|n IH]; intros s Hn; [lia|].
    destruct (skip_space s) as [r|] eqn:E.
    - apply (Hsome s r E). apply IH.
      pose proof (skip_space_length s r E). lia.
    - destruct s as [|c s]; [exact Hnil|]. now apply Hnone. }
  apply (H (S (length s))). lia.
Qed.

Lemma skip_space_cons (s r : str) :
  skip_space s = Some r -> exists c s', s = c :: s'.
Proof. destruct s as [|c s']; [discriminate|]. now exists c, s'. Qed.

Lemma lstrip_some (s r : str) : skip_space s = Some r -> lstrip s = lstrip r.
Proof. intros H. now rewrite lstrip_skip, H. Qed.

Lemma lstrip_none (s : str) : skip_space s = None -> lstrip s = s.
Proof. intros H. now rewrite lstrip_skip, H. Qed.

Lemma all_space_some (s r : str) :
  skip_space s = Some r -> all_space s = all_space r.
Proof.
  intros H. rewrite all_space_skip, H.
  now destruct (skip_space_cons s r H) as (c & s' & ->).
Qed.

Lemma all_space_none (s : str) :
  s <> [] -> skip_space s = None -> all_space s = false.
Proof.
  intros Hs H. rewrite all_space_skip, H. destruct s; congruence.
Qed.

(** What [lstrip] leaves does not start with whitespace. *)
Lemma lstrip_head (s : str) : skip_space (lstrip s) = None.
Proof.
  induction s as [| s r H IH | s Hs H] using skip_space_ind.
  - reflexivity.
  - now rewrite (lstrip_some s r H).
  - now rewrite (lstrip_none s H).
Qed.

Lemma take_word_nonempty (s : str) :
  s <> [] -> skip_space s = None -> take_word s <> [].
Proof.
  intros Hs H. destruct s as [|c s']; [congruence|].
  cbn [take_word]. rewrite H. discriminate.
Qed.

Lemma split_first_nonempty (s w : str) : split_first s = Some w -> w <> [].
Proof.
  unfold split_first. pose proof (lstrip_head s) as Hh.
  destruct (lstrip s) as [|c s'] eqn:E; [discriminate|].
  intros H. injection H as <-.
  apply (take_word_nonempty (c :: s')); [discriminate | exact Hh].
Qed.

(** ** The matcher *)

Lemma at_pos_app (pre s : str) :
  at_pos (pre ++ s) (length pre) = MState (rev pre) s [].
Proof.
  unfold at_pos. f_equal.
  - now rewrite firstn_app, Nat.sub_diag, firstn_all, firstn_0, app_nil_r.
  - now rewrite skipn_app, Nat.sub_diag, skipn_all, skipn_0.
Qed.

Lemma captured_app (b a a' body : str) (g g' : list (string * str)) :
  captured (MState b a g) (MState (rev body ++ b) a' g') = body.
Proof.
  unfold captured, cursor; simpl.
  rewrite length_app, Nat.add_sub.
  rewrite firstn_app, Nat.sub_diag, firstn_all, firstn_0, app_nil_r.
  apply rev_involutive.
Qed.

Lemma m_0_delimited (start : nat) (pre mid post : str)
    (g : list (string * str)) :
  start = length pre ->
  m_0 (MkMatch start (MState (rev mid ++ rev pre) post g)) = mid.
Proof.
  intros ->. unfold m_0, m_end, cursor. cbn [m_state m_start before].
  rewrite length_app, !length_rev, Nat.add_sub.
  rewrite <- (length_rev mid).
  rewrite firstn_app, Nat.sub_diag, firstn_all, firstn_0, app_nil_r.
  apply rev_involutive.
Qed.

(** Reading a literal text: the cursor moves over it, or the match fails. *)
Lemma advance_over_strip (d : str) (st : mstate) :
  advance_over d st =
  match strip_prefix d (after st) with
  | Some rest => Some (MState (rev d ++ before st) rest (groups st))
  | None => None
  end.
Proof.
  revert st; induction d as [|x d IH]; intros [b a g]; simpl; [reflexivity|].
  destruct a as [|c a]; [reflexivity|].
  destruct (Ascii.eqb x c) eqn:E; [|reflexivity].
  apply Ascii.eqb_eq in E; subst c.
  rewrite IH; simpl. destruct (strip_prefix d a); [|reflexivity].
  now rewrite <- app_assoc.
Qed.

Lemma lazy_loop_eq step k fuel st :
  lazy_loop step k fuel st =
  match k st with
  | Some out => Some out
  | None =>
      match fuel with
      | 0 => None
      | S f => step st (fun st' =>
                 if progress st st' then lazy_loop step k f st' else None)
      end
  end.
Proof. destruct fuel; reflexivity. Qed.

(** [.*?]: the continuation is offered the cursor after each prefix of the
    text, shortest first.  If it refuses every proper prefix of [body] and
    accepts at the end of [body], that is the match. *)
Lemma lazy_dot_first (k : mstate -> option mstate) (out : mstate)
    (g : list (string * str)) (rest body b : str) (fuel : nat) :
  length (body ++ rest) <= fuel ->
  (forall b1 c b2, body = b1 ++ c :: b2 ->
     k (MState (rev b1 ++ b) (c :: b2 ++ rest) g) = None) ->
  k (MState (rev body ++ b) rest g) = Some out ->
  lazy_loop (exec Dot) k fuel (MState b (body ++ rest) g) = Some out.
Proof.
  revert b fuel; induction body as [|c body IH]; intros b fuel Hfuel Hearly Hend.
  - rewrite lazy_loop_eq. simpl in *. now rewrite Hend.
  - rewrite lazy_loop_eq.
    pose proof (Hearly [] c body eq_refl) as H0. simpl in H0.
    simpl app. rewrite H0.
    destruct fuel as [|fuel]; [simpl in Hfuel; lia|].
    simpl. unfold one, progress; simpl.
    rewrite (proj2 (Nat.ltb_lt _ _)) by lia.
    apply IH.
    + simpl in Hfuel. lia.
    + intros b1 c' b2 ->.
      specialize (Hearly (c :: b1) c' b2 eq_refl).
      simpl in Hearly. now rewrite <- app_assoc in Hearly.
    + simpl in Hend. now rewrite <- app_assoc in Hend.
Qed.

(** Conversely, whatever [.*?] hands on was reached by reading a prefix. *)
Lemma lazy_dot_sound (k : mstate -> option mstate) (out : mstate)
    (fuel : nat) (st : mstate) :
  lazy_loop (exec Dot) k fuel st = Some out ->
  exists body rest,
    after st = body ++ rest /\
    k (MState (rev body ++ before st) rest (groups st)) = Some out.
Proof.
  revert st; induction fuel as [|fuel IH]; intros [b a g] H;
    rewrite lazy_loop_eq in H; simpl in *.
  - destruct (k (MState b a g)) eqn:E; [|discriminate].
    exists [], a. split; [reflexivity|]. simpl. congruence.
  - destruct (k (MState b a g)) eqn:E.
    + exists [], a. split; [reflexivity|]. simpl. congruence.
    + unfold one in H; simpl in H. destruct a as [|c a]; [discriminate|].
      destruct (progress _ _); [|discriminate].
      apply IH in H as (body & rest & Ha & Hk); simpl in *.
      exists (c :: body), rest. split; [now rewrite Ha|].
      simpl. now rewrite <- app_assoc.
Qed.

(** [.*?] followed by a closing delimiter [d0 ++ [x]]: when the rest of the
    pattern can only go on at an occurrence of the delimiter, and the
    delimiter does not occur earlier, the body is read up to the closing
    delimiter. *)
Lemma lazy_dot_close (k : mstate -> option mstate) (out : mstate)
    (d0 : str) (x : ascii) (g : list (string * str)) (b body post : str) :
  (forall b' a', startswith a' (d0 ++ [x]) = false ->
                 k (MState b' a' g) = None) ->
  occurs (d0 ++ [x]) (body ++ d0) = false ->
  k (MState (rev body ++ b) ((d0 ++ [x]) ++ post) g) = Some out ->
  lazy_loop (exec Dot) k (length (body ++ (d0 ++ [x]) ++ post))
    (MState b (body ++ (d0 ++ [x]) ++ post) g) = Some out.
Proof.
  intros Hk Hocc Hend.
  apply lazy_dot_first; [reflexivity | | assumption].
  intros b1 c b2 Hsplit. apply Hk.
  now apply (no_early_occurrence d0 x body b1 b2 post c).
Qed.

(** [[a-z]*] hands on only states reached by reading lowercase letters. *)
Lemma greedy_range_sound (lo hi : ascii) (k : mstate -> option mstate)
    (out : mstate) (fuel : nat) (st : mstate) :
  greedy_loop (exec (Range lo hi)) k fuel st = Some out ->
  exists letters rest,
    after st = letters ++ rest /\
    forallb (in_range lo hi) letters = true /\
    k (MState (rev letters ++ before st) rest (groups st)) = Some out.
Proof.
  revert st; induction fuel as [|fuel IH]; intros [b a g] H.
  - exists [], a. auto.
  - change (match exec (Range lo hi) (MState b a g) (fun st' =>
                if progress (MState b a g) st'
                then greedy_loop (exec (Range lo hi)) k fuel st' else None) with
            | Some o => Some o
            | None => k (MState b a g)
            end = Some out) in H.
    destruct (exec (Range lo hi) (MState b a g) _) as [o|] eqn:E.
    + injection H as ->.
      change (exec (Range lo hi)) with (one (in_range lo hi)) in E at 1.
      unfold one in E. cbn [after before groups] in E.
      destruct a as [|c a]; [discriminate|].
      destruct (in_range lo hi c) eqn:Ec; [|discriminate].
      destruct (progress _ _); [|discriminate].
      apply IH in E as (letters & rest & Ha & Hl & Hk).
      cbn [after before groups] in *.
      exists (c :: letters), rest. split; [now rewrite Ha|].
      split; [simpl; now rewrite Ec|].
      simpl. rewrite <- app_assoc. exact Hk.
    + exists [], a. auto.
Qed.

(** [[a-z]*] reads a whole run of lowercase letters when what follows the
    run is no lowercase letter and the rest of the pattern goes on there. *)
Lemma greedy_range_all (lo hi : ascii) (k : mstate -> option mstate)
    (out : mstate) (g : list (string * str)) (letters rest b : str)
    (fuel : nat) :
  forallb (in_range lo hi) letters = true ->
  match rest with x :: _ => in_range lo hi x = false | [] => True end ->
  length (letters ++ rest) <= fuel ->
  k (MState (rev letters ++ b) rest g) = Some out ->
  greedy_loop (exec (Range lo hi)) k fuel (MState b (letters ++ rest) g)
    = Some out.
Proof.
  revert b fuel; induction letters as [|c ls IH]; intros b fuel Hl Hr Hfuel Hk.
  - destruct fuel as [|fuel]; [exact Hk|].
    cbn [greedy_loop]. cbn [app rev] in *.
    change (exec (Range lo hi)) with (one (in_range lo hi)) at 1.
    unfold one. cbn [after before groups].
    destruct rest as [|x rest]; [exact Hk|].
    now rewrite Hr.
  - destruct fuel as [|fuel]; [simpl in Hfuel; lia|].
    cbn [greedy_loop]. cbn [app] in *.
    change (exec (Range lo hi)) with (one (in_range lo hi)) at 1.
    unfold one. cbn [after before groups].
    cbn [forallb] in Hl. apply andb_true_iff in Hl as [Hc Hl].
    rewrite Hc. unfold progress. cbn [after].
    rewrite (proj2 (Nat.ltb_lt _ _)) by (simpl; lia).
    rewrite (IH (c :: b) fuel); [reflexivity | assumption | assumption | | ].
    + simpl in Hfuel. lia.
    + cbn [rev] in Hk. now rewrite <- app_assoc in Hk.
Qed.

Ltac unfold_patterns :=
  unfold BLOCK_MATH_TEX, BLOCK_MATH_LATEX, INLINE_MATH_TEX, INLINE_MATH_LATEX,
    LATEX_ENVIRONMENT, MULTILINE_MATH, ENV_NAME, LazyPlus, Twice, Lits,
    backslash, dollar in *.

Ltac exec_simpl :=
  cbn [exec Cats lit list_ascii_of_string map chr one mem existsb
       before after groups orb].

Ltac app_norm := repeat (progress (rewrite <- ?app_assoc; cbn [app])).

Tactic Notation "exec_simpl" "in" hyp(H) :=
  cbn [exec Cats lit list_ascii_of_string map chr one mem existsb
       before after groups orb] in H.

Lemma exec_Lits (s : string) (r : regex) (st : mstate)
    (k : mstate -> option mstate) :
  exec (Cat (Lits s) r) st k =
  match advance_over (lit s) st with
  | Some st' => exec r st' k
  | None => None
  end.
Proof.
  unfold Lits. cbn [exec]. generalize (lit s) as cs. intros cs.
  revert st; induction cs as [|x cs IH]; intros [b a g]; [reflexivity|].
  cbn [map Cats exec advance_over]. unfold one. cbn [after before groups].
  destruct a as [|c a]; [reflexivity|].
  destruct (Ascii.eqb x c); [|reflexivity].
  apply IH.
Qed.

Lemma exec_Lit_inv (c : ascii) (r : regex) (st out : mstate)
    (k : mstate -> option mstate) :
  exec (Cat (Lit c) r) st k = Some out ->
  exists rest,
    after st = c :: rest /\
    exec r (MState (c :: before st) rest (groups st)) k = Some out.
Proof.
  cbn [exec]. unfold one. destruct (after st) as [|x rest]; [discriminate|].
  destruct (Ascii.eqb c x) eqn:E; [|discriminate].
  apply Ascii.eqb_eq in E; subst x. intros H. now exists rest.
Qed.

Lemma exec_Lits_inv (s : string) (r : regex) (st out : mstate)
    (k : mstate -> option mstate) :
  exec (Cat (Lits s) r) st k = Some out ->
  exists rest,
    after st = lit s ++ rest /\
    exec r (MState (rev (lit s) ++ before st) rest (groups st)) k = Some out.
Proof.
  rewrite exec_Lits, advance_over_strip.
  destruct (strip_prefix (lit s) (after st)) as [rest|] eqn:E; [|discriminate].
  apply strip_prefix_some in E. intros H. now exists rest.
Qed.

Lemma exec_Lit_ok (c : ascii) (r : regex) (b rest : str)
    (g : list (string * str)) (k : mstate -> option mstate) :
  exec (Cat (Lit c) r) (MState b (c :: rest) g) k =
  exec r (MState (c :: b) rest g) k.
Proof.
  cbn [exec]. unfold one. cbn [after before groups].
  now rewrite Ascii.eqb_refl.
Qed.

Lemma exec_Lits_ok (s : string) (r : regex) (b rest : str)
    (g : list (string * str)) (k : mstate -> option mstate) :
  exec (Cat (Lits s) r) (MState b (lit s ++ rest) g) k =
  exec r (MState (rev (lit s) ++ b) rest g) k.
Proof.
  rewrite exec_Lits, advance_over_strip. cbn [after before groups].
  now rewrite strip_prefix_app.
Qed.

Lemma exec_not_behind (cs : list ascii) (r : regex) (st : mstate)
    (k : mstate -> option mstate) :
  match before st with c :: _ => mem c cs = false | [] => True end ->
  exec (Cat (NotBehind cs) r) st k = exec r st k.
Proof.
  intros H. cbn [exec]. destruct (before st); [reflexivity|]. now rewrite H.
Qed.

Lemma not_behind_backslash (b : str) :
  match b with c :: _ => Ascii.eqb c backslash = false | [] => True end ->
  match b with c :: _ => mem c [backslash] = false | [] => True end.
Proof. destruct b; [trivial|]. simpl. intros ->. reflexivity. Qed.

Lemma head_after_body (body b : str) (x : ascii) :
  ends_with_backslash body = false ->
  Ascii.eqb x backslash = false ->
  match rev body ++ x :: b with
  | c :: _ => Ascii.eqb c backslash = false
  | [] => True
  end.
Proof.
  unfold ends_with_backslash. now destruct (rev body).
Qed.

(** ** The patterns *)

(** Every math rule opens with a dollar or a backslash (after its
    look-behind): at any other character, and at the end of the text, none
    of them matches. *)
Lemma exec_needs_opener (r : regex) (b s : str) (c : ascii)
    (g : list (string * str)) (k : mstate -> option mstate) :
  In r math_patterns ->
  plain c = true ->
  exec r (MState b (c :: s) g) k = None.
Proof.
  intros Hr Hc.
  pose proof (plain_not_dollar c Hc) as Hd.
  pose proof (plain_not_backslash c Hc) as Hb.
  assert (Hd' : Ascii.eqb c dollar = false) by now rewrite Ascii.eqb_sym.
  unfold math_patterns in Hr. simpl in Hr.
  unfold_patterns. cbn [chr] in *.
  repeat (destruct Hr as [<- | Hr]); [ .. | contradiction];
    destruct b as [|p b]; exec_simpl; rewrite ?Hd, ?Hb, ?Hd';
    try destruct (Ascii.eqb p _); cbn [orb]; rewrite ?Hd, ?Hb, ?Hd';
    try reflexivity.
  now destruct (Ascii.eqb p _).
Qed.

Lemma exec_needs_text (r : regex) (b : str) (g : list (string * str))
    (k : mstate -> option mstate) :
  In r math_patterns ->
  exec r (MState b [] g) k = None.
Proof.
  intros Hr. unfold math_patterns in Hr. simpl in Hr.
  unfold_patterns. cbn [chr] in *.
  repeat (destruct Hr as [<- | Hr]); [ .. | contradiction];
    destruct b as [|p b]; exec_simpl;
    try destruct (Ascii.eqb p _); cbn [orb];
    try reflexivity.
  now destruct (Ascii.eqb p _).
Qed.

Lemma match_at_plain (r : regex) (src : str) (pos : nat) :
  In r math_patterns ->
  match skipn pos src with c :: _ => plain c = true | [] => True end ->
  match_at r src pos = None.
Proof.
  intros Hr H. unfold match_at, at_pos.
  destruct (skipn pos src) as [|c s].
  - now rewrite exec_needs_text.
  - now rewrite exec_needs_opener.
Qed.

Lemma dollar_rules_need_dollar (r : regex) (b s : str) (c : ascii)
    (g : list (string * str)) (k : mstate -> option mstate) :
  In r [BLOCK_MATH_TEX; INLINE_MATH_TEX] ->
  Ascii.eqb dollar c = false ->
  exec r (MState b (c :: s) g) k = None.
Proof.
  intros Hr Hc. simpl in Hr. unfold_patterns. cbn [chr] in *.
  destruct Hr as [<- | [<- | []]]; exec_simpl;
    destruct b as [|p b]; rewrite ?Hc; try reflexivity;
    now destruct (Ascii.eqb p _ || _).
Qed.

Lemma bracket_rules_need_backslashes (r : regex) (b s : str) (c1 c2 : ascii)
    (g : list (string * str)) (k : mstate -> option mstate) :
  In r [BLOCK_MATH_LATEX; INLINE_MATH_LATEX] ->
  Ascii.eqb backslash c2 = false ->
  exec r (MState b (c1 :: c2 :: s) g) k = None.
Proof.
  intros Hr Hc. simpl in Hr. unfold_patterns. cbn [chr] in *.
  destruct Hr as [<- | [<- | []]]; exec_simpl;
    destruct b as [|p b]; rewrite ?Hc;
    try destruct (Ascii.eqb p _ || _);
    try destruct (Ascii.eqb "\" c1); reflexivity.
Qed.

(** [$$body$$] at the cursor, when the closing [$$] is the first one after
    the opening one and no backslash stands before either. *)
Lemma block_math_tex_exec (b body post : str) :
  match b with c :: _ => Ascii.eqb c backslash = false | [] => True end ->
  occurs (lit "$$") (body ++ lit "$") = false ->
  ends_with_backslash body = false ->
  exec BLOCK_MATH_TEX (MState b (lit "$$" ++ body ++ lit "$$" ++ post) []) Some
  = Some (MState (rev (lit "$$" ++ body ++ lit "$$") ++ b) post
            [("math_block_tex"%string, body)]).
Proof.
  intros Hb Hocc Hend.
  unfold BLOCK_MATH_TEX. cbn [Cats].
  rewrite exec_not_behind by now apply not_behind_backslash.
  unfold dollar, backslash in *.
  cbn [chr lit list_ascii_of_string app] in *.
  exec_simpl. rewrite !Ascii.eqb_refl.
  apply lazy_dot_first with (rest := "$"%char :: "$"%char :: post).
  - reflexivity.
  - intros b1 c b2 Hsplit. cbn [before after groups].
    pose proof (no_early_occurrence ["$"%char] "$"%char body b1 b2 post c
                  Hocc Hsplit) as Hno.
    cbn [app] in Hno. rewrite startswith_cons in Hno.
    assert (Hfail : forall st', after st' = c :: b2 ++ "$"%char :: "$"%char :: post ->
              one (Ascii.eqb "$") st'
                (fun st0 => one (Ascii.eqb "$") st0 (fun st2 => Some st2)) = None).
    { intros st' Ha. unfold one. rewrite Ha.
      destruct (Ascii.eqb "$" c); [|reflexivity]. cbn [after].
      simpl andb in Hno.
      destruct (b2 ++ "$"%char :: "$"%char :: post) as [|y s'];
        [reflexivity|].
      rewrite startswith_cons in Hno.
      apply andb_false_iff in Hno as [Hno|Hno]; [now rewrite Hno | discriminate]. }
    destruct (rev b1 ++ "$"%char :: "$"%char :: b) as [|c0 r0];
      [|destruct (Ascii.eqb c0 "\" || false); [reflexivity|]];
      now apply Hfail.
  - cbn [before after groups].
    pose proof (head_after_body body ("$"%char :: b) "$"%char Hend eq_refl) as Hh.
    rewrite captured_app.
    destruct (rev body ++ "$"%char :: "$"%char :: b) as [|c0 r0] eqn:E.
    + destruct (rev body); discriminate.
    + unfold backslash in Hh; cbn [chr] in Hh. rewrite Hh. cbn [orb].
      unfold one; cbn [after before groups]. rewrite !Ascii.eqb_refl.
      f_equal. f_equal. rewrite <- E.
      cbn [rev]. rewrite rev_app_distr. cbn [rev app].
      rewrite <- !app_assoc. reflexivity.
Qed.

(** [\\[body\\]] at the cursor, for the inline rule. *)
Lemma block_math_latex_exec (b body post : str) :
  match b with c :: _ => Ascii.eqb c backslash = false | [] => True end ->
  occurs (lit "\\]") (body ++ lit "\\") = false ->
  ends_with_backslash body = false ->
  exec BLOCK_MATH_LATEX
    (MState b (lit "\\[" ++ body ++ lit "\\]" ++ post) []) Some
  = Some (MState (rev (lit "\\[" ++ body ++ lit "\\]") ++ b) post
            [("math_block_latex"%string, body)]).
Proof.
  intros Hb Hocc Hend.
  unfold BLOCK_MATH_LATEX. cbn [Cats].
  rewrite exec_not_behind by now apply not_behind_backslash.
  unfold dollar, backslash in *.
  cbn [chr lit list_ascii_of_string app] in *.
  exec_simpl. rewrite !Ascii.eqb_refl.
  change ("\"%char :: "\"%char :: "]"%char :: post)
    with ((["\"%char; "\"%char] ++ ["]"%char]) ++ post).
  apply lazy_dot_close.
  - intros b' a' Hs. cbn [before after groups] in *.
    cbn [app] in Hs. rewrite startswith_3 in Hs.
    assert (Hone : forall st', after st' = a' ->
              one (Ascii.eqb "\") st' (fun st0 =>
                one (Ascii.eqb "\") st0 (fun st1 =>
                  one (Ascii.eqb "]") st1 (fun st2 => Some st2))) = None).
    { intros st' Ha. unfold one. rewrite Ha.
      destruct a' as [|x1 [|x2 [|x3 s']]]; cbn [after];
        try reflexivity;
        destruct (Ascii.eqb "\" x1); try reflexivity;
        destruct (Ascii.eqb "\" x2); try reflexivity.
      cbn [andb] in Hs. now rewrite Hs. }
    destruct b' as [|c0 r0];
      [|destruct (Ascii.eqb c0 "\" || false); [reflexivity|]];
      now apply Hone.
  - assumption.
  - cbn [before after groups app].
    pose proof (head_after_body body ("\"%char :: "\"%char :: b) "["%char
                  Hend eq_refl) as Hh.
    rewrite captured_app.
    destruct (rev body ++ "["%char :: "\"%char :: "\"%char :: b)
      as [|c0 r0] eqn:E.
    + destruct (rev body); discriminate.
    + unfold backslash in Hh; cbn [chr] in Hh. rewrite Hh. cbn [orb].
      unfold one; cbn [after before groups]. rewrite !Ascii.eqb_refl.
      f_equal. f_equal. rewrite <- E.
      cbn [rev]. rewrite rev_app_distr. cbn [rev app].
      rewrite <- !app_assoc. reflexivity.
Qed.

(** The block rule on [$$body$$]: its first alternative. *)
Lemma multiline_math_tex_exec (b body post : str) :
  match b with c :: _ => Ascii.eqb c backslash = false | [] => True end ->
  occurs (lit "$$") (body ++ lit "$") = false ->
  ends_with_backslash body = false ->
  exec MULTILINE_MATH (MState b (lit "$$" ++ body ++ lit "$$" ++ post) []) Some
  = Some (MState (rev (lit "$$" ++ body ++ lit "$$") ++ b) post []).
Proof.
  intros Hb Hocc Hend.
  unfold MULTILINE_MATH.
  match goal with
  | |- exec (Or ?r1 ?r2) ?st ?k = Some ?out =>
      assert (H1 : exec r1 st k = Some out);
      [|cbn [exec] in *; now rewrite H1]
  end.
  cbn [Cats].
  rewrite exec_not_behind by now apply not_behind_backslash.
  unfold dollar, backslash, Twice in *.
  cbn [chr lit list_ascii_of_string app] in *.
  exec_simpl. rewrite !Ascii.eqb_refl. cbn [orb].
  apply lazy_dot_first with (rest := "$"%char :: "$"%char :: post).
  - reflexivity.
  - intros b1 c b2 Hsplit. cbn [before after groups].
    pose proof (no_early_occurrence ["$"%char] "$"%char body b1 b2 post c
                  Hocc Hsplit) as Hno.
    cbn [app] in Hno. rewrite startswith_2 in Hno.
    assert (Hfail : forall st', after st' = c :: b2 ++ "$"%char :: "$"%char :: post ->
              one (fun c1 => Ascii.eqb c1 "$" || false) st'
                (fun st0 => one (fun c1 => Ascii.eqb c1 "$" || false) st0
                   (fun st2 => Some st2)) = None).
    { intros st' Ha. unfold one. rewrite Ha.
      rewrite (Ascii.eqb_sym c). destruct (Ascii.eqb "$" c); [|reflexivity].
      cbn [after orb].
      destruct (b2 ++ "$"%char :: "$"%char :: post) as [|y s'];
        [reflexivity|].
      cbn [andb] in Hno. rewrite (Ascii.eqb_sym y). now rewrite Hno. }
    destruct (rev b1 ++ "$"%char :: "$"%char :: b) as [|c0 r0];
      [|destruct (Ascii.eqb c0 "\" || false); [reflexivity|]];
      now apply Hfail.
  - cbn [before after groups].
    pose proof (head_after_body body ("$"%char :: b) "$"%char Hend eq_refl) as Hh.
    destruct (rev body ++ "$"%char :: "$"%char :: b) as [|c0 r0] eqn:E.
    + destruct (rev body); discriminate.
    + unfold backslash in Hh; cbn [chr] in Hh. rewrite Hh. cbn [orb].
      unfold one; cbn [after before groups]. rewrite !Ascii.eqb_refl.
      cbn [orb]. f_equal. f_equal. rewrite <- E.
      cbn [rev]. rewrite rev_app_distr. cbn [rev app].
      rewrite <- !app_assoc. reflexivity.
Qed.

(** The block rule on [\\[body\\]]: the first alternative fails at the
    backslash, the second one has no look-behind. *)
Lemma multiline_math_latex_exec (b body post : str) :
  occurs (lit "\\]") (body ++ lit "\\") = false ->
  exec MULTILINE_MATH
    (MState b (lit "\\[" ++ body ++ lit "\\]" ++ post) []) Some
  = Some (MState (rev (lit "\\[" ++ body ++ lit "\\]") ++ b) post []).
Proof.
  intros Hocc.
  unfold MULTILINE_MATH.
  match goal with
  | |- exec (Or ?r1 (Or ?r2 ?r3)) ?st ?k = Some ?out =>
      assert (H1 : exec r1 st k = None);
      [|assert (H2 : exec r2 st k = Some out);
        [|cbn [exec] in *; now rewrite H1, H2]]
  end.
  - unfold dollar, backslash, Twice.
    cbn [chr lit list_ascii_of_string app]. exec_simpl.
    destruct b as [|c0 r0]; [reflexivity|].
    now destruct (Ascii.eqb c0 "\" || false).
  - unfold dollar, backslash in *.
    cbn [chr lit list_ascii_of_string app] in *.
    exec_simpl. rewrite !Ascii.eqb_refl.
    change ("\"%char :: "\"%char :: "]"%char :: post)
      with ((["\"%char; "\"%char] ++ ["]"%char]) ++ post).
    apply lazy_dot_close.
    + intros b' a' Hs.
      cbn [app] in Hs. rewrite startswith_3 in Hs.
      unfold one. cbn [after before groups].
      destruct a' as [|x1 [|x2 [|x3 s']]]; cbn [after];
        try reflexivity;
        destruct (Ascii.eqb "\" x1); try reflexivity;
        destruct (Ascii.eqb "\" x2); try reflexivity.
      cbn [andb] in Hs. now rewrite Hs.
    + assumption.
    + cbn [app]. unfold one; cbn [after before groups].
      rewrite !Ascii.eqb_refl.
      f_equal. f_equal.
      cbn [rev]. rewrite rev_app_distr. cbn [rev app].
      rewrite <- !app_assoc. reflexivity.
Qed.

(** What a match of [inline_math_tex] looks like: [$body$] with a body of
    at least one character, no dollar and no backslash right before the
    opening dollar, and none right before the closing one. *)
Lemma inline_math_tex_sound (b a : str) (out : mstate) :
  exec INLINE_MATH_TEX (MState b a []) Some = Some out ->
  exists body rest,
    body <> [] /\
    a = lit "$" ++ body ++ lit "$" ++ rest /\
    out = MState (rev (lit "$" ++ body ++ lit "$") ++ b) rest
            [("math_inline_tex"%string, body)] /\
    match b with c :: _ => plain c = true | [] => True end /\
    match rev body with c :: _ => plain c = true | [] => True end.
Proof.
  intros H. unfold INLINE_MATH_TEX, LazyPlus in H.
  cbn [Cats] in H.
  assert (Hb : match b with
               | c :: _ => mem c [dollar; backslash] = false
               | [] => True
               end).
  { cbn [exec before] in H. destruct b as [|c0 b0]; [exact I|].
    destruct (mem c0 _); [discriminate | reflexivity]. }
  rewrite exec_not_behind in H by exact Hb.
  cbn [exec] in H.
  unfold one at 1 in H. cbn [after before groups] in H.
  destruct a as [|c a]; [discriminate|].
  destruct (Ascii.eqb dollar c) eqn:Ec; [|discriminate].
  apply Ascii.eqb_eq in Ec; subst c.
  unfold one at 1 in H. cbn [after before groups] in H.
  destruct a as [|c1 a1]; [discriminate|].
  apply lazy_dot_sound in H as (body' & rest & Ha & Hk).
  cbn [after before groups] in *. subst a1.
  replace (rev body' ++ c1 :: dollar :: b)
    with (rev (c1 :: body') ++ dollar :: b) in Hk
    by (simpl; now rewrite <- app_assoc).
  rewrite captured_app in Hk.
  destruct (rev (c1 :: body') ++ dollar :: b) as [|c0 r0] eqn:E.
  { apply app_eq_nil in E as [_ E]. discriminate. }
  destruct (mem c0 [dollar; backslash]) eqn:Em; [discriminate|].
  unfold one in Hk. cbn [after before groups] in Hk.
  destruct rest as [|x rest']; [discriminate|].
  destruct (Ascii.eqb dollar x) eqn:Ex; [|discriminate].
  apply Ascii.eqb_eq in Ex; subst x.
  injection Hk as <-.
  exists (c1 :: body'), rest'. repeat split.
  - discriminate.
  - rewrite <- E. cbn [lit list_ascii_of_string rev app].
    rewrite !rev_app_distr. cbn [rev app]. rewrite <- !app_assoc.
    reflexivity.
  - destruct b as [|p b']; [exact I|]. now apply mem_guard_plain.
  - destruct (rev (c1 :: body')) as [|y r] eqn:Er; [exact I|].
    cbn [app] in E. injection E as -> _. now apply mem_guard_plain.
Qed.

Lemma env_name_sound (k : mstate -> option mstate) (out : mstate)
    (st : mstate) :
  exec ENV_NAME st k = Some out ->
  exists name rest,
    after st = name ++ rest /\
    is_env_name name /\
    k (MState (rev name ++ before st) rest (groups st)) = Some out.
Proof.
  unfold ENV_NAME. cbn [exec]. intros H.
  apply greedy_range_sound in H as (letters & rest & Ha & Hl & Hk).
  cbn [after before groups] in Hk.
  unfold one in Hk. cbn [after before groups] in Hk.
  destruct rest as [|c s].
  - exists letters, []. split; [assumption|]. split; [|assumption].
    exists letters. auto.
  - destruct (Ascii.eqb (chr "*") c) eqn:Ec.
    + apply Ascii.eqb_eq in Ec; subst c.
      destruct (k (MState (chr "*" :: rev letters ++ before st) s (groups st)))
        as [o|] eqn:E.
      * injection Hk as ->.
        exists (letters ++ [chr "*"]), s.
        split; [now rewrite <- app_assoc|].
        split; [exists letters; auto|].
        rewrite rev_app_distr. exact E.
      * exists letters, (chr "*" :: s). split; [assumption|].
        split; [exists letters; auto | assumption].
    + exists letters, (c :: s). split; [assumption|].
      split; [exists letters; auto | assumption].
Qed.

Lemma env_name_exec (k : mstate -> option mstate) (out : mstate)
    (g : list (string * str)) (name rest b : str) :
  is_env_name name ->
  k (MState (rev name ++ b) (chr "}" :: rest) g) = Some out ->
  exec ENV_NAME (MState b (name ++ chr "}" :: rest) g) k = Some out.
Proof.
  intros (letters & Hl & Hn) Hk. unfold ENV_NAME. cbn [exec after].
  destruct Hn as [-> | ->].
  - apply greedy_range_all; [assumption | reflexivity | reflexivity |].
    unfold one. cbn [after before groups].
    cbn [chr Ascii.eqb Bool.eqb]. exact Hk.
  - rewrite <- app_assoc.
    apply greedy_range_all; [assumption | reflexivity | reflexivity |].
    unfold one. cbn [after before groups app].
    rewrite Ascii.eqb_refl. rewrite rev_app_distr in Hk. cbn [rev app] in Hk.
    now rewrite Hk.
Qed.

(** The end of an environment, [\end{name}], as the patterns read it once
    the name is known: it fails wherever the text does not go on with
    [\end{name}], and moves over it where it does. *)
Lemma env_end_fails (name : str) (gs : list (string * str)) (b a : str) :
  group_get "math_env_name" gs = Some name ->
  startswith a ((lit "\end{" ++ name) ++ [chr "}"]) = false ->
  exec (Cats [Lits "\end"; Lit (chr "{"); Backref "math_env_name";
              Lit (chr "}")]) (MState b a gs) Some = None.
Proof.
  intros Hg Hs. cbn [Cats].
  rewrite exec_Lits, advance_over_strip. cbn [after before groups].
  change ((lit "\end{" ++ name) ++ [chr "}"])
    with (lit "\end" ++ ([chr "{"] ++ (name ++ [chr "}"]))) in Hs.
  rewrite startswith_app_prefix in Hs.
  destruct (strip_prefix (lit "\end") a) as [r1|]; [|reflexivity].
  cbn [exec]. unfold one at 1. cbn [after before groups].
  destruct r1 as [|x r2]; [reflexivity|].
  cbn [app] in Hs. rewrite startswith_cons in Hs.
  destruct (Ascii.eqb (chr "{") x); [|reflexivity].
  cbn [andb] in Hs. rewrite Hg, advance_over_strip.
  cbn [after before groups].
  rewrite startswith_app_prefix in Hs.
  destruct (strip_prefix name r2) as [r3|]; [|reflexivity].
  unfold one. cbn [after before groups].
  destruct r3 as [|y r4]; [reflexivity|].
  rewrite startswith_cons in Hs.
  destruct (Ascii.eqb (chr "}") y); [discriminate Hs | reflexivity].
Qed.

Lemma env_end_ok (name : str) (gs : list (string * str)) (b post : str) :
  group_get "math_env_name" gs = Some name ->
  exec (Cats [Lits "\end"; Lit (chr "{"); Backref "math_env_name";
              Lit (chr "}")])
    (MState b (((lit "\end{" ++ name) ++ [chr "}"]) ++ post) gs) Some =
  Some (MState (rev ((lit "\end{" ++ name) ++ [chr "}"]) ++ b) post gs).
Proof.
  intros Hg. cbn [Cats].
  change (((lit "\end{" ++ name) ++ [chr "}"]) ++ post)
    with (lit "\end" ++ chr "{" :: (name ++ [chr "}"]) ++ post).
  rewrite exec_Lits_ok, exec_Lit_ok.
  cbn [exec groups]. rewrite Hg, advance_over_strip.
  cbn [after before groups]. rewrite <- app_assoc, strip_prefix_app.
  unfold one. cbn [after before groups app]. rewrite Ascii.eqb_refl.
  f_equal. f_equal.
  cbn [lit list_ascii_of_string app chr rev].
  repeat (progress (rewrite ?rev_app_distr; cbn [rev app])).
  app_norm. reflexivity.
Qed.

(** A match of [latex_environment] is a text [\begin{name}body\end{name}]:
    the name after [\end] is the name after [\begin]. *)
Lemma latex_environment_sound (b a : str) (out : mstate) :
  exec LATEX_ENVIRONMENT (MState b a []) Some = Some out ->
  exists name body rest,
    is_env_name name /\
    a = (lit "\begin{" ++ name ++ lit "}" ++ body
           ++ lit "\end{" ++ name ++ lit "}") ++ rest /\
    out = MState (rev (lit "\begin{" ++ name ++ lit "}" ++ body
                         ++ lit "\end{" ++ name ++ lit "}") ++ b) rest
            [("math_env_body"%string, body); ("math_env_name"%string, name)].
Proof.
  unfold LATEX_ENVIRONMENT. cbn [Cats]. intros H.
  apply exec_Lits_inv in H as (a1 & Ha & H). cbn [after before groups] in *.
  apply exec_Lit_inv in H as (a2 & Ha1 & H). cbn [after before groups] in *.
  change (exec (Cat (Group "math_env_name" ENV_NAME) ?r) ?st ?k)
    with (exec ENV_NAME st (fun st' =>
            exec r (MState (before st') (after st')
                      (("math_env_name"%string, captured st st') :: groups st'))
              k)) in H.
  apply env_name_sound in H as (name & a3 & Ha2 & Hname & H).
  cbn [after before groups] in *.
  rewrite captured_app in H.
  apply exec_Lit_inv in H as (a4 & Ha3 & H). cbn [after before groups] in *.
  change (exec (Cat (Group "math_env_body" (LazyStar Dot)) ?r) ?st ?k)
    with (lazy_loop (exec Dot) (fun st' =>
            exec r (MState (before st') (after st')
                      (("math_env_body"%string, captured st st') :: groups st'))
              k) (length (after st)) st) in H.
  apply lazy_dot_sound in H as (body & a5 & Ha4 & H).
  cbn [after before groups] in *.
  rewrite captured_app in H.
  apply exec_Lits_inv in H as (a6 & Ha5 & H). cbn [after before groups] in *.
  apply exec_Lit_inv in H as (a7 & Ha6 & H). cbn [after before groups] in *.
  cbn [exec group_get groups String.eqb Ascii.eqb Bool.eqb] in H.
  rewrite advance_over_strip in H. cbn [after before groups] in H.
  destruct (strip_prefix name a7) as [a8|] eqn:Ea; [|discriminate].
  apply strip_prefix_some in Ea.
  unfold one in H. cbn [after before groups] in H.
  destruct a8 as [|x rest]; [discriminate|].
  destruct (Ascii.eqb (chr "}") x) eqn:Ex; [|discriminate].
  apply Ascii.eqb_eq in Ex; subst x.
  injection H as <-.
  exists name, body, rest. split; [assumption|].
  subst. split.
  - cbn [lit list_ascii_of_string app chr]. app_norm. reflexivity.
  - f_equal.
    cbn [lit list_ascii_of_string app chr rev].
    repeat (progress (rewrite ?rev_app_distr; cbn [rev app])).
    app_norm. reflexivity.
Qed.

(** [\begin{name}body\end{name}] at the cursor, when [\end{name}] does not
    occur earlier in the body. *)
Lemma latex_environment_exec (b name body post : str) :
  is_env_name name ->
  occurs ((lit "\end{" ++ name) ++ [chr "}"]) (body ++ lit "\end{" ++ name)
    = false ->
  exec LATEX_ENVIRONMENT
    (MState b (lit "\begin{" ++ name ++ lit "}" ++ body
                 ++ lit "\end{" ++ name ++ lit "}" ++ post) []) Some
  = Some (MState (rev (lit "\begin{" ++ name ++ lit "}" ++ body
                         ++ lit "\end{" ++ name ++ lit "}") ++ b) post
            [("math_env_body"%string, body); ("math_env_name"%string, name)]).
Proof.
  intros Hname Hocc.
  unfold LATEX_ENVIRONMENT. cbn [Cats].
  change (lit "\begin{" ++ name ++ lit "}" ++ body
            ++ lit "\end{" ++ name ++ lit "}" ++ post)
    with (lit "\begin" ++ chr "{" :: name ++ chr "}" :: body
            ++ lit "\end{" ++ name ++ lit "}" ++ post).
  rewrite exec_Lits_ok, exec_Lit_ok.
  change (exec (Cat (Group "math_env_name" ENV_NAME) ?r) ?st ?k)
    with (exec ENV_NAME st (fun st' =>
            exec r (MState (before st') (after st')
                      (("math_env_name"%string, captured st st') :: groups st'))
              k)).
  apply env_name_exec; [assumption|].
  cbn [before after groups]. rewrite captured_app.
  rewrite exec_Lit_ok.
  change (exec (Cat (Group "math_env_body" (LazyStar Dot)) ?r) ?st ?k)
    with (lazy_loop (exec Dot) (fun st' =>
            exec r (MState (before st') (after st')
                      (("math_env_body"%string, captured st st') :: groups st'))
              k) (length (after st)) st).
  cbn [after].
  replace (body ++ lit "\end{" ++ name ++ lit "}" ++ post)
    with (body ++ ((lit "\end{" ++ name) ++ [chr "}"]) ++ post)
    by (now rewrite <- !app_assoc).
  apply lazy_dot_close.
  - intros b' a' Hs. cbn [before after groups].
    now apply (env_end_fails name).
  - exact Hocc.
  - cbn [before after groups]. rewrite captured_app.
    rewrite (env_end_ok name); [|reflexivity].
    f_equal. f_equal.
    cbn [lit list_ascii_of_string app chr rev].
    repeat (progress (rewrite ?rev_app_distr; cbn [rev app])).
    app_norm. reflexivity.
Qed.

(** The block rule on [\begin{name}body\end{name}]: its third alternative. *)
Lemma multiline_math_env_exec (b name body post : str) :
  is_env_name name ->
  occurs ((lit "\end{" ++ name) ++ [chr "}"]) (body ++ lit "\end{" ++ name)
    = false ->
  exec MULTILINE_MATH
    (MState b (lit "\begin{" ++ name ++ lit "}" ++ body
                 ++ lit "\end{" ++ name ++ lit "}" ++ post) []) Some
  = Some (MState (rev (lit "\begin{" ++ name ++ lit "}" ++ body
                         ++ lit "\end{" ++ name ++ lit "}") ++ b) post
            [("math_env_name"%string, name)]).
Proof.
  intros Hname Hocc.
  unfold MULTILINE_MATH.
  match goal with
  | |- exec (Or ?r1 (Or ?r2 ?r3)) ?st ?k = Some ?out =>
      assert (H1 : exec r1 st k = None);
      [|assert (H2 : exec r2 st k = None);
        [|assert (H3 : exec r3 st k = Some out);
          [|cbn [exec] in *; now rewrite H1, H2, H3]]]
  end.
  - unfold dollar, backslash, Twice.
    cbn [chr lit list_ascii_of_string app]. exec_simpl.
    destruct b as [|c0 r0]; [reflexivity|].
    now destruct (Ascii.eqb c0 "\" || false).
  - unfold backslash. cbn [chr lit list_ascii_of_string app]. exec_simpl.
    reflexivity.
  - cbn [Cats].
    change (lit "\begin{" ++ name ++ lit "}" ++ body
              ++ lit "\end{" ++ name ++ lit "}" ++ post)
      with (lit "\begin" ++ chr "{" :: name ++ chr "}" :: body
              ++ lit "\end{" ++ name ++ lit "}" ++ post).
    rewrite exec_Lits_ok, exec_Lit_ok.
    change (exec (Cat (Group "math_env_name" ENV_NAME) ?r) ?st ?k)
      with (exec ENV_NAME st (fun st' =>
              exec r (MState (before st') (after st')
                        (("math_env_name"%string, captured st st')
                           :: groups st'))
                k)).
    apply env_name_exec; [assumption|].
    cbn [before after groups]. rewrite captured_app.
    rewrite exec_Lit_ok.
    change (exec (Cat (LazyStar Dot) ?r) ?st ?k)
      with (lazy_loop (exec Dot) (fun st' => exec r st' k)
              (length (after st)) st).
    cbn [after].
    replace (body ++ lit "\end{" ++ name ++ lit "}" ++ post)
      with (body ++ ((lit "\end{" ++ name) ++ [chr "}"]) ++ post)
      by (now rewrite <- !app_assoc).
    apply lazy_dot_close.
    + intros b' a' Hs. now apply (env_end_fails name).
    + exact Hocc.
    + rewrite (env_end_ok name); [|reflexivity].
      f_equal. f_equal.
      cbn [lit list_ascii_of_string app chr rev].
      repeat (progress (rewrite ?rev_app_distr; cbn [rev app])).
      app_norm. reflexivity.
Qed.

(** A match of the block rule on a text that begins with [\begin] comes from
    its third alternative, and has the same name at both ends. *)
Lemma multiline_math_env_sound (b a : str) (out : mstate) :
  exec MULTILINE_MATH (MState b (lit "\begin" ++ a) []) Some = Some out ->
  exists name body rest,
    is_env_name name /\
    lit "\begin" ++ a = (lit "\begin{" ++ name ++ lit "}" ++ body
                           ++ lit "\end{" ++ name ++ lit "}") ++ rest /\
    out = MState (rev (lit "\begin{" ++ name ++ lit "}" ++ body
                         ++ lit "\end{" ++ name ++ lit "}") ++ b) rest
            [("math_env_name"%string, name)].
Proof.
  unfold MULTILINE_MATH. intros H.
  match type of H with
  | exec (Or ?r1 (Or ?r2 ?r3)) ?st ?k = Some ?out =>
      assert (H1 : exec r1 st k = None);
      [|assert (H2 : exec r2 st k = None);
        [|assert (H3 : exec r3 st k = Some out);
          [cbn [exec] in *; now rewrite H1, H2 in H|]]]
  end.
  - unfold dollar, backslash, Twice.
    cbn [chr lit list_ascii_of_string app]. exec_simpl.
    destruct b as [|c0 r0]; [reflexivity|].
    now destruct (Ascii.eqb c0 "\" || false).
  - unfold backslash. cbn [chr lit list_ascii_of_string app]. exec_simpl.
    reflexivity.
  - clear H H1 H2. rename H3 into H. cbn [Cats] in H.
    apply exec_Lits_inv in H as (a1 & Ha & H). cbn [after before groups] in *.
    apply app_inv_head in Ha. subst a1.
    apply exec_Lit_inv in H as (a2 & Ha1 & H). cbn [after before groups] in *.
    change (exec (Cat (Group "math_env_name" ENV_NAME) ?r) ?st ?k)
      with (exec ENV_NAME st (fun st' =>
              exec r (MState (before st') (after st')
                        (("math_env_name"%string, captured st st')
                           :: groups st'))
                k)) in H.
    apply env_name_sound in H as (name & a3 & Ha2 & Hname & H).
    cbn [after before groups] in *.
    rewrite captured_app in H.
    apply exec_Lit_inv in H as (a4 & Ha3 & H). cbn [after before groups] in *.
    change (exec (Cat (LazyStar Dot) ?r) ?st ?k)
      with (lazy_loop (exec Dot) (fun st' => exec r st' k)
              (length (after st)) st) in H.
    apply lazy_dot_sound in H as (body & a5 & Ha4 & H).
    cbn [after before groups] in *.
    apply exec_Lits_inv in H as (a6 & Ha5 & H). cbn [after before groups] in *.
    apply exec_Lit_inv in H as (a7 & Ha6 & H). cbn [after before groups] in *.
    cbn [exec group_get groups String.eqb Ascii.eqb Bool.eqb] in H.
    rewrite advance_over_strip in H. cbn [after before groups] in H.
    destruct (strip_prefix name a7) as [a8|] eqn:Ea; [|discriminate].
    apply strip_prefix_some in Ea.
    unfold one in H. cbn [after before groups] in H.
    destruct a8 as [|x rest]; [discriminate|].
    destruct (Ascii.eqb (chr "}") x) eqn:Ex; [|discriminate].
    apply Ascii.eqb_eq in Ex; subst x.
    injection H as <-.
    exists name, body, rest. split; [assumption|].
    subst. split.
    + cbn [lit list_ascii_of_string app chr]. app_norm. reflexivity.
    + f_equal.
      cbn [lit list_ascii_of_string app chr rev].
      repeat (progress (rewrite ?rev_app_distr; cbn [rev app])).
      app_norm. reflexivity.
Qed.

(** ** Searching *)

Lemma search_from_skip (r : regex) (src : str) (n m pos : nat) :
  (forall p, pos <= p < pos + n -> match_at r src p = None) ->
  search_from r src (n + m) pos = search_from r src m (pos + n).
Proof.
  revert pos; induction n as [|n IH]; intros pos H.
  - now rewrite Nat.add_0_r.
  - simpl. rewrite H by lia.
    rewrite IH; [f_equal; lia|].
    intros p Hp. apply H. lia.
Qed.

Lemma search_from_here (r : regex) (src : str) (n pos : nat) (m : Match) :
  match_at r src pos = Some m -> search_from r src n pos = Some m.
Proof. intros H. destruct n; simpl; now rewrite H. Qed.

(** A search over a text that begins with plain characters starts where
    they end. *)
Lemma search_after_plain (r : regex) (pre rest : str) (m : Match) :
  In r math_patterns ->
  plain_text pre = true ->
  match_at r (pre ++ rest) (length pre) = Some m ->
  search r (pre ++ rest) 0 = Some m.
Proof.
  intros Hr Hpre Hm. unfold search.
  rewrite Nat.sub_0_r, length_app.
  rewrite search_from_skip.
  - now apply search_from_here.
  - intros p Hp. apply match_at_plain; [assumption|].
    destruct (plain_text_skipn pre rest p Hpre) as (c & s & -> & Hc);
      [lia | assumption].
Qed.

(** ** The scanning loop *)

Section Scan.
Context {other : Type}.
Variable inherited : str -> nat -> option (list (token other) * nat).

Lemma first_rule_plain (src : str) (pos : nat) :
  match skipn pos src with c :: _ => plain c = true | [] => True end ->
  first_rule other (MATH_RULES other) src pos = None.
Proof.
  intros H. unfold MATH_RULES; cbn [first_rule rule_pattern].
  rewrite !match_at_plain; unfold math_patterns; simpl; auto 10.
Qed.

Lemma rules_at_plain (src : str) (pos : nat) :
  match skipn pos src with c :: _ => plain c = true | [] => True end ->
  inherited src pos = None ->
  rules_at other inherited src pos = None.
Proof.
  intros H Hi. unfold rules_at. now rewrite first_rule_plain, Hi.
Qed.

Lemma sc_search_from_skip (src : str) (n m pos : nat) :
  (forall p, pos <= p < pos + n -> rules_at other inherited src p = None) ->
  sc_search_from other inherited src (n + m) pos =
  sc_search_from other inherited src m (pos + n).
Proof.
  revert pos; induction n as [|n IH]; intros pos H.
  - now rewrite Nat.add_0_r.
  - simpl. rewrite H by lia.
    rewrite IH; [f_equal; lia|].
    intros p Hp. apply H. lia.
Qed.

Lemma sc_search_from_here (src : str) (n pos : nat) f :
  rules_at other inherited src pos = Some f ->
  sc_search_from other inherited src n pos = Some (pos, f).
Proof. intros H. destruct n; simpl; now rewrite H. Qed.

Lemma sc_search_from_none (src : str) (n pos : nat) :
  (forall p, pos <= p <= pos + n -> rules_at other inherited src p = None) ->
  sc_search_from other inherited src n pos = None.
Proof.
  revert pos; induction n as [|n IH]; intros pos H; simpl.
  - rewrite H by lia. reflexivity.
  - rewrite H by lia. apply IH. intros p Hp. apply H. lia.
Qed.

(** The search skips a plain stretch that no rule of mistune claims. *)
Lemma sc_search_after_plain (pre rest : str) f :
  plain_text pre = true ->
  (forall p, p < length pre -> inherited (pre ++ rest) p = None) ->
  rules_at other inherited (pre ++ rest) (length pre) = Some f ->
  sc_search other inherited (pre ++ rest) 0 = Some (length pre, f).
Proof.
  intros Hpre Hinh Hf. unfold sc_search.
  rewrite Nat.sub_0_r, length_app.
  rewrite sc_search_from_skip.
  - now apply sc_search_from_here.
  - intros p Hp. apply rules_at_plain; [|apply Hinh; lia].
    destruct (plain_text_skipn pre rest p Hpre) as (c & s & -> & Hc);
      [lia | assumption].
Qed.

(** Nothing is found in a plain tail that no rule of mistune claims. *)
Lemma sc_search_plain_tail (front post : str) :
  plain_text post = true ->
  (forall p, length front <= p -> inherited (front ++ post) p = None) ->
  sc_search other inherited (front ++ post) (length front) = None.
Proof.
  intros Hpost Hinh. unfold sc_search.
  apply sc_search_from_none. intros p Hp.
  apply rules_at_plain; [|apply Hinh; lia].
  rewrite skipn_app.
  rewrite skipn_all2 by lia. cbn [app].
  destruct (skipn (p - length front) post) as [|c s] eqn:E; [exact I|].
  unfold plain_text in Hpost. rewrite forallb_forall in Hpost.
  apply Hpost. rewrite <- (firstn_skipn (p - length front) post).
  apply in_or_app. right. rewrite E. now left.
Qed.

Lemma parse_loop_eq (fuel : nat) (src : str) (pos : nat)
    (tokens : list (token other)) :
  parse_loop other inherited fuel src pos tokens =
  if length src <=? pos then
    Some (if pos =? 0 then process_text other src tokens else tokens)
  else
    match round other inherited src pos tokens with
    | None =>
        Some (if pos =? 0 then process_text other src tokens
              else process_text other (skipn pos src) tokens)
    | Some (tokens', pos') =>
        match fuel with
        | 0 => None
        | S fuel' => parse_loop other inherited fuel' src pos' tokens'
        end
    end.
Proof. destruct fuel; reflexivity. Qed.

(** A round whose cursor stands where a rule matches. *)
Lemma round_here (src : str) (pos new_pos : nat)
    (tokens tokens' : list (token other))
    (f : list (token other) -> list (token other) * nat) :
  rules_at other inherited src pos = Some f ->
  f tokens = (tokens', new_pos) ->
  new_pos <> 0 ->
  round other inherited src pos tokens = Some (tokens', new_pos).
Proof.
  intros Hr Hf Hn. unfold round, sc_search.
  rewrite (sc_search_from_here src _ pos f Hr).
  rewrite Nat.ltb_irrefl, Hf.
  now rewrite (proj2 (Nat.eqb_neq _ _) Hn).
Qed.

(** A round from the start of a text that begins with a plain stretch. *)
Lemma round_after_plain (pre rest : str) (new_pos : nat) (t : token other)
    (f : list (token other) -> list (token other) * nat) :
  plain_text pre = true ->
  (forall p, p < length pre -> inherited (pre ++ rest) p = None) ->
  rules_at other inherited (pre ++ rest) (length pre) = Some f ->
  (forall tokens, f tokens = (tokens ++ [t], new_pos)) ->
  new_pos <> 0 ->
  round other inherited (pre ++ rest) 0 [] = Some (text_hole pre ++ [t], new_pos).
Proof.
  intros Hpre Hinh Hr Hf Hn. unfold round.
  rewrite (sc_search_after_plain pre rest f Hpre Hinh Hr).
  rewrite Hf, (proj2 (Nat.eqb_neq _ _) Hn).
  do 2 f_equal. unfold slice, process_text.
  rewrite Nat.sub_0_r, skipn_0.
  rewrite firstn_app, Nat.sub_diag, firstn_all, firstn_0, app_nil_r.
  now destruct pre.
Qed.

(** No round is left in a plain tail. *)
Lemma round_plain_tail (front post : str) (tokens : list (token other)) :
  plain_text post = true ->
  (forall p, length front <= p -> inherited (front ++ post) p = None) ->
  round other inherited (front ++ post) (length front) tokens = None.
Proof.
  intros Hpost Hinh. unfold round.
  now rewrite sc_search_plain_tail.
Qed.

(** A text with one match: a plain stretch, the match, a plain stretch. *)
Lemma parse_single (pre mid post : str) (t : token other)
    (f : list (token other) -> list (token other) * nat) :
  mid <> [] ->
  plain_text pre = true ->
  plain_text post = true ->
  (forall p, p < length pre -> inherited (pre ++ mid ++ post) p = None) ->
  (forall p, length (pre ++ mid) <= p ->
             inherited (pre ++ mid ++ post) p = None) ->
  rules_at other inherited (pre ++ mid ++ post) (length pre) = Some f ->
  (forall tokens, f tokens = (tokens ++ [t], length (pre ++ mid))) ->
  parse other inherited (pre ++ mid ++ post) =
    Some (text_hole pre ++ [t] ++ text_hole post).
Proof.
  intros Hmid Hpre Hpost Hi1 Hi2 Hr Hf.
  assert (Hlen : length (pre ++ mid) <> 0).
  { rewrite length_app. destruct mid; [congruence | simpl; lia]. }
  unfold parse. rewrite parse_loop_eq.
  assert (Hsrc : length (pre ++ mid ++ post) =
                 S (length (pre ++ mid ++ post) - 1)).
  { rewrite app_assoc, length_app. lia. }
  rewrite (proj2 (Nat.leb_gt _ _)) by lia.
  rewrite (round_after_plain pre (mid ++ post) _ t f Hpre Hi1 Hr Hf Hlen).
  rewrite Hsrc at 1.
  rewrite parse_loop_eq.
  rewrite (proj2 (Nat.eqb_neq _ _) Hlen).
  destruct post as [|c post'].
  - cbn [text_hole]. rewrite ?app_nil_r. now rewrite Nat.leb_refl.
  - rewrite (proj2 (Nat.leb_gt _ _))
      by (rewrite (app_assoc pre mid), (length_app (pre ++ mid)); simpl; lia).
    rewrite app_assoc.
    rewrite round_plain_tail; [| assumption |].
    + unfold process_text.
      rewrite skipn_app, Nat.sub_diag, skipn_all, skipn_0.
      cbn [app text_hole]. now rewrite <- app_assoc.
    + intros p Hp. rewrite <- app_assoc. now apply Hi2.
Qed.

End Scan.

Lemma rules_at_block_math_tex {other : Type}
    (inherited : str -> nat -> option (list (token other) * nat))
    (pre body post : str) :
  ends_with_backslash pre = false ->
  occurs (lit "$$") (body ++ lit "$") = false ->
  ends_with_backslash body = false ->
  exists f,
    rules_at other inherited (pre ++ (lit "$$" ++ body ++ lit "$$") ++ post)
      (length pre) = Some f /\
    forall tokens,
      f tokens = (tokens ++ [tok_block_math body],
                  length (pre ++ lit "$$" ++ body ++ lit "$$")).
Proof.
  intros Hpre Hocc Hend.
  unfold rules_at, MATH_RULES. cbn [first_rule rule_pattern rule_method].
  unfold match_at. rewrite at_pos_app.
  replace ((lit "$$" ++ body ++ lit "$$") ++ post)
    with (lit "$$" ++ body ++ lit "$$" ++ post)
    by now rewrite <- !app_assoc.
  rewrite block_math_tex_exec; [| | assumption | assumption].
  - eexists. split; [reflexivity|].
    intros tokens. unfold parse_block_math_tex, group_or_empty, m_group, m_end,
      cursor. cbn [m_state groups before group_get String.eqb Ascii.eqb Bool.eqb].
    f_equal. rewrite !length_app, !length_rev, !length_app. lia.
  - now apply ends_with_backslash_rev.
Qed.

Lemma rules_at_block_math_latex {other : Type}
    (inherited : str -> nat -> option (list (token other) * nat))
    (pre body post : str) :
  ends_with_backslash pre = false ->
  occurs (lit "\\]") (body ++ lit "\\") = false ->
  ends_with_backslash body = false ->
  exists f,
    rules_at other inherited (pre ++ (lit "\\[" ++ body ++ lit "\\]") ++ post)
      (length pre) = Some f /\
    forall tokens,
      f tokens = (tokens ++ [tok_block_math body],
                  length (pre ++ lit "\\[" ++ body ++ lit "\\]")).
Proof.
  intros Hpre Hocc Hend.
  unfold rules_at, MATH_RULES. cbn [first_rule rule_pattern rule_method].
  unfold match_at. rewrite at_pos_app.
  replace ((lit "\\[" ++ body ++ lit "\\]") ++ post)
    with (lit "\\[" ++ body ++ lit "\\]" ++ post)
    by now rewrite <- !app_assoc.
  replace (exec BLOCK_MATH_TEX _ Some) with (@None mstate)
    by (symmetry; apply dollar_rules_need_dollar; [simpl; auto | reflexivity]).
  rewrite block_math_latex_exec; [| | assumption | assumption].
  - eexists. split; [reflexivity|].
    intros tokens. unfold parse_block_math_latex, group_or_empty, m_group,
      m_end, cursor.
    cbn [m_state groups before group_get String.eqb Ascii.eqb Bool.eqb].
    f_equal. rewrite !length_app, !length_rev, !length_app. lia.
  - now apply ends_with_backslash_rev.
Qed.

Lemma rules_at_latex_environment {other : Type}
    (inherited : str -> nat -> option (list (token other) * nat))
    (pre name body post : str) :
  is_env_name name ->
  occurs ((lit "\end{" ++ name) ++ [chr "}"]) (body ++ lit "\end{" ++ name)
    = false ->
  let span := lit "\begin{" ++ name ++ lit "}" ++ body
                ++ lit "\end{" ++ name ++ lit "}" in
  exists f,
    rules_at other inherited (pre ++ span ++ post) (length pre) = Some f /\
    forall tokens,
      f tokens = (tokens ++ [tok_latex_environment name body],
                  length (pre ++ span)).
Proof.
  intros Hname Hocc span.
  unfold rules_at, MATH_RULES. cbn [first_rule rule_pattern rule_method].
  unfold match_at. rewrite at_pos_app.
  replace (span ++ post)
    with (lit "\begin{" ++ name ++ lit "}" ++ body
            ++ lit "\end{" ++ name ++ lit "}" ++ post)
    by (unfold span; now rewrite <- !app_assoc).
  rewrite latex_environment_exec by assumption.
  cbn [lit list_ascii_of_string app].
  rewrite (dollar_rules_need_dollar BLOCK_MATH_TEX)
    by (simpl; auto).
  rewrite (bracket_rules_need_backslashes BLOCK_MATH_LATEX)
    by (simpl; auto).
  rewrite (dollar_rules_need_dollar INLINE_MATH_TEX)
    by (simpl; auto).
  rewrite (bracket_rules_need_backslashes INLINE_MATH_LATEX)
    by (simpl; auto).
  eexists. split; [reflexivity|].
  intros tokens. unfold parse_latex_environment, group_or_empty, m_group,
    m_end, cursor.
  cbn [m_state groups before group_get String.eqb Ascii.eqb Bool.eqb].
  f_equal. unfold span. cbn [lit list_ascii_of_string app].
  rewrite !length_app, !length_rev. cbn [length]. rewrite !length_app.
  cbn [length]. rewrite !length_app. cbn [length]. lia.
Qed.

(** An environment as a whole: a plain stretch, [\begin{name}body\end{name}]
    and a plain stretch. *)
Lemma environment_span {other : Type}
    (inherited : str -> nat -> option (list (token other) * nat))
    (state : BlockState other) (pre name body post : str) :
  let span := lit "\begin{" ++ name ++ lit "}" ++ body
                ++ lit "\end{" ++ name ++ lit "}" in
  let src := pre ++ span ++ post in
  plain_text pre = true ->
  plain_text post = true ->
  is_env_name name ->
  occurs ((lit "\end{" ++ name) ++ [chr "}"]) (body ++ lit "\end{" ++ name)
    = false ->
  (forall p, p < length pre -> inherited src p = None) ->
  (forall p, length (pre ++ span) <= p -> inherited src p = None) ->
  parse other inherited src =
    Some (text_hole pre ++ [tok_latex_environment name body]
            ++ text_hole post) /\
  render_math_token (tok_latex_environment (other := other) name body) =
    Some (lit "\begin{" ++ name ++ lit "}" ++ html_escape body
            ++ lit "\end{" ++ name ++ lit "}") /\
  exists m,
    search MULTILINE_MATH src 0 = Some m /\
    m_start m = length pre /\
    m_0 m = span /\
    m_group m "math_env_name" = Some name /\
    parse_multiline_math other m state =
      (add_paragraph other state span, length (pre ++ span)).
Proof.
  intros span src Hpre Hpost Hname Hocc Hi1 Hi2.
  split; [|split].
  - destruct (rules_at_latex_environment inherited pre name body post
                Hname Hocc) as (f & Hf & Hft).
    apply (parse_single inherited pre span post
             (tok_latex_environment name body) f); try assumption.
    unfold span. discriminate.
  - cbn [render_math_token]. unfold latex_environment, escape_html.
    rewrite (html_escape_no_markup name (env_name_no_markup name Hname)).
    reflexivity.
  - pose proof (multiline_math_env_exec (rev pre) name body post Hname Hocc)
      as He.
    fold span in He.
    set (st := MState (rev span ++ rev pre) post
                 [("math_env_name"%string, name)]) in He.
    exists (MkMatch (length pre) st).
    assert (Hm : match_at MULTILINE_MATH src (length pre) =
                 Some (MkMatch (length pre) st)).
    { unfold match_at, src. rewrite at_pos_app.
      replace (span ++ post)
        with (lit "\begin{" ++ name ++ lit "}" ++ body
                ++ lit "\end{" ++ name ++ lit "}" ++ post)
        by (unfold span; now rewrite <- !app_assoc).
      now rewrite He. }
    split; [|split; [reflexivity|]].
    + apply search_after_plain; [unfold math_patterns; simpl; tauto | | ];
        assumption.
    + assert (H0 : m_0 (MkMatch (length pre) st) = span)
        by (apply (m_0_delimited (length pre) pre span post); reflexivity).
      split; [exact H0|]. split; [reflexivity|].
      unfold parse_multiline_math. rewrite H0. f_equal.
      unfold m_end, cursor, st. cbn [m_state before].
      rewrite !length_app, !length_rev. lia.
Qed.

(** ** The math rules *)

(** C1 (as amended).  Let a text hold a span [$$body$$] whose closing [$$] is
    the first [$$] after the opening one, with no backslash right before
    either delimiter.  Whenever the cursor of the inline scan stands at the
    span, the round yields one [block_math] token whose [raw] is the body as
    it stands in the source, newlines included, and the cursor moves past
    the span; there too the block rule [multiline_math] matches the whole
    span and hands it to the paragraph as one piece.  The scan gets there
    from the start when the text before the span is plain: free of dollars
    and backslashes, and claimed by no rule of mistune.  When the text after
    the span is plain as well, the tokens are the text before, the
    [block_math] token, the text after.  The renderer wraps the escaped body
    in [$$]. *)
Theorem C1_block_math_span {other : Type}
    (inherited : str -> nat -> option (list (token other) * nat))
    (state : BlockState other) (tokens : list (token other))
    (pre body post : str) :
  let span := lit "$$" ++ body ++ lit "$$" in
  let src := pre ++ span ++ post in
  occurs (lit "$$") (body ++ lit "$") = false ->
  ends_with_backslash body = false ->
  (ends_with_backslash pre = false ->
   round other inherited src (length pre) tokens =
     Some (tokens ++ [tok_block_math body], length (pre ++ span)) /\
   exists m,
     match_at MULTILINE_MATH src (length pre) = Some m /\
     m_0 m = span /\
     parse_multiline_math other m state =
       (add_paragraph other state span, length (pre ++ span))) /\
  (plain_text pre = true ->
   (forall p, p < length pre -> inherited src p = None) ->
   round other inherited src 0 [] =
     Some (text_hole pre ++ [tok_block_math body], length (pre ++ span)) /\
   exists m,
     search MULTILINE_MATH src 0 = Some m /\
     m_start m = length pre /\ m_0 m = span) /\
  (plain_text pre = true ->
   plain_text post = true ->
   (forall p, p < length pre -> inherited src p = None) ->
   (forall p, length (pre ++ span) <= p -> inherited src p = None) ->
   parse other inherited src =
     Some (text_hole pre ++ [tok_block_math body] ++ text_hole post)) /\
  render_math_token (tok_block_math (other := other) body) =
    Some (lit "$$" ++ html_escape body ++ lit "$$").
Proof.
  intros span src Hocc Hend.
  assert (Hblock : ends_with_backslash pre = false ->
            exists m,
              match_at MULTILINE_MATH src (length pre) = Some m /\
              m_start m = length pre /\
              m_0 m = span /\
              parse_multiline_math other m state =
                (add_paragraph other state span, length (pre ++ span))).
  { intros Hpre.
    pose proof (multiline_math_tex_exec (rev pre) body post
                  (ends_with_backslash_rev pre Hpre) Hocc Hend) as He.
    fold span in He.
    exists (MkMatch (length pre) (MState (rev span ++ rev pre) post [])).
    assert (H0 : m_0 (MkMatch (length pre)
                        (MState (rev span ++ rev pre) post [])) = span)
      by (apply (m_0_delimited (length pre) pre span post []); reflexivity).
    split; [|split; [reflexivity|split; [exact H0|]]].
    - unfold match_at, src. rewrite at_pos_app.
      replace (span ++ post) with (lit "$$" ++ body ++ lit "$$" ++ post)
        by (unfold span; now rewrite <- !app_assoc).
      now rewrite He.
    - unfold parse_multiline_math. rewrite H0. f_equal.
      unfold m_end, cursor. cbn [m_state before].
      rewrite !length_app, !length_rev. lia. }
  split; [|split; [|split; [|reflexivity]]].
  - intros Hpre. split.
    + destruct (rules_at_block_math_tex inherited pre body post Hpre Hocc Hend)
        as (f & Hf & Hft).
      apply (round_here inherited src (length pre) _ tokens _ f Hf (Hft tokens)).
      rewrite length_app. unfold span. cbn [lit list_ascii_of_string app length].
      lia.
    + destruct (Hblock Hpre) as (m & Hm & _ & H0 & Hp). now exists m.
  - intros Hpre Hi1.
    pose proof (plain_text_no_backslash pre Hpre) as Hpre'. split.
    + destruct (rules_at_block_math_tex inherited pre body post Hpre' Hocc Hend)
        as (f & Hf & Hft).
      apply (round_after_plain inherited pre (span ++ post) _ _ f);
        try assumption.
      rewrite length_app. unfold span. cbn [lit list_ascii_of_string app length].
      lia.
    + destruct (Hblock Hpre') as (m & Hm & Hs & H0 & _). exists m.
      split; [|split; assumption].
      apply search_after_plain; [unfold math_patterns; simpl; tauto | | ];
        assumption.
  - intros Hpre Hpost Hi1 Hi2.
    pose proof (plain_text_no_backslash pre Hpre) as Hpre'.
    destruct (rules_at_block_math_tex inherited pre body post Hpre' Hocc Hend)
      as (f & Hf & Hft).
    apply (parse_single inherited pre span post (tok_block_math body) f);
      try assumption.
    discriminate.
Qed.

Lemma C1_block_math_span_witness :
  let body := lit "x" ++ [newline] ++ lit "y" in
  (round Empty_set no_rule (lit "\$ " ++ (lit "$$" ++ body ++ lit "$$")
                              ++ lit " $b$") 3 [tok_text (lit "\$ ")] =
     Some ([tok_text (lit "\$ "); tok_block_math body], 10)) /\
  parse Empty_set no_rule
    (lit "a " ++ (lit "$$" ++ body ++ lit "$$") ++ lit " b") =
    Some [tok_text (lit "a "); tok_block_math body; tok_text (lit " b")].
Proof.
  intros body. split.
  - apply (proj1 (proj1 (C1_block_math_span (other := Empty_set) no_rule
             (MkBlockState Empty_set [] [] 0) [tok_text (lit "\$ ")]
             (lit "\$ ") body (lit " $b$") eq_refl eq_refl) eq_refl)).
  - apply (proj1 (proj2 (proj2 (C1_block_math_span (other := Empty_set)
             no_rule (MkBlockState Empty_set [] [] 0) []
             (lit "a ") body (lit " b") eq_refl eq_refl))));
      reflexivity.
Defined.

(** C1, as stated, fails: a balanced [$$...$$] span with an inner newline
    that stands inside an environment is read as part of the environment,
    and no [block_math] token is produced. *)
Lemma C1_counterexample :
  let src := lit "\begin{a}" ++ (lit "$$" ++ (lit "x" ++ [newline] ++ lit "y")
               ++ lit "$$") ++ lit "\end{a}" in
  parse Empty_set no_rule src =
    Some [tok_latex_environment (lit "a")
            (lit "$$" ++ (lit "x" ++ [newline] ++ lit "y") ++ lit "$$")] /\
  count_tokens is_block_math (parse Empty_set no_rule src) = 0.
Proof. vm_compute. split; reflexivity. Qed.

(** C2 (as amended).  On [$5 and $10] the inline parser does produce an
    [inline_math] token, whatever the rules of mistune are: the first dollar
    opens, the second one closes, the body is [5 and ]; with the math rules
    alone [10] is left as text.  In general a match of
    [inline_math_tex] is a text [$body$] whose body is not empty, where
    neither the opening nor the closing dollar comes right after a dollar or
    a backslash; the token carries the body. *)
Theorem C2_inline_math_tex {other : Type}
    (inherited : str -> nat -> option (list (token other) * nat))
    (src : str) (pos : nat) (m : Match) :
  round other inherited (lit "$5 and $10") 0 [] =
    Some ([tok_inline_math (lit "5 and ")], 8) /\
  parse other no_rule (lit "$5 and $10") =
    Some [tok_inline_math (lit "5 and "); tok_text (lit "10")] /\
  (match_at INLINE_MATH_TEX src pos = Some m ->
   exists body,
     body <> [] /\
     skipn pos src = lit "$" ++ body ++ lit "$" ++ after (m_state m) /\
     m_0 m = lit "$" ++ body ++ lit "$" /\
     last_is_plain (firstn pos src) /\
     last_is_plain body /\
     forall tokens : list (token other),
       parse_inline_math_tex other m tokens =
         (tokens ++ [tok_inline_math body], m_end m)).
Proof.
  split; [vm_compute; reflexivity|].
  split; [vm_compute; reflexivity|].
  unfold match_at, at_pos. intros H.
  destruct (exec INLINE_MATH_TEX _ Some) as [out|] eqn:E; [|discriminate].
  injection H as <-.
  apply inline_math_tex_sound in E
    as (body & rest & Hne & Ha & -> & Hb & Hlast).
  exists body. repeat split; try assumption.
  - unfold m_0, m_end, cursor. cbn [m_state m_start before].
    assert (Hpos : length (firstn pos src) = pos).
    { apply firstn_length_le.
      destruct (Nat.le_gt_cases pos (length src)) as [Hle|Hgt]; [exact Hle|].
      rewrite skipn_all2 in Ha by lia. discriminate. }
    rewrite length_app, !length_rev, Hpos, Nat.add_sub.
    rewrite <- (length_rev (lit "$" ++ body ++ lit "$")).
    rewrite firstn_app, Nat.sub_diag, firstn_all, firstn_0, app_nil_r.
    apply rev_involutive.
Qed.

Lemma C2_inline_math_tex_witness :
  exists body,
    body <> [] /\
    skipn 0 (lit "$5 and $10") = lit "$" ++ body ++ lit "$" ++ lit "10" /\
    m_0 (MkMatch 0 (MState (rev (lit "$5 and $")) (lit "10")
                      [("math_inline_tex"%string, lit "5 and ")])) =
      lit "$" ++ body ++ lit "$" /\
    last_is_plain (firstn 0 (lit "$5 and $10")) /\
    last_is_plain body /\
    forall tokens : list (token Empty_set),
      parse_inline_math_tex Empty_set
        (MkMatch 0 (MState (rev (lit "$5 and $")) (lit "10")
                      [("math_inline_tex"%string, lit "5 and ")])) tokens =
        (tokens ++ [tok_inline_math body], 8).
Proof.
  apply (proj2 (proj2 (C2_inline_math_tex (other := Empty_set) no_rule
           (lit "$5 and $10") 0
           (MkMatch 0 (MState (rev (lit "$5 and $")) (lit "10")
                         [("math_inline_tex"%string, lit "5 and ")]))))).
  reflexivity.
Defined.

(** C2, as stated, fails: [$5 and $10] yields an [inline_math] token. *)
Lemma C2_counterexample :
  parse Empty_set no_rule (lit "$5 and $10") =
    Some [tok_inline_math (lit "5 and "); tok_text (lit "10")] /\
  count_tokens is_inline_math (parse Empty_set no_rule (lit "$5 and $10")) = 1.
Proof. vm_compute. split; reflexivity. Qed.

(** ** Attachments *)

Section ImageProperties.
Variable HTMLRenderer_image : str -> str -> option str -> str.
Variable os_path_join : str -> str -> str.
Variable fs : str -> option node.
Variable guess_type : str -> option str.
Variable b64encode : str -> str.

Local Abbreviation image_ :=
  (image HTMLRenderer_image os_path_join fs guess_type b64encode).

Lemma dict_mem_get {V : Type} (key : str) (d : dict V) :
  dict_mem key d = true -> exists v, dict_get key d = Some v.
Proof.
  unfold dict_mem. destruct (dict_get key d) as [v|]; [|discriminate].
  now exists v.
Qed.

Lemma image_attachment (self : IPythonRenderer) (txt name : str)
    (title : option str) (attachment : dict str) :
  dict_get name (attachments self) = Some attachment ->
  attachment <> [] ->
  exists mime data,
    dict_get mime attachment = Some data /\
    preferred_choice attachment mime /\
    image_ self txt (attachment_prefix ++ name) title =
      Ok (HTMLRenderer_image txt (data_url mime data) title).
Proof.
  intros Hget Hne. unfold image.
  rewrite strip_prefix_app, Hget. unfold preferred_mime_types.
  cbn [find].
  destruct (dict_mem (lit "image/svg+xml") attachment) eqn:E1.
  { destruct (dict_mem_get _ _ E1) as [v Hv].
    exists (lit "image/svg+xml"), v. split; [exact Hv|].
    split; [|cbn [bind]; now rewrite Hv].
    unfold preferred_choice, has_type. rewrite E1.
    repeat split; congruence. }
  destruct (dict_mem (lit "image/png") attachment) eqn:E2.
  { destruct (dict_mem_get _ _ E2) as [v Hv].
    exists (lit "image/png"), v. split; [exact Hv|].
    split; [|cbn [bind]; now rewrite Hv].
    unfold preferred_choice, has_type. rewrite E1, E2.
    repeat split; congruence. }
  destruct (dict_mem (lit "image/jpeg") attachment) eqn:E3.
  { destruct (dict_mem_get _ _ E3) as [v Hv].
    exists (lit "image/jpeg"), v. split; [exact Hv|].
    split; [|cbn [bind]; now rewrite Hv].
    unfold preferred_choice, has_type. rewrite E1, E2, E3.
    repeat split; congruence. }
  destruct attachment as [|[k0 v0] rest]; [congruence|].
  assert (Hv : dict_get k0 ((k0, v0) :: rest) = Some v0)
    by (simpl; now rewrite str_eqb_refl).
  exists k0, v0. split; [exact Hv|].
  split; [|cbn [dict_keys map fst bind]; now rewrite Hv].
  unfold preferred_choice, has_type. rewrite E1, E2, E3.
  repeat split; try congruence.
Qed.

(** C3 (as amended).  For an image whose URL is [attachment:name]:
    [InvalidNotebook] is raised exactly when the name is not in the
    attachment map; when the name is there and its mapping is not empty,
    the URL handed on is a base64 data URL for the first of
    [image/svg+xml], [image/png], [image/jpeg] that the mapping has, and
    for the first type of the mapping when it has none of them.  With the
    map [{fig1: {image/png: data}}] the URL is [data:image/png;base64,]
    followed by the data, and with an empty map [InvalidNotebook] is
    raised. *)
Theorem C3_attachment_image (self : IPythonRenderer) (txt name data : str)
    (title : option str) :
  let url := attachment_prefix ++ name in
  ((exists msg, image_ self txt url title = Raise (InvalidNotebook msg)) <->
   dict_get name (attachments self) = None) /\
  (forall attachment,
     dict_get name (attachments self) = Some attachment ->
     attachment <> [] ->
     exists mime payload,
       dict_get mime attachment = Some payload /\
       preferred_choice attachment mime /\
       image_ self txt url title =
         Ok (HTMLRenderer_image txt (data_url mime payload) title)) /\
  image_ (MkRenderer (embed_images self) (exclude_anchor_links self)
            (anchor_link_text self) (path self)
            [(lit "fig1", [(lit "image/png", data)])])
    txt (lit "attachment:fig1") title =
    Ok (HTMLRenderer_image txt (lit "data:image/png;base64," ++ data) title) /\
  image_ (MkRenderer (embed_images self) (exclude_anchor_links self)
            (anchor_link_text self) (path self) [])
    txt (lit "attachment:fig1") title =
    Raise (InvalidNotebook (lit "missing attachment: fig1")).
Proof.
  intros url. split; [|split; [|split; reflexivity]].
  - unfold url, image. rewrite strip_prefix_app.
    destruct (dict_get name (attachments self)) as [attachment|] eqn:Hget.
    + split; [|discriminate]. intros [msg H]. exfalso.
      destruct (find _ preferred_mime_types) as [p|].
      * cbn [bind] in H. destruct (dict_get p attachment); discriminate.
      * destruct (dict_keys attachment) as [|k0 ks]; cbn [bind] in H;
          [discriminate|].
        destruct (dict_get k0 attachment); discriminate.
    + split; [reflexivity|]. intros _. eexists. reflexivity.
  - intros attachment Hget Hne. now apply image_attachment.
Qed.

End ImageProperties.

Lemma C3_attachment_image_witness :
  exists mime payload,
    dict_get mime [(lit "image/jpeg", lit "AAAA"); (lit "image/png", lit "BBBB")]
      = Some payload /\
    preferred_choice
      [(lit "image/jpeg", lit "AAAA"); (lit "image/png", lit "BBBB")] mime /\
    image show_url concat_path empty_fs no_guess id_encode
      (MkRenderer false false pilcrow []
         [(lit "fig1", [(lit "image/jpeg", lit "AAAA");
                        (lit "image/png", lit "BBBB")])])
      (lit "alt") (attachment_prefix ++ lit "fig1") None =
      Ok (show_url (lit "alt") (data_url mime payload) None).
Proof.
  apply (proj1 (proj2 (C3_attachment_image
           show_url concat_path empty_fs no_guess id_encode
           (MkRenderer false false pilcrow []
              [(lit "fig1", [(lit "image/jpeg", lit "AAAA");
                             (lit "image/png", lit "BBBB")])])
           (lit "alt") (lit "fig1") [] None))).
  - reflexivity.
  - discriminate.
Defined.

(** C3, as stated, fails: a name that is in the map with an empty mapping
    gives no data URL; the lookup of its first type raises [IndexError]. *)
Lemma C3_counterexample :
  image show_url concat_path empty_fs no_guess id_encode
    (MkRenderer false false pilcrow [] [(lit "fig1", [])])
    (lit "alt") (lit "attachment:fig1") None = Raise IndexError.
Proof. reflexivity. Qed.

(** ** Environments *)

(** C4.  [\begin{equation}x^2\end{equation}] is parsed into one
    [latex_environment] token with name [equation] and body [x^2], at block
    level the whole text is one match of [multiline_math], and the token
    that the parse gives is rendered, through the dispatch of mistune, back
    to the same text: parsing and then rendering gives the source.  So does
    every environment with a name of the pattern, standing between plain
    stretches: the token carries name and body, and the rendering of the
    parsed token is [\begin{name}], the escaped body, [\end{name}], the
    text around it being left to mistune.  Conversely a match of the
    environment rule, inline or at block level, always has the same name
    after [\begin] and after [\end], and the rendering of its token is the
    matched text when the body has no markup: the mismatched
    [\begin{a}...\end{b}] is matched by no math rule at any position,
    neither by the block rule, and is left as text. *)
Theorem C4_environment_round_trip {other : Type}
    (inherited : str -> nat -> option (list (token other) * nat))
    (state : BlockState other) (pre name body post : str)
    (src : str) (pos : nat) (m : Match) :
  let eq_src := lit "\begin{equation}x^2\end{equation}" in
  let bad_src := lit "\begin{a}...\end{b}" in
  let span := lit "\begin{" ++ name ++ lit "}" ++ body
                ++ lit "\end{" ++ name ++ lit "}" in
  (parse other inherited eq_src =
     Some [tok_latex_environment (lit "equation") (lit "x^2")] /\
   latex_environment (lit "equation") (lit "x^2") = eq_src /\
   option_map m_0 (search MULTILINE_MATH eq_src 0) = Some eq_src /\
   render_math_token
     (tok_latex_environment (other := other) (lit "equation") (lit "x^2")) =
     Some eq_src /\
   option_map (map render_math_token) (parse other inherited eq_src) =
     Some [Some eq_src]) /\
  (plain_text pre = true ->
   plain_text post = true ->
   is_env_name name ->
   occurs ((lit "\end{" ++ name) ++ [chr "}"]) (body ++ lit "\end{" ++ name)
     = false ->
   (forall p, p < length pre -> inherited (pre ++ span ++ post) p = None) ->
   (forall p, length (pre ++ span) <= p ->
              inherited (pre ++ span ++ post) p = None) ->
   parse other inherited (pre ++ span ++ post) =
     Some (text_hole pre ++ [tok_latex_environment name body]
             ++ text_hole post) /\
   latex_environment name body =
     lit "\begin{" ++ name ++ lit "}" ++ html_escape body
       ++ lit "\end{" ++ name ++ lit "}" /\
   option_map m_0 (search MULTILINE_MATH (pre ++ span ++ post) 0) =
     Some span /\
   render_math_token (tok_latex_environment (other := other) name body) =
     Some (lit "\begin{" ++ name ++ lit "}" ++ html_escape body
             ++ lit "\end{" ++ name ++ lit "}") /\
   option_map (map render_math_token)
     (parse other inherited (pre ++ span ++ post)) =
     Some (map (fun _ => None) (text_hole (other := other) pre)
             ++ [Some (lit "\begin{" ++ name ++ lit "}" ++ html_escape body
                         ++ lit "\end{" ++ name ++ lit "}")]
             ++ map (fun _ => None) (text_hole (other := other) post))) /\
  (match_at LATEX_ENVIRONMENT src pos = Some m ->
   exists name' body',
     is_env_name name' /\
     m_0 m = lit "\begin{" ++ name' ++ lit "}" ++ body'
               ++ lit "\end{" ++ name' ++ lit "}" /\
     (forall tokens : list (token other),
        parse_latex_environment other m tokens =
          (tokens ++ [tok_latex_environment name' body'], m_end m)) /\
     (no_markup body' = true -> latex_environment name' body' = m_0 m) /\
     (no_markup body' = true ->
      render_math_token (tok_latex_environment (other := other) name' body') =
        Some (m_0 m))) /\
  (match_at MULTILINE_MATH src pos = Some m ->
   startswith (skipn pos src) (lit "\begin") = true ->
   exists name' body',
     is_env_name name' /\
     m_0 m = lit "\begin{" ++ name' ++ lit "}" ++ body'
               ++ lit "\end{" ++ name' ++ lit "}") /\
  ((forall p, first_rule other (MATH_RULES other) bad_src p = None) /\
   search MULTILINE_MATH bad_src 0 = None /\
   parse other no_rule bad_src = Some [tok_text bad_src]).
Proof.
  intros eq_src bad_src span. split; [|split; [|split; [|split]]].
  - repeat split; vm_compute; reflexivity.
  - intros Hpre Hpost Hname Hocc Hi1 Hi2.
    destruct (environment_span inherited state pre name body post
                Hpre Hpost Hname Hocc Hi1 Hi2)
      as (Hparse & Hrender & m' & Hs & _ & H0 & _).
    split; [exact Hparse|]. split; [|split; [|split]].
    + exact (f_equal or_empty Hrender).
    + fold span in Hs. rewrite Hs. cbn [option_map]. now rewrite H0.
    + exact Hrender.
    + fold span in Hparse. rewrite Hparse. cbn [option_map]. f_equal.
      rewrite !map_app. cbn [map]. rewrite Hrender.
      assert (Htext : forall t : str,
                map render_math_token (text_hole (other := other) t) =
                map (fun _ => None) (text_hole (other := other) t))
        by (intros t; unfold text_hole; now destruct t).
      now rewrite !Htext.
  - unfold match_at, at_pos. intros H.
    destruct (exec LATEX_ENVIRONMENT _ Some) as [out|] eqn:E; [|discriminate].
    injection H as <-.
    apply latex_environment_sound in E as (n & bd & rest & Hn & Ha & ->).
    exists n, bd.
    assert (H0 : m_0 (MkMatch pos
                   (MState (rev (lit "\begin{" ++ n ++ lit "}" ++ bd
                              ++ lit "\end{" ++ n ++ lit "}")
                            ++ rev (firstn pos src)) rest
                      [("math_env_body"%string, bd);
                       ("math_env_name"%string, n)])) =
                 lit "\begin{" ++ n ++ lit "}" ++ bd
                   ++ lit "\end{" ++ n ++ lit "}").
    { apply (m_0_delimited pos (firstn pos src) _ rest).
      symmetry. apply firstn_length_le.
      destruct (Nat.le_gt_cases pos (length src)) as [Hle|Hgt]; [exact Hle|].
      rewrite skipn_all2 in Ha by lia. discriminate. }
    split; [assumption|]. split; [exact H0|]. split; [reflexivity|].
    assert (Hsame : no_markup bd = true ->
              latex_environment n bd =
                lit "\begin{" ++ n ++ lit "}" ++ bd
                  ++ lit "\end{" ++ n ++ lit "}").
    { intros Hbody. unfold latex_environment, escape_html.
      rewrite (html_escape_no_markup bd Hbody).
      rewrite (html_escape_no_markup n (env_name_no_markup n Hn)).
      reflexivity. }
    split; intros Hbody; rewrite H0; cbn [render_math_token];
      now rewrite (Hsame Hbody).
  - unfold match_at, at_pos, startswith. intros H Hstart.
    destruct (strip_prefix (lit "\begin") (skipn pos src)) as [a|] eqn:Ea;
      [|discriminate].
    apply strip_prefix_some in Ea. rewrite Ea in H.
    destruct (exec MULTILINE_MATH _ Some) as [out|] eqn:E; [|discriminate].
    injection H as <-.
    apply multiline_math_env_sound in E as (n & bd & rest & Hn & Ha & ->).
    exists n, bd. split; [assumption|].
    apply (m_0_delimited pos (firstn pos src) _ rest).
    symmetry. apply firstn_length_le.
    destruct (Nat.le_gt_cases pos (length src)) as [Hle|Hgt]; [exact Hle|].
    rewrite skipn_all2 in Ea by lia. discriminate.
  - split; [|split; vm_compute; reflexivity].
    intros p.
    do 20 (destruct p as [|p]; [vm_compute; reflexivity|]).
    apply first_rule_plain. reflexivity.
Qed.

Lemma C4_environment_round_trip_witness :
  let m := MkMatch 0 (MState (rev (lit "\begin{equation}x^2\end{equation}")) []
                        [("math_env_body"%string, lit "x^2");
                         ("math_env_name"%string, lit "equation")]) in
  (parse Empty_set no_rule
     (lit "An " ++ (lit "\begin{" ++ lit "align*" ++ lit "}" ++ lit "a&=b"
                      ++ lit "\end{" ++ lit "align*" ++ lit "}") ++ lit "!") =
     Some [tok_text (lit "An ");
           tok_latex_environment (lit "align*") (lit "a&=b");
           tok_text (lit "!")] /\
   latex_environment (lit "align*") (lit "a&=b") =
     lit "\begin{align*}a&amp;=b\end{align*}" /\
   option_map (map render_math_token)
     (parse Empty_set no_rule
        (lit "An " ++ (lit "\begin{" ++ lit "align*" ++ lit "}" ++ lit "a&=b"
                         ++ lit "\end{" ++ lit "align*" ++ lit "}")
           ++ lit "!")) =
     Some [None; Some (lit "\begin{align*}a&amp;=b\end{align*}"); None]) /\
  exists name body,
    is_env_name name /\
    m_0 m = lit "\begin{" ++ name ++ lit "}" ++ body
              ++ lit "\end{" ++ name ++ lit "}" /\
    (forall tokens : list (token Empty_set),
       parse_latex_environment Empty_set m tokens =
         (tokens ++ [tok_latex_environment name body], m_end m)) /\
    (no_markup body = true -> latex_environment name body = m_0 m) /\
    (no_markup body = true ->
     render_math_token (tok_latex_environment (other := Empty_set) name body) =
       Some (m_0 m)).
Proof.
  intros m. split.
  - assert (Hname : is_env_name (lit "align*")).
    { exists (lit "align"). split; [reflexivity | now right]. }
    destruct (proj1 (proj2 (C4_environment_round_trip (other := Empty_set)
                no_rule (MkBlockState Empty_set [] [] 0)
                (lit "An ") (lit "align*") (lit "a&=b") (lit "!") [] 0 m))
              eq_refl eq_refl Hname eq_refl
              (fun p _ => eq_refl) (fun p _ => eq_refl))
      as (Hp & Hr & _ & _ & Hpr).
    split; [exact Hp | split; [exact Hr | exact Hpr]].
  - apply (proj1 (proj2 (proj2 (C4_environment_round_trip (other := Empty_set)
             no_rule (MkBlockState Empty_set [] [] 0) [] [] [] []
             (lit "\begin{equation}x^2\end{equation}") 0 m)))).
    reflexivity.
Defined.

(** ** Display math in brackets *)

(** C5 (as amended).  The delimiters of the source patterns carry two
    backslashes: [\\[] and [\\]].  Let a text hold a span [\\[body\\]] whose
    closing [\\]] is the first one after the opening delimiter, with no
    backslash right before either delimiter.  Whenever the cursor of the
    inline scan stands at the span, the rule [block_math_latex] yields one
    [block_math] token carrying the body, and there the block rule
    [multiline_math] matches the whole span.  The scan gets there from the
    start when the text before the span is plain (as in C1), and when the
    text after it is plain too the tokens are the text before, the
    [block_math] token, the text after. *)
Theorem C5_bracket_display_math {other : Type}
    (inherited : str -> nat -> option (list (token other) * nat))
    (state : BlockState other) (tokens : list (token other))
    (pre body post : str) :
  let span := lit "\\[" ++ body ++ lit "\\]" in
  let src := pre ++ span ++ post in
  occurs (lit "\\]") (body ++ lit "\\") = false ->
  ends_with_backslash body = false ->
  (ends_with_backslash pre = false ->
   round other inherited src (length pre) tokens =
     Some (tokens ++ [tok_block_math body], length (pre ++ span))) /\
  (exists m,
     match_at MULTILINE_MATH src (length pre) = Some m /\
     m_0 m = span /\
     parse_multiline_math other m state =
       (add_paragraph other state span, length (pre ++ span))) /\
  (plain_text pre = true ->
   (forall p, p < length pre -> inherited src p = None) ->
   round other inherited src 0 [] =
     Some (text_hole pre ++ [tok_block_math body], length (pre ++ span)) /\
   exists m,
     search MULTILINE_MATH src 0 = Some m /\
     m_start m = length pre /\ m_0 m = span) /\
  (plain_text pre = true ->
   plain_text post = true ->
   (forall p, p < length pre -> inherited src p = None) ->
   (forall p, length (pre ++ span) <= p -> inherited src p = None) ->
   parse other inherited src =
     Some (text_hole pre ++ [tok_block_math body] ++ text_hole post)).
Proof.
  intros span src Hocc Hend.
  assert (Hblock :
            exists m,
              match_at MULTILINE_MATH src (length pre) = Some m /\
              m_start m = length pre /\
              m_0 m = span /\
              parse_multiline_math other m state =
                (add_paragraph other state span, length (pre ++ span))).
  { pose proof (multiline_math_latex_exec (rev pre) body post Hocc) as He.
    fold span in He.
    exists (MkMatch (length pre) (MState (rev span ++ rev pre) post [])).
    assert (H0 : m_0 (MkMatch (length pre)
                        (MState (rev span ++ rev pre) post [])) = span)
      by (apply (m_0_delimited (length pre) pre span post []); reflexivity).
    split; [|split; [reflexivity|split; [exact H0|]]].
    - unfold match_at, src. rewrite at_pos_app.
      replace (span ++ post) with (lit "\\[" ++ body ++ lit "\\]" ++ post)
        by (unfold span; now rewrite <- !app_assoc).
      now rewrite He.
    - unfold parse_multiline_math. rewrite H0. f_equal.
      unfold m_end, cursor. cbn [m_state before].
      rewrite !length_app, !length_rev. lia. }
  split; [|split; [|split]].
  - intros Hpre.
    destruct (rules_at_block_math_latex inherited pre body post Hpre Hocc Hend)
      as (f & Hf & Hft).
    apply (round_here inherited src (length pre) _ tokens _ f Hf (Hft tokens)).
    rewrite length_app. unfold span. cbn [lit list_ascii_of_string app length].
    lia.
  - destruct Hblock as (m & Hm & _ & H0 & Hp). now exists m.
  - intros Hpre Hi1.
    pose proof (plain_text_no_backslash pre Hpre) as Hpre'. split.
    + destruct (rules_at_block_math_latex inherited pre body post Hpre' Hocc
                  Hend) as (f & Hf & Hft).
      apply (round_after_plain inherited pre (span ++ post) _ _ f);
        try assumption.
      rewrite length_app. unfold span. cbn [lit list_ascii_of_string app length].
      lia.
    + destruct Hblock as (m & Hm & Hs & H0 & _). exists m.
      split; [|split; assumption].
      apply search_after_plain; [unfold math_patterns; simpl; tauto | | ];
        assumption.
  - intros Hpre Hpost Hi1 Hi2.
    pose proof (plain_text_no_backslash pre Hpre) as Hpre'.
    destruct (rules_at_block_math_latex inherited pre body post Hpre' Hocc Hend)
      as (f & Hf & Hft).
    apply (parse_single inherited pre span post (tok_block_math body) f);
      try assumption.
    discriminate.
Qed.

Lemma C5_bracket_display_math_witness :
  (round Empty_set no_rule (lit "$1 " ++ (lit "\\[" ++ lit "\pi" ++ lit "\\]")
                              ++ lit " $2") 3 [tok_text (lit "$1 ")] =
     Some ([tok_text (lit "$1 "); tok_block_math (lit "\pi")], 12)) /\
  parse Empty_set no_rule
    (lit "see " ++ (lit "\\[" ++ lit "\sqrt{2}" ++ lit "\\]") ++ lit ".") =
    Some [tok_text (lit "see "); tok_block_math (lit "\sqrt{2}");
          tok_text (lit ".")].
Proof.
  split.
  - apply (proj1 (C5_bracket_display_math (other := Empty_set) no_rule
             (MkBlockState Empty_set [] [] 0) [tok_text (lit "$1 ")]
             (lit "$1 ") (lit "\pi") (lit " $2") eq_refl eq_refl) eq_refl).
  - apply (proj2 (proj2 (proj2 (C5_bracket_display_math (other := Empty_set)
             no_rule (MkBlockState Empty_set [] [] 0) []
             (lit "see ") (lit "\sqrt{2}") (lit ".") eq_refl eq_refl))));
      reflexivity.
Defined.

(** C5, as stated, fails: a span delimited by [\[] and [\]], one backslash
    each, is matched by no math rule, at inline level or at block level. *)
Lemma C5_counterexample :
  parse Empty_set no_rule (lit "\[x\]") = Some [tok_text (lit "\[x\]")] /\
  count_tokens is_block_math (parse Empty_set no_rule (lit "\[x\]")) = 0 /\
  search MULTILINE_MATH (lit "\[x\]") 0 = None /\
  search BLOCK_MATH_LATEX (lit "\[x\]") 0 = None.
Proof. vm_compute. repeat split. Qed.

(** ** Headings *)

Section HeadingProperties.
Variable HTMLRenderer_heading : str -> nat -> dict str -> str.
Variable fromstring : str -> option Element.
Variable tostring : Element -> str.

Local Abbreviation heading_ :=
  (heading HTMLRenderer_heading fromstring tostring).


End HeadingProperties.


(** ** Code blocks *)

Section CodeProperties.
Variable lexer : Type.
Variable get_lexer_by_name : str -> option lexer.
Variable highlight : str -> option lexer -> str.
Variable HTMLRenderer_block_code : str -> str.

Local Abbreviation block_code_ :=
  (block_code lexer get_lexer_by_name highlight HTMLRenderer_block_code).

(** C7 (as amended).  A fence-info text that starts with [mermaid] gives
    the mermaid container, whatever the highlighter knows.  For any other
    info text with a first word, the words being separated by whitespace
    characters, those outside ASCII too: when the highlighter knows the
    word, the output is its markup for the code; when the lookup fails,
    rendering goes on with a plain block of the word, a newline and the
    code.  So [python] is highlighted when known, and [not-a-real-lang],
    unknown, gives a plain block that begins with [not-a-real-lang]. *)
Theorem C7_block_code (code info : str) :
  (startswith info (lit "mermaid") = true ->
   block_code_ code (Some info) = Ok (block_mermaidjs code)) /\
  (forall lang,
     startswith info (lit "mermaid") = false ->
     split_first (strip info) = Some lang ->
     (forall lx, get_lexer_by_name lang = Some lx ->
        block_code_ code (Some info) = Ok (highlight code (Some lx))) /\
     (get_lexer_by_name lang = None ->
        block_code_ code (Some info) =
          Ok (HTMLRenderer_block_code (lang ++ [newline] ++ code)))) /\
  (forall lx, get_lexer_by_name (lit "python") = Some lx ->
     block_code_ code (Some (lit "python")) = Ok (highlight code (Some lx))) /\
  (get_lexer_by_name (lit "not-a-real-lang") = None ->
     block_code_ code (Some (lit "not-a-real-lang")) =
       Ok (HTMLRenderer_block_code
             (lit "not-a-real-lang" ++ [newline] ++ code))).
Proof.
  assert (Hgen : forall i lang,
    startswith i (lit "mermaid") = false ->
    split_first (strip i) = Some lang ->
    (forall lx, get_lexer_by_name lang = Some lx ->
       block_code_ code (Some i) = Ok (highlight code (Some lx))) /\
    (get_lexer_by_name lang = None ->
       block_code_ code (Some i) =
         Ok (HTMLRenderer_block_code (lang ++ [newline] ++ code)))).
  { intros i lang Hm Hw.
    assert (Hi : truthy (Some i) = Some i).
    { destruct i; [discriminate Hw | reflexivity]. }
    pose proof (split_first_nonempty _ _ Hw) as Hne.
    unfold block_code. rewrite Hi, Hm, Hw. split.
    - intros lx ->. cbn [bind]. destruct lang; [congruence | reflexivity].
    - intros ->. reflexivity. }
  split; [|split; [|split]].
  - intros Hm. unfold block_code.
    destruct info as [|c info']; [discriminate Hm|].
    cbn [truthy]. now rewrite Hm.
  - intros lang. apply Hgen.
  - apply (Hgen (lit "python") (lit "python")); reflexivity.
  - apply (Hgen (lit "not-a-real-lang") (lit "not-a-real-lang")); reflexivity.
Qed.

End CodeProperties.

Lemma C7_block_code_witness :
  block_code unit only_python mark_highlight plain_block
    (lit "graph TD") (Some (lit "mermaid")) =
    Ok (block_mermaidjs (lit "graph TD")) /\
  block_code unit only_python mark_highlight plain_block
    (lit "x = 1") (Some (lit " python numberLines")) =
    Ok (mark_highlight (lit "x = 1") (Some tt)) /\
  block_code unit only_python mark_highlight plain_block
    (lit "x = 1") (Some (lit "python" ++ no_break_space ++ lit "title")) =
    Ok (mark_highlight (lit "x = 1") (Some tt)) /\
  block_code unit only_python mark_highlight plain_block
    (lit "x = 1") (Some (lit "not-a-real-lang")) =
    Ok (plain_block (lit "not-a-real-lang" ++ [newline] ++ lit "x = 1")).
Proof.
  split; [|split; [|split]].
  - apply (proj1 (C7_block_code unit only_python mark_highlight plain_block
                    (lit "graph TD") (lit "mermaid"))).
    reflexivity.
  - apply (proj1 (proj1 (proj2 (C7_block_code unit only_python mark_highlight
                    plain_block (lit "x = 1") (lit " python numberLines")))
                    (lit "python") eq_refl eq_refl) tt).
    reflexivity.
  - apply (proj1 (proj1 (proj2 (C7_block_code unit only_python mark_highlight
                    plain_block (lit "x = 1")
                    (lit "python" ++ no_break_space ++ lit "title")))
                    (lit "python") eq_refl eq_refl) tt).
    reflexivity.
  - apply (proj2 (proj2 (proj2 (C7_block_code unit only_python mark_highlight
                    plain_block (lit "x = 1") (lit "not-a-real-lang"))))).
    reflexivity.
Defined.

(** C7, as stated, fails on [mermaid]: the lookup of the language fails, and
    yet the output is not the plain block that begins with the info text; it
    is the mermaid container. *)
Lemma C7_counterexample :
  only_python (lit "mermaid") = None /\
  block_code unit only_python mark_highlight plain_block
    (lit "graph TD") (Some (lit "mermaid")) =
    Ok (block_mermaidjs (lit "graph TD")) /\
  block_mermaidjs (lit "graph TD") <>
    plain_block (lit "mermaid" ++ [newline] ++ lit "graph TD").
Proof. repeat split. vm_compute. discriminate. Qed.

(** ** Embedded images *)

Section EmbedProperties.
Variable HTMLRenderer_image : str -> str -> option str -> str.
Variable os_path_join : str -> str -> str.
Variable fs : str -> option node.
Variable guess_type : str -> option str.
Variable b64encode : str -> str.

Local Abbreviation image_ :=
  (image HTMLRenderer_image os_path_join fs guess_type b64encode).

(** C8.  For an image whose URL does not use the [attachment:] scheme, in
    embed-images mode: when nothing exists at the URL joined to the base
    path, rendering goes on with the URL as it was; when a file exists
    there, the URL becomes a data URL made of the guessed MIME type and the
    base64 encoding of the file's content, newlines removed. *)
Theorem C8_embed_local_image (self : IPythonRenderer) (txt url : str)
    (title : option str) :
  startswith url attachment_prefix = false ->
  embed_images self = true ->
  let src_path := os_path_join (path self) url in
  (fs src_path = None ->
   image_ self txt url title = Ok (HTMLRenderer_image txt url title)) /\
  (forall content,
     fs src_path = Some (File content) ->
     image_ self txt url title =
       Ok (HTMLRenderer_image txt
             (data_url (format_optional (guess_type src_path))
                (replace_char newline [] (b64encode content)))
             title) /\
     forall mime, guess_type src_path = Some mime ->
       image_ self txt url title =
         Ok (HTMLRenderer_image txt
               (data_url mime (replace_char newline [] (b64encode content)))
               title)).
Proof.
  intros Hscheme Hembed src_path.
  unfold startswith in Hscheme.
  unfold image, _src_to_base64.
  destruct (strip_prefix attachment_prefix url); [discriminate|].
  rewrite Hembed. fold src_path.
  split.
  - intros ->. reflexivity.
  - intros content ->. split; [reflexivity|].
    intros mime ->. reflexivity.
Qed.

End EmbedProperties.

Lemma C8_embed_local_image_witness :
  image show_url concat_path one_file_fs guess_png id_encode
    (MkRenderer true false pilcrow (lit "figures/") [])
    (lit "alt") (lit "missing") None = Ok (lit "missing") /\
  image show_url concat_path one_file_fs guess_png id_encode
    (MkRenderer true false pilcrow (lit "figures/") [])
    (lit "alt") (lit "plot") None = Ok (lit "data:image/png;base64,abc").
Proof.
  split.
  - apply (proj1 (C8_embed_local_image show_url concat_path one_file_fs
                    guess_png id_encode
                    (MkRenderer true false pilcrow (lit "figures/") [])
                    (lit "alt") (lit "missing") None eq_refl eq_refl)).
    reflexivity.
  - apply (proj1 (proj2 (C8_embed_local_image show_url concat_path one_file_fs
                    guess_png id_encode
                    (MkRenderer true false pilcrow (lit "figures/") [])
                    (lit "alt") (lit "plot") None eq_refl eq_refl)
                  (lit "abc") eq_refl)).
Defined.

(** ** Environment names *)

(** C9.  The name pattern [[a-z]*\*?], which the block rule and the inline
    rule share, admits the empty name and the bare star.  With either as
    name, an environment between plain stretches is matched by the
    environment rule, inline and at block level, and the token's name is the
    empty text, respectively [*]; so it is for [\begin{}x\end{}] and for
    [\begin{*}x\end{*}]. *)
Theorem C9_empty_environment_name {other : Type}
    (inherited : str -> nat -> option (list (token other) * nat))
    (state : BlockState other) (pre name body post : str) :
  let span := lit "\begin{" ++ name ++ lit "}" ++ body
                ++ lit "\end{" ++ name ++ lit "}" in
  let src := pre ++ span ++ post in
  (is_env_name [] /\ is_env_name (lit "*")) /\
  (name = [] \/ name = lit "*" ->
   plain_text pre = true ->
   plain_text post = true ->
   occurs ((lit "\end{" ++ name) ++ [chr "}"]) (body ++ lit "\end{" ++ name)
     = false ->
   (forall p, p < length pre -> inherited src p = None) ->
   (forall p, length (pre ++ span) <= p -> inherited src p = None) ->
   parse other inherited src =
     Some (text_hole pre ++ [tok_latex_environment name body]
             ++ text_hole post) /\
   exists m,
     search MULTILINE_MATH src 0 = Some m /\
     m_0 m = span /\
     m_group m "math_env_name" = Some name) /\
  (parse other inherited (lit "\begin{}x\end{}") =
     Some [tok_latex_environment [] (lit "x")] /\
   parse other inherited (lit "\begin{*}x\end{*}") =
     Some [tok_latex_environment (lit "*") (lit "x")] /\
   option_map (fun m => (m_0 m, m_group m "math_env_name"))
     (search MULTILINE_MATH (lit "\begin{}x\end{}") 0) =
     Some (lit "\begin{}x\end{}", Some []) /\
   option_map (fun m => (m_0 m, m_group m "math_env_name"))
     (search MULTILINE_MATH (lit "\begin{*}x\end{*}") 0) =
     Some (lit "\begin{*}x\end{*}", Some (lit "*"))).
Proof.
  intros span src.
  assert (H0 : is_env_name []) by (exists []; auto).
  assert (H1 : is_env_name (lit "*")) by (exists []; auto).
  split; [split; assumption|]. split.
  - intros Hn Hpre Hpost Hocc Hi1 Hi2.
    assert (Hname : is_env_name name) by (destruct Hn as [-> | ->]; assumption).
    destruct (environment_span inherited state pre name body post
                Hpre Hpost Hname Hocc Hi1 Hi2)
      as (Hparse & _ & m & Hs & _ & Hm0 & Hg & _).
    split; [exact Hparse|]. now exists m.
  - repeat split; vm_compute; reflexivity.
Qed.

Lemma C9_empty_environment_name_witness :
  parse Empty_set no_rule
    (lit "so " ++ (lit "\begin{" ++ [] ++ lit "}" ++ lit "x^2"
                     ++ lit "\end{" ++ [] ++ lit "}") ++ lit ".") =
    Some [tok_text (lit "so "); tok_latex_environment [] (lit "x^2");
          tok_text (lit ".")].
Proof.
  apply (proj1 (proj2 (C9_empty_environment_name (other := Empty_set) no_rule
           (MkBlockState Empty_set [] [] 0)
           (lit "so ") [] (lit "x^2") (lit "."))));
    try reflexivity.
  now left.
Defined.

(** ** Unguessable MIME types *)

Section MimeProperties.
Variable HTMLRenderer_image : str -> str -> option str -> str.
Variable os_path_join : str -> str -> str.
Variable fs : str -> option node.
Variable guess_type : str -> option str.
Variable b64encode : str -> str.

Local Abbreviation image_ :=
  (image HTMLRenderer_image os_path_join fs guess_type b64encode).

(** C10.  In embed-images mode, when the file exists and no MIME type can
    be guessed from its name, the URL is replaced all the same, and begins
    with [data:None;base64,]. *)
Theorem C10_unguessable_mime (self : IPythonRenderer) (txt url : str)
    (title : option str) (content : str) :
  startswith url attachment_prefix = false ->
  embed_images self = true ->
  let src_path := os_path_join (path self) url in
  fs src_path = Some (File content) ->
  guess_type src_path = None ->
  _src_to_base64 os_path_join fs guess_type b64encode self url =
    Ok (Some (lit "data:None;base64,"
                ++ replace_char newline [] (b64encode content))) /\
  image_ self txt url title =
    Ok (HTMLRenderer_image txt
          (lit "data:None;base64,"
             ++ replace_char newline [] (b64encode content)) title).
Proof.
  intros Hscheme Hembed src_path Hfile Hguess.
  unfold startswith in Hscheme.
  unfold image, _src_to_base64.
  destruct (strip_prefix attachment_prefix url); [discriminate|].
  rewrite Hembed. fold src_path. rewrite Hfile, Hguess.
  split; reflexivity.
Qed.

End MimeProperties.

Lemma C10_unguessable_mime_witness :
  image show_url concat_path one_file_fs no_guess id_encode
    (MkRenderer true false pilcrow (lit "figures/") [])
    (lit "alt") (lit "plot") None = Ok (lit "data:None;base64,abc").
Proof.
  apply (proj2 (C10_unguessable_mime show_url concat_path one_file_fs
                  no_guess id_encode
                  (MkRenderer true false pilcrow (lit "figures/") [])
                  (lit "alt") (lit "plot") None (lit "abc")
                  eq_refl eq_refl eq_refl eq_refl)).
Defined.

(** * Further properties *)

(** ** The delimiter rules, conversely *)

(** [.*?] stops at the first place where the rest of the pattern can go
    on. *)
Lemma lazy_dot_sound_min (k : mstate -> option mstate) (out : mstate)
    (fuel : nat) (st : mstate) :
  lazy_loop (exec Dot) k fuel st = Some out ->
  exists body rest,
    after st = body ++ rest /\
    k (MState (rev body ++ before st) rest (groups st)) = Some out /\
    forall b1 c b2, body = b1 ++ c :: b2 ->
      k (MState (rev b1 ++ before st) (c :: b2 ++ rest) (groups st)) = None.
Proof.
  revert st; induction fuel as [|fuel IH]; intros [b a g] H;
    rewrite lazy_loop_eq in H; cbn [before after groups] in *.
  - destruct (k (MState b a g)) eqn:E; [|discriminate].
    exists [], a. split; [reflexivity|]. split; [cbn; congruence|].
    intros [|x b1] c b2 Hb; discriminate Hb.
  - destruct (k (MState b a g)) eqn:E.
    + exists [], a. split; [reflexivity|]. split; [cbn; congruence|].
      intros [|x b1] c b2 Hb; discriminate Hb.
    + cbn [exec] in H. unfold one in H; cbn [before after groups] in H.
      destruct a as [|c a]; [discriminate|].
      destruct (progress _ _); [|discriminate].
      apply IH in H as (body & rest & Ha & Hk & Hmin).
      cbn [before after groups] in *.
      exists (c :: body), rest. split; [now rewrite Ha|]. split.
      * cbn [rev]. now rewrite <- app_assoc.
      * intros [|x b1] c' b2 Hb.
        -- injection Hb as <- ->. cbn [rev app]. now rewrite <- Ha.
        -- injection Hb as <- ->. cbn [rev]. rewrite <- app_assoc.
           now apply Hmin.
Qed.

Lemma exec_Cats_lits (p : str) (rs : list regex) (st : mstate)
    (k : mstate -> option mstate) :
  exec (Cats (map Lit p ++ rs)) st k =
  match advance_over p st with
  | Some st' => exec (Cats rs) st' k
  | None => None
  end.
Proof.
  revert st. induction p as [|c p IH]; intros st; [reflexivity|].
  cbn [map app Cats exec advance_over]. unfold one.
  destruct (after st) as [|x a]; [reflexivity|].
  destruct (Ascii.eqb c x); [apply IH | reflexivity].
Qed.

Lemma exec_lits_end (p : str) (st : mstate) :
  exec (Cats (map Lit p)) st Some =
  match strip_prefix p (after st) with
  | Some rest => Some (MState (rev p ++ before st) rest (groups st))
  | None => None
  end.
Proof.
  rewrite <- (app_nil_r (map Lit p)), exec_Cats_lits, advance_over_strip.
  now destruct (strip_prefix p (after st)).
Qed.

(** The closing part [(?<!\\)close] of a delimiter pattern. *)
Lemma close_exec (closer : str) (opener body b rest : str)
    (g : list (string * str)) :
  opener <> [] ->
  exec (Cats ([NotBehind [backslash]] ++ map Lit closer))
    (MState (rev body ++ rev opener ++ b) rest g) Some =
  if ends_with_backslash (opener ++ body) then None
  else
    match strip_prefix closer rest with
    | Some rest' =>
        Some (MState (rev closer ++ rev body ++ rev opener ++ b) rest' g)
    | None => None
    end.
Proof.
  intros Hne. cbn [app Cats exec before]. rewrite exec_lits_end.
  cbn [after before groups].
  unfold ends_with_backslash. rewrite rev_app_distr.
  destruct (rev body ++ rev opener) as [|c r] eqn:E.
  - apply app_eq_nil in E as [_ E].
    apply (f_equal (@rev ascii)) in E. rewrite rev_involutive in E.
    now destruct Hne.
  - rewrite app_assoc, E. cbn [app mem existsb]. rewrite orb_false_r.
    now destruct (Ascii.eqb c backslash).
Qed.

(** A pattern [(?<!\\)open(?P<name>.*?)(?<!\\)close]: what it matches is
    [open body close], with no backslash right before the opening and the
    closing delimiter, and the closing delimiter is the first one in the
    text that has no backslash right before it. *)
Lemma delimited_sound (opener closer : str) (name : string)
    (b a : str) (out : mstate) :
  opener <> [] -> ends_with_backslash opener = false ->
  exec (Cat (NotBehind [backslash])
          (Cats (map Lit opener
                   ++ [Group name (LazyStar Dot)]
                   ++ [NotBehind [backslash]] ++ map Lit closer)))
    (MState b a []) Some = Some out ->
  exists body rest,
    a = opener ++ body ++ closer ++ rest /\
    out = MState (rev (opener ++ body ++ closer) ++ b) rest [(name, body)] /\
    match b with c :: _ => Ascii.eqb c backslash = false | [] => True end /\
    ends_with_backslash body = false /\
    forall b1 c b2, body = b1 ++ c :: b2 ->
      startswith (c :: b2 ++ closer ++ rest) closer = true ->
      ends_with_backslash b1 = true.
Proof.
  intros Hne Hop H.
  assert (Hb : match b with
               | c :: _ => mem c [backslash] = false
               | [] => True
               end).
  { cbn [exec before] in H. destruct b as [|c0 b0]; [exact I|].
    destruct (mem c0 _); [discriminate | reflexivity]. }
  rewrite exec_not_behind in H by exact Hb.
  rewrite exec_Cats_lits, advance_over_strip in H.
  cbn [after before groups] in H.
  destruct (strip_prefix opener a) as [a1|] eqn:Ha; [|discriminate H].
  apply strip_prefix_some in Ha. subst a.
  set (st1 := MState (rev opener ++ b) a1 []) in H.
  change (exec (Cats ([Group name (LazyStar Dot)]
                        ++ [NotBehind [backslash]] ++ map Lit closer))
            st1 Some)
    with (lazy_loop (exec Dot)
            (fun st' =>
               exec (Cats ([NotBehind [backslash]] ++ map Lit closer))
                 (MState (before st') (after st')
                    ((name, captured st1 st') :: groups st')) Some)
            (length (after st1)) st1) in H.
  apply lazy_dot_sound_min in H as (body & rest0 & Ha1 & Hk & Hmin).
  unfold st1 in *. cbn [after before groups] in *. subst a1.
  rewrite captured_app, close_exec in Hk by exact Hne.
  destruct (ends_with_backslash (opener ++ body)) eqn:Hbody; [discriminate Hk|].
  destruct (strip_prefix closer rest0) as [rest|] eqn:Hr; [|discriminate Hk].
  apply strip_prefix_some in Hr. subst rest0. injection Hk as <-.
  exists body, rest. repeat split.
  - rewrite !rev_app_distr, <- !app_assoc. reflexivity.
  - destruct b as [|c0 b0]; [exact I|]. cbn [mem existsb] in Hb.
    now rewrite orb_false_r in Hb.
  - unfold ends_with_backslash in *. rewrite rev_app_distr in Hbody.
    destruct (rev body) as [|c r]; [reflexivity | exact Hbody].
  - intros b1 c b2 Hsplit Hstart.
    specialize (Hmin b1 c b2 Hsplit).
    rewrite captured_app, close_exec in Hmin by exact Hne.
    destruct (ends_with_backslash (opener ++ b1)) eqn:Hb1.
    + unfold ends_with_backslash in *. rewrite rev_app_distr in Hb1.
      destruct (rev b1) as [|x r]; [|exact Hb1]. cbn [app] in Hb1. congruence.
    + unfold startswith in Hstart.
      destruct (strip_prefix closer (c :: b2 ++ closer ++ rest));
        discriminate.
Qed.

(** Conversely, [open body close] is matched when no backslash stands
    right before either delimiter and no closing delimiter without a
    backslash before it stands earlier. *)
Lemma delimited_exec (opener closer : str) (name : string)
    (b body rest : str) :
  opener <> [] ->
  match b with c :: _ => Ascii.eqb c backslash = false | [] => True end ->
  ends_with_backslash (opener ++ body) = false ->
  (forall b1 c b2, body = b1 ++ c :: b2 ->
     startswith (c :: b2 ++ closer ++ rest) closer = true ->
     ends_with_backslash (opener ++ b1) = true) ->
  exec (Cat (NotBehind [backslash])
          (Cats (map Lit opener
                   ++ [Group name (LazyStar Dot)]
                   ++ [NotBehind [backslash]] ++ map Lit closer)))
    (MState b (opener ++ body ++ closer ++ rest) []) Some =
  Some (MState (rev (opener ++ body ++ closer) ++ b) rest [(name, body)]).
Proof.
  intros Hne Hb Hend Hmin.
  rewrite exec_not_behind by now apply not_behind_backslash.
  rewrite exec_Cats_lits, advance_over_strip.
  cbn [after before groups]. rewrite strip_prefix_app.
  set (st1 := MState (rev opener ++ b) (body ++ closer ++ rest) []).
  change (exec (Cats ([Group name (LazyStar Dot)]
                        ++ [NotBehind [backslash]] ++ map Lit closer))
            st1 Some)
    with (lazy_loop (exec Dot)
            (fun st' =>
               exec (Cats ([NotBehind [backslash]] ++ map Lit closer))
                 (MState (before st') (after st')
                    ((name, captured st1 st') :: groups st')) Some)
            (length (after st1)) st1).
  unfold st1. cbn [after].
  apply lazy_dot_first; [reflexivity | |].
  - intros b1 c b2 Hsplit. cbn [before after groups].
    rewrite close_exec by exact Hne.
    destruct (ends_with_backslash (opener ++ b1)) eqn:Hb1; [reflexivity|].
    destruct (strip_prefix closer (c :: b2 ++ closer ++ rest)) eqn:Hs;
      [|reflexivity].
    rewrite (Hmin b1 c b2 Hsplit) in Hb1; [discriminate|].
    unfold startswith. now rewrite Hs.
  - cbn [before after groups]. rewrite captured_app.
    rewrite close_exec by exact Hne. rewrite Hend, strip_prefix_app.
    rewrite !rev_app_distr, <- !app_assoc. reflexivity.
Qed.

Lemma ends_with_backslash_app (opener body : str) :
  ends_with_backslash opener = false ->
  ends_with_backslash body = false ->
  ends_with_backslash (opener ++ body) = false.
Proof.
  unfold ends_with_backslash. rewrite rev_app_distr.
  destruct (rev body); [now cbn [app]|]. now intros _ H.
Qed.

Lemma inline_math_latex_exec (b body post : str) :
  match b with c :: _ => Ascii.eqb c backslash = false | [] => True end ->
  occurs (lit "\\)") (body ++ lit "\\") = false ->
  ends_with_backslash body = false ->
  exec INLINE_MATH_LATEX
    (MState b (lit "\\(" ++ body ++ lit "\\)" ++ post) []) Some
  = Some (MState (rev (lit "\\(" ++ body ++ lit "\\)") ++ b) post
            [("math_inline_latex"%string, body)]).
Proof.
  intros Hb Hocc Hend.
  apply (delimited_exec (lit "\\(") (lit "\\)") "math_inline_latex");
    [discriminate | exact Hb | now apply ends_with_backslash_app |].
  intros b1 c b2 Hsplit Hstart.
  pose proof (no_early_occurrence (lit "\\") (chr ")") body b1 b2 post c
                Hocc Hsplit) as Hno.
  change (lit "\\" ++ [chr ")"]) with (lit "\\)") in Hno. congruence.
Qed.

Lemma bracket_rules_need_backslash (r : regex) (b s : str) (c : ascii)
    (g : list (string * str)) (k : mstate -> option mstate) :
  In r [BLOCK_MATH_LATEX; INLINE_MATH_LATEX] ->
  Ascii.eqb backslash c = false ->
  exec r (MState b (c :: s) g) k = None.
Proof.
  intros Hr Hc. unfold backslash in Hc. cbn [chr] in Hc.
  destruct Hr as [<- | [<- | []]]; unfold_patterns; exec_simpl;
    unfold one; cbn [after]; rewrite Hc;
    destruct b as [|c0 b0]; [reflexivity | | reflexivity |];
    now destruct (Ascii.eqb c0 "\" || false).
Qed.

Lemma block_math_latex_needs_bracket (b s : str) (c : ascii)
    (g : list (string * str)) (k : mstate -> option mstate) :
  Ascii.eqb (chr "[") c = false ->
  exec BLOCK_MATH_LATEX (MState b (backslash :: backslash :: c :: s) g) k
  = None.
Proof.
  intros Hc. cbn [chr] in Hc. unfold_patterns; exec_simpl.
  unfold one; cbn [after before groups]. rewrite !Ascii.eqb_refl, Hc.
  destruct b as [|c0 b0]; [reflexivity|].
  now destruct (Ascii.eqb c0 "\" || false).
Qed.

Lemma block_math_tex_needs_two (b s : str) (c : ascii)
    (g : list (string * str)) (k : mstate -> option mstate) :
  Ascii.eqb dollar c = false ->
  exec BLOCK_MATH_TEX (MState b (dollar :: c :: s) g) k = None.
Proof.
  intros Hc. unfold dollar in Hc. cbn [chr] in Hc. unfold_patterns; exec_simpl.
  unfold one; cbn [after before groups]. rewrite !Ascii.eqb_refl, Hc.
  destruct b as [|c0 b0]; [reflexivity|].
  now destruct (Ascii.eqb c0 "\" || false).
Qed.

(** [$body$] at the cursor: the body is not empty and holds no dollar. *)
Lemma inline_math_tex_exec (b body post : str) :
  match b with c :: _ => plain c = true | [] => True end ->
  body <> [] ->
  forallb (fun c => negb (Ascii.eqb c dollar)) body = true ->
  ends_with_backslash body = false ->
  exec INLINE_MATH_TEX (MState b (lit "$" ++ body ++ lit "$" ++ post) []) Some
  = Some (MState (rev (lit "$" ++ body ++ lit "$") ++ b) post
            [("math_inline_tex"%string, body)]).
Proof.
  intros Hb Hne Hnd Hend.
  destruct body as [|c1 body']; [congruence|].
  unfold INLINE_MATH_TEX, LazyPlus. cbn [Cats].
  rewrite exec_not_behind
    by (cbn [before]; destruct b; [exact I | now apply mem_guard_plain]).
  unfold dollar, backslash in *.
  cbn [chr lit list_ascii_of_string app] in *.
  exec_simpl. unfold one at 1. cbn [after before groups].
  rewrite Ascii.eqb_refl. unfold one at 1. cbn [after before groups].
  cbn [forallb] in Hnd. apply andb_true_iff in Hnd as [Hc1 Hnd].
  apply lazy_dot_first with (rest := "$"%char :: post).
  - reflexivity.
  - intros b1 c b2 Hsplit. cbn [before after groups].
    assert (Hc : Ascii.eqb "$" c = false).
    { rewrite forallb_forall in Hnd.
      assert (Hin : In c body') by (rewrite Hsplit; apply in_elt).
      apply Hnd in Hin. apply negb_true_iff in Hin.
      now rewrite Ascii.eqb_sym. }
    unfold one. cbn [after]. rewrite Hc.
    destruct (rev b1 ++ c1 :: "$"%char :: b) as [|c0 r0]; [reflexivity|].
    now destruct (Ascii.eqb c0 "$" || (Ascii.eqb c0 "\" || false)).
  - cbn [before after groups].
    replace (rev body' ++ c1 :: "$"%char :: b)
      with (rev (c1 :: body') ++ "$"%char :: b)
      by (cbn [rev]; now rewrite <- app_assoc).
    rewrite captured_app.
    destruct (rev (c1 :: body')) as [|c0 r0] eqn:E.
    { apply (f_equal (@rev ascii)) in E. rewrite rev_involutive in E.
      discriminate E. }
    cbn [app].
    assert (Hc0 : Ascii.eqb c0 "$" = false).
    { assert (Hin : In c0 (c1 :: body')).
      { apply in_rev. rewrite E. now left. }
      destruct Hin as [<- | Hin]; [now apply negb_true_iff in Hc1|].
      rewrite forallb_forall in Hnd. apply Hnd in Hin.
      now apply negb_true_iff in Hin. }
    assert (Hc0' : Ascii.eqb c0 "\" = false).
    { unfold ends_with_backslash in Hend. now rewrite E in Hend. }
    rewrite Hc0, Hc0'. cbn [orb]. unfold one. cbn [after before groups].
    rewrite Ascii.eqb_refl. f_equal. f_equal.
    change (c0 :: r0 ++ "$"%char :: b) with ((c0 :: r0) ++ "$"%char :: b).
    rewrite <- E. cbn [rev]. rewrite !rev_app_distr. cbn [rev app].
    rewrite <- !app_assoc. reflexivity.
Qed.

(** ** What the delimiter rules match *)

Lemma delimited_match (opener closer : str) (name : string)
    (src : str) (pos : nat) (m : Match) :
  opener <> [] -> ends_with_backslash opener = false ->
  match_at (Cat (NotBehind [backslash])
              (Cats (map Lit opener
                       ++ [Group name (LazyStar Dot)]
                       ++ [NotBehind [backslash]] ++ map Lit closer)))
    src pos = Some m ->
  exists body,
    skipn pos src = opener ++ body ++ closer ++ after (m_state m) /\
    m_0 m = opener ++ body ++ closer /\
    m_group m name = Some body /\
    m_end m = pos + length (opener ++ body ++ closer) /\
    ends_with_backslash (firstn pos src) = false /\
    ends_with_backslash body = false /\
    forall b1 c b2, body = b1 ++ c :: b2 ->
      startswith (c :: b2 ++ closer ++ after (m_state m)) closer = true ->
      ends_with_backslash b1 = true.
Proof.
  intros Hne Hop H. unfold match_at, at_pos in H.
  destruct (exec _ _ Some) as [out|] eqn:He; [|discriminate H].
  injection H as <-.
  apply delimited_sound in He as (body & rest & Ha & -> & Hb & Hend & Hmin);
    [|assumption|assumption].
  assert (Hpos : length (firstn pos src) = pos).
  { apply firstn_length_le.
    destruct (Nat.le_gt_cases pos (length src)) as [Hle | Hgt]; [exact Hle|].
    rewrite skipn_all2 in Ha by lia.
    destruct opener; [congruence | discriminate Ha]. }
  exists body. cbn [m_state after]. repeat split.
  - exact Ha.
  - apply (m_0_delimited pos (firstn pos src) _ rest). now rewrite Hpos.
  - unfold m_group. cbn [m_state groups group_get]. now rewrite String.eqb_refl.
  - unfold m_end, cursor. cbn [m_state before].
    rewrite length_app, !length_rev, Hpos. lia.
  - unfold ends_with_backslash.
    destruct (rev (firstn pos src)); [reflexivity | exact Hb].
  - exact Hend.
  - exact Hmin.
Qed.

(** X1.  What a match of the three delimiter rules for [$$...$$], [\\[...\\]]
    and [\\(...\\)] looks like: the opening delimiter, a body, the closing
    delimiter, with no backslash right before either delimiter; the token
    is of type [block_math] for the first two and [inline_math] for the
    third, its [raw] is the body as it stands in the text, and the cursor
    goes to the end of the span. *)
Theorem delimiter_rules_sound {other : Type} (src : str) (pos : nat)
    (m : Match) (tokens : list (token other)) :
  (match_at BLOCK_MATH_TEX src pos = Some m ->
   exists body,
     skipn pos src = lit "$$" ++ body ++ lit "$$" ++ after (m_state m) /\
     m_0 m = lit "$$" ++ body ++ lit "$$" /\
     ends_with_backslash (firstn pos src) = false /\
     ends_with_backslash body = false /\
     parse_block_math_tex other m tokens =
       (tokens ++ [tok_block_math body],
        pos + length (lit "$$" ++ body ++ lit "$$"))) /\
  (match_at BLOCK_MATH_LATEX src pos = Some m ->
   exists body,
     skipn pos src = lit "\\[" ++ body ++ lit "\\]" ++ after (m_state m) /\
     m_0 m = lit "\\[" ++ body ++ lit "\\]" /\
     ends_with_backslash (firstn pos src) = false /\
     ends_with_backslash body = false /\
     parse_block_math_latex other m tokens =
       (tokens ++ [tok_block_math body],
        pos + length (lit "\\[" ++ body ++ lit "\\]"))) /\
  (match_at INLINE_MATH_LATEX src pos = Some m ->
   exists body,
     skipn pos src = lit "\\(" ++ body ++ lit "\\)" ++ after (m_state m) /\
     m_0 m = lit "\\(" ++ body ++ lit "\\)" /\
     ends_with_backslash (firstn pos src) = false /\
     ends_with_backslash body = false /\
     parse_inline_math_latex other m tokens =
       (tokens ++ [tok_inline_math body],
        pos + length (lit "\\(" ++ body ++ lit "\\)"))).
Proof.
  split; [|split]; intros H.
  - apply (delimited_match (lit "$$") (lit "$$") "math_block_tex") in H
      as (body & Hs & H0 & Hg & He & Hpre & Hend & _);
      [|discriminate|reflexivity].
    exists body. repeat split; try assumption.
    unfold parse_block_math_tex, group_or_empty. now rewrite Hg, He.
  - apply (delimited_match (lit "\\[") (lit "\\]") "math_block_latex") in H
      as (body & Hs & H0 & Hg & He & Hpre & Hend & _);
      [|discriminate|reflexivity].
    exists body. repeat split; try assumption.
    unfold parse_block_math_latex, group_or_empty. now rewrite Hg, He.
  - apply (delimited_match (lit "\\(") (lit "\\)") "math_inline_latex") in H
      as (body & Hs & H0 & Hg & He & Hpre & Hend & _);
      [|discriminate|reflexivity].
    exists body. repeat split; try assumption.
    unfold parse_inline_math_latex, group_or_empty. now rewrite Hg, He.
Qed.

Lemma startswith_app_more (x y d : str) :
  startswith x d = true -> startswith (x ++ y) d = true.
Proof.
  unfold startswith. destruct (strip_prefix d x) as [r|] eqn:E; [|discriminate].
  apply strip_prefix_some in E. subst x. intros _.
  now rewrite <- app_assoc, strip_prefix_app.
Qed.

(** X2.  The closing delimiter of a match is the first one that can close:
    where the closing delimiter stands earlier, inside the body or
    overlapping its end, a backslash stands right before it. *)
Theorem delimiter_rules_shortest (src : str) (pos : nat) (m : Match)
    (b1 b2 : str) (c : ascii) :
  (match_at BLOCK_MATH_TEX src pos = Some m ->
   m_group m "math_block_tex" = Some (b1 ++ c :: b2) ->
   startswith (c :: b2 ++ lit "$$") (lit "$$") = true ->
   ends_with_backslash b1 = true) /\
  (match_at BLOCK_MATH_LATEX src pos = Some m ->
   m_group m "math_block_latex" = Some (b1 ++ c :: b2) ->
   startswith (c :: b2 ++ lit "\\]") (lit "\\]") = true ->
   ends_with_backslash b1 = true) /\
  (match_at INLINE_MATH_LATEX src pos = Some m ->
   m_group m "math_inline_latex" = Some (b1 ++ c :: b2) ->
   startswith (c :: b2 ++ lit "\\)") (lit "\\)") = true ->
   ends_with_backslash b1 = true).
Proof.
  assert (Hgen : forall opener closer name,
    opener <> [] -> ends_with_backslash opener = false ->
    match_at (Cat (NotBehind [backslash])
                (Cats (map Lit opener
                         ++ [Group name (LazyStar Dot)]
                         ++ [NotBehind [backslash]] ++ map Lit closer)))
      src pos = Some m ->
    m_group m name = Some (b1 ++ c :: b2) ->
    startswith (c :: b2 ++ closer) closer = true ->
    ends_with_backslash b1 = true).
  { intros opener closer name Hne Hop Hm Hg Hstart.
    apply delimited_match in Hm
      as (body & _ & _ & Hg' & _ & _ & _ & Hmin); [|assumption|assumption].
    rewrite Hg in Hg'. injection Hg' as <-.
    apply (Hmin b1 c b2 eq_refl).
    change (c :: b2 ++ closer ++ after (m_state m))
      with ((c :: b2) ++ closer ++ after (m_state m)).
    rewrite app_assoc. now apply startswith_app_more. }
  split; [|split]; intros Hm Hg Hstart.
  - now apply (Hgen (lit "$$") (lit "$$") "math_block_tex"%string).
  - now apply (Hgen (lit "\\[") (lit "\\]") "math_block_latex"%string).
  - now apply (Hgen (lit "\\(") (lit "\\)") "math_inline_latex"%string).
Qed.

Lemma delimiter_rules_sound_witness :
  exists body,
    skipn 2 (lit "a " ++ lit "$$" ++ lit "x\$$y" ++ lit "$$" ++ lit " b") =
      lit "$$" ++ body ++ lit "$$" ++ lit " b" /\
    m_0 (MkMatch 2 (MState (rev (lit "a $$x\$$y$$")) (lit " b")
                      [("math_block_tex"%string, lit "x\$$y")])) =
      lit "$$" ++ body ++ lit "$$" /\
    ends_with_backslash (firstn 2 (lit "a $$x\$$y$$ b")) = false /\
    ends_with_backslash body = false /\
    parse_block_math_tex Empty_set
      (MkMatch 2 (MState (rev (lit "a $$x\$$y$$")) (lit " b")
                    [("math_block_tex"%string, lit "x\$$y")])) [] =
      ([tok_block_math body], 2 + length (lit "$$" ++ body ++ lit "$$")).
Proof.
  apply (proj1 (delimiter_rules_sound (other := Empty_set)
                  (lit "a $$x\$$y$$ b") 2
                  (MkMatch 2 (MState (rev (lit "a $$x\$$y$$")) (lit " b")
                                [("math_block_tex"%string, lit "x\$$y")]))
                  [])).
  reflexivity.
Defined.

Lemma delimiter_rules_shortest_witness :
  ends_with_backslash (lit "x\") = true.
Proof.
  apply (proj1 (delimiter_rules_shortest (lit "a $$x\$$y$$ b") 2
                  (MkMatch 2 (MState (rev (lit "a $$x\$$y$$")) (lit " b")
                                [("math_block_tex"%string, lit "x\$$y")]))
                  (lit "x\") (lit "$y") dollar));
    reflexivity.
Defined.

(** ** Inline math *)

Lemma rules_at_inline_math_latex {other : Type}
    (inherited : str -> nat -> option (list (token other) * nat))
    (pre body post : str) :
  ends_with_backslash pre = false ->
  occurs (lit "\\)") (body ++ lit "\\") = false ->
  ends_with_backslash body = false ->
  exists f,
    rules_at other inherited (pre ++ (lit "\\(" ++ body ++ lit "\\)") ++ post)
      (length pre) = Some f /\
    forall tokens,
      f tokens = (tokens ++ [tok_inline_math body],
                  length (pre ++ lit "\\(" ++ body ++ lit "\\)")).
Proof.
  intros Hpre Hocc Hend.
  unfold rules_at, MATH_RULES. cbn [first_rule rule_pattern rule_method].
  unfold match_at. rewrite at_pos_app.
  replace ((lit "\\(" ++ body ++ lit "\\)") ++ post)
    with (lit "\\(" ++ body ++ lit "\\)" ++ post)
    by now rewrite <- !app_assoc.
  replace (exec BLOCK_MATH_TEX _ Some) with (@None mstate)
    by (symmetry; apply dollar_rules_need_dollar; [simpl; auto | reflexivity]).
  replace (exec BLOCK_MATH_LATEX _ Some) with (@None mstate)
    by (symmetry; apply block_math_latex_needs_bracket; reflexivity).
  replace (exec INLINE_MATH_TEX _ Some) with (@None mstate)
    by (symmetry; apply dollar_rules_need_dollar; [simpl; auto | reflexivity]).
  rewrite inline_math_latex_exec; [| | assumption | assumption].
  - eexists. split; [reflexivity|].
    intros tokens. unfold parse_inline_math_latex, group_or_empty, m_group,
      m_end, cursor.
    cbn [m_state groups before group_get String.eqb Ascii.eqb Bool.eqb].
    f_equal. rewrite !length_app, !length_rev, !length_app. lia.
  - now apply ends_with_backslash_rev.
Qed.

Lemma rules_at_inline_math_tex {other : Type}
    (inherited : str -> nat -> option (list (token other) * nat))
    (pre body post : str) :
  last_is_plain pre ->
  body <> [] ->
  forallb (fun c => negb (Ascii.eqb c dollar)) body = true ->
  ends_with_backslash body = false ->
  exists f,
    rules_at other inherited (pre ++ (lit "$" ++ body ++ lit "$") ++ post)
      (length pre) = Some f /\
    forall tokens,
      f tokens = (tokens ++ [tok_inline_math body],
                  length (pre ++ lit "$" ++ body ++ lit "$")).
Proof.
  intros Hpre Hne Hnd Hend.
  unfold rules_at, MATH_RULES. cbn [first_rule rule_pattern rule_method].
  unfold match_at. rewrite at_pos_app.
  replace ((lit "$" ++ body ++ lit "$") ++ post)
    with (lit "$" ++ body ++ lit "$" ++ post)
    by now rewrite <- !app_assoc.
  rewrite inline_math_tex_exec by assumption.
  destruct body as [|c1 body']; [congruence|].
  assert (Hc1 : Ascii.eqb dollar c1 = false).
  { cbn [forallb] in Hnd. apply andb_true_iff in Hnd as [Hc1 _].
    apply negb_true_iff in Hc1. now rewrite Ascii.eqb_sym. }
  replace (exec BLOCK_MATH_TEX _ Some) with (@None mstate)
    by (symmetry; now apply block_math_tex_needs_two).
  replace (exec BLOCK_MATH_LATEX _ Some) with (@None mstate)
    by (symmetry; apply bracket_rules_need_backslash;
        [simpl; auto | reflexivity]).
  eexists. split; [reflexivity|].
  intros tokens. unfold parse_inline_math_tex, group_or_empty, m_group,
    m_end, cursor.
  cbn [m_state groups before group_get String.eqb Ascii.eqb Bool.eqb].
  f_equal. rewrite !length_app, !length_rev, !length_app. lia.
Qed.

(** X3.  Inline math in [\\(] and [\\)], two backslashes each.  Let a text hold
    a span [\\(body\\)] whose closing [\\)] is the first one after the
    opening delimiter, with no backslash right before either delimiter.
    Whenever the cursor of the scan stands at the span, the round yields
    one [inline_math] token carrying the body and moves past the span;
    between plain stretches the tokens are the text before, the token, the
    text after.  The token is rendered in dollars: the escaped body
    between two [$]. *)
Theorem inline_math_latex_span {other : Type}
    (inherited : str -> nat -> option (list (token other) * nat))
    (tokens : list (token other)) (pre body post : str) :
  let span := lit "\\(" ++ body ++ lit "\\)" in
  let src := pre ++ span ++ post in
  occurs (lit "\\)") (body ++ lit "\\") = false ->
  ends_with_backslash body = false ->
  (ends_with_backslash pre = false ->
   round other inherited src (length pre) tokens =
     Some (tokens ++ [tok_inline_math body], length (pre ++ span))) /\
  (plain_text pre = true ->
   plain_text post = true ->
   (forall p, p < length pre -> inherited src p = None) ->
   (forall p, length (pre ++ span) <= p -> inherited src p = None) ->
   parse other inherited src =
     Some (text_hole pre ++ [tok_inline_math body] ++ text_hole post)) /\
  render_math_token (tok_inline_math (other := other) body) =
    Some (lit "$" ++ html_escape body ++ lit "$").
Proof.
  intros span src Hocc Hend. split; [|split; [|reflexivity]].
  - intros Hpre.
    destruct (rules_at_inline_math_latex inherited pre body post Hpre Hocc Hend)
      as (f & Hf & Hft).
    apply (round_here inherited src (length pre) _ tokens _ f Hf (Hft tokens)).
    rewrite length_app. unfold span. cbn [lit list_ascii_of_string app length].
    lia.
  - intros Hpre Hpost Hi1 Hi2.
    pose proof (plain_text_no_backslash pre Hpre) as Hpre'.
    destruct (rules_at_inline_math_latex inherited pre body post Hpre' Hocc
                Hend) as (f & Hf & Hft).
    apply (parse_single inherited pre span post (tok_inline_math body) f);
      try assumption.
    discriminate.
Qed.

Lemma inline_math_latex_span_witness :
  round Empty_set no_rule
    (lit "$1 " ++ (lit "\\(" ++ lit "\pi" ++ lit "\\)") ++ lit " $2") 3
    [tok_text (lit "$1 ")] =
    Some ([tok_text (lit "$1 "); tok_inline_math (lit "\pi")], 12) /\
  parse Empty_set no_rule
    (lit "so " ++ (lit "\\(" ++ lit "a<b" ++ lit "\\)") ++ lit ".") =
    Some [tok_text (lit "so "); tok_inline_math (lit "a<b");
          tok_text (lit ".")].
Proof.
  split.
  - apply (proj1 (inline_math_latex_span (other := Empty_set) no_rule
             [tok_text (lit "$1 ")] (lit "$1 ") (lit "\pi") (lit " $2")
             eq_refl eq_refl) eq_refl).
  - apply (proj1 (proj2 (inline_math_latex_span (other := Empty_set) no_rule
             [] (lit "so ") (lit "a<b") (lit ".") eq_refl eq_refl)));
      reflexivity.
Defined.

(** X4.  Inline math in dollars, the other way round than C2.  A span [$body$]
    whose body is not empty, holds no dollar and does not end with a
    backslash, behind a text that ends neither with a dollar nor with a
    backslash, is read as one [inline_math] token carrying the body,
    whenever the cursor of the scan stands at it; between plain stretches
    the tokens are the text before, the token, the text after. *)
Theorem inline_math_tex_span {other : Type}
    (inherited : str -> nat -> option (list (token other) * nat))
    (tokens : list (token other)) (pre body post : str) :
  let span := lit "$" ++ body ++ lit "$" in
  let src := pre ++ span ++ post in
  body <> [] ->
  forallb (fun c => negb (Ascii.eqb c dollar)) body = true ->
  ends_with_backslash body = false ->
  (last_is_plain pre ->
   round other inherited src (length pre) tokens =
     Some (tokens ++ [tok_inline_math body], length (pre ++ span))) /\
  (plain_text pre = true ->
   plain_text post = true ->
   (forall p, p < length pre -> inherited src p = None) ->
   (forall p, length (pre ++ span) <= p -> inherited src p = None) ->
   parse other inherited src =
     Some (text_hole pre ++ [tok_inline_math body] ++ text_hole post)).
Proof.
  intros span src Hne Hnd Hend. split.
  - intros Hpre.
    destruct (rules_at_inline_math_tex inherited pre body post Hpre Hne Hnd
                Hend) as (f & Hf & Hft).
    apply (round_here inherited src (length pre) _ tokens _ f Hf (Hft tokens)).
    rewrite length_app. unfold span. cbn [lit list_ascii_of_string app length].
    lia.
  - intros Hpre Hpost Hi1 Hi2.
    pose proof (plain_text_last pre Hpre) as Hpre'.
    destruct (rules_at_inline_math_tex inherited pre body post Hpre' Hne Hnd
                Hend) as (f & Hf & Hft).
    apply (parse_single inherited pre span post (tok_inline_math body) f);
      try assumption.
    discriminate.
Qed.

Lemma inline_math_tex_span_witness :
  parse Empty_set no_rule
    (lit "if " ++ (lit "$" ++ lit "\alpha < 1" ++ lit "$") ++ lit " then") =
    Some [tok_text (lit "if "); tok_inline_math (lit "\alpha < 1");
          tok_text (lit " then")].
Proof.
  apply (proj2 (inline_math_tex_span (other := Empty_set) no_rule []
                  (lit "if ") (lit "\alpha < 1") (lit " then")
                  ltac:(discriminate) eq_refl eq_refl));
    reflexivity.
Defined.

(** ** The scan ends *)

Lemma match_end_past (src : str) (pos : nat) (span rest : str)
    (g : list (string * str)) :
  skipn pos src = span ++ rest ->
  span <> [] ->
  pos < m_end (MkMatch pos (MState (rev span ++ rev (firstn pos src)) rest g)).
Proof.
  intros Hs Hne.
  assert (Hpos : length (firstn pos src) = pos).
  { apply firstn_length_le.
    destruct (Nat.le_gt_cases pos (length src)) as [Hle | Hgt]; [exact Hle|].
    rewrite skipn_all2 in Hs by lia.
    destruct span; [congruence | discriminate Hs]. }
  unfold m_end, cursor. cbn [m_state before].
  rewrite length_app, !length_rev, Hpos.
  destruct span; [congruence | cbn [length]; lia].
Qed.

(** Every math rule reads at least one character, and its method returns
    the end of the match. *)
Lemma first_rule_advances {other : Type} (src : str) (pos : nat) (m : Match)
    (h : handler other) (tokens : list (token other)) :
  first_rule other (MATH_RULES other) src pos = Some (m, h) ->
  pos < snd (h m tokens).
Proof.
  unfold MATH_RULES. cbn [first_rule rule_pattern rule_method].
  destruct (match_at BLOCK_MATH_TEX src pos) as [m1|] eqn:H1.
  { intros [= <- <-].
    apply (delimited_match (lit "$$") (lit "$$") "math_block_tex") in H1
      as (body & _ & _ & _ & He & _); [|discriminate|reflexivity].
    cbn [parse_block_math_tex snd]. rewrite He. cbn [length app lit
      list_ascii_of_string]. lia. }
  destruct (match_at BLOCK_MATH_LATEX src pos) as [m2|] eqn:H2.
  { intros [= <- <-].
    apply (delimited_match (lit "\\[") (lit "\\]") "math_block_latex") in H2
      as (body & _ & _ & _ & He & _); [|discriminate|reflexivity].
    cbn [parse_block_math_latex snd]. rewrite He. cbn [length app lit
      list_ascii_of_string]. lia. }
  destruct (match_at INLINE_MATH_TEX src pos) as [m3|] eqn:H3.
  { intros [= <- <-]. cbn [parse_inline_math_tex snd].
    unfold match_at, at_pos in H3.
    destruct (exec INLINE_MATH_TEX _ Some) as [out|] eqn:He; [|discriminate H3].
    injection H3 as <-.
    apply inline_math_tex_sound in He as (body & rest & _ & Ha & -> & _).
    apply match_end_past; [|discriminate].
    rewrite Ha. now rewrite <- !app_assoc. }
  destruct (match_at INLINE_MATH_LATEX src pos) as [m4|] eqn:H4.
  { intros [= <- <-].
    apply (delimited_match (lit "\\(") (lit "\\)") "math_inline_latex") in H4
      as (body & _ & _ & _ & He & _); [|discriminate|reflexivity].
    cbn [parse_inline_math_latex snd]. rewrite He. cbn [length app lit
      list_ascii_of_string]. lia. }
  destruct (match_at LATEX_ENVIRONMENT src pos) as [m5|] eqn:H5;
    [|discriminate].
  intros [= <- <-]. cbn [parse_latex_environment snd].
  unfold match_at, at_pos in H5.
  destruct (exec LATEX_ENVIRONMENT _ Some) as [out|] eqn:He; [|discriminate H5].
  injection H5 as <-.
  apply latex_environment_sound in He as (name & body & rest & _ & Ha & ->).
  apply match_end_past; [exact Ha | discriminate].
Qed.

Section Progress.
Context {other : Type}.
Variable inherited : str -> nat -> option (list (token other) * nat).
Variable src : str.

(** The rules of mistune move the cursor forward, or return no position. *)
Hypothesis inherited_advances :
  forall p toks e, inherited src p = Some (toks, e) -> e = 0 \/ p < e.

Lemma sc_search_from_found (n pos e : nat)
    (f : list (token other) -> list (token other) * nat) :
  sc_search_from other inherited src n pos = Some (e, f) ->
  pos <= e /\ rules_at other inherited src e = Some f.
Proof.
  revert pos. induction n as [|n IH]; intros pos; cbn [sc_search_from];
    destruct (rules_at other inherited src pos) as [f0|] eqn:Hr.
  - intros [= <- <-]. now split.
  - discriminate.
  - intros [= <- <-]. now split.
  - intros H. apply IH in H as [Hle Hf]. split; [lia | exact Hf].
Qed.

Lemma round_advances (pos pos' : nat) (tokens tokens' : list (token other)) :
  round other inherited src pos tokens = Some (tokens', pos') -> pos < pos'.
Proof.
  unfold round, sc_search.
  destruct (sc_search_from other inherited src (length src - pos) pos)
    as [[e f]|] eqn:Hs; [|discriminate].
  apply sc_search_from_found in Hs as [Hle Hf].
  set (tokens1 := if pos <? e then _ else _).
  destruct (f tokens1) as [tokens2 new_pos] eqn:Hft.
  destruct (new_pos =? 0) eqn:Hz.
  - intros [= _ <-]. lia.
  - intros [= _ <-]. apply Nat.eqb_neq in Hz.
    unfold rules_at in Hf.
    destruct (first_rule other (MATH_RULES other) src e) as [[m h]|] eqn:Hm.
    + injection Hf as <-.
      pose proof (first_rule_advances src e m h tokens1 Hm) as Hadv.
      rewrite Hft in Hadv. cbn [snd] in Hadv. lia.
    + destruct (inherited src e) as [[toks e']|] eqn:Hi; [|discriminate Hf].
      injection Hf as <-. injection Hft as _ <-.
      destruct (inherited_advances e toks e' Hi); lia.
Qed.

Lemma parse_loop_returns (fuel pos : nat) (tokens : list (token other)) :
  length src - pos <= fuel ->
  exists out, parse_loop other inherited fuel src pos tokens = Some out.
Proof.
  revert pos tokens. induction fuel as [|fuel IH]; intros pos tokens Hf;
    rewrite parse_loop_eq.
  - rewrite (proj2 (Nat.leb_le _ _)) by lia. now eexists.
  - destruct (length src <=? pos) eqn:Hle; [now eexists|].
    apply Nat.leb_gt in Hle.
    destruct (round other inherited src pos tokens) as [[tokens' pos']|] eqn:Hr;
      [|now eexists].
    apply round_advances in Hr. apply IH. lia.
Qed.

End Progress.

(** X5.  The scan comes to an end.  Every round moves the cursor forward: each
    math rule reads at least one character, and so does a rule of mistune
    that returns a position, while one that returns none moves the cursor
    by one character.  So [parse] returns its tokens for every text; with
    the math rules alone it always does. *)
Theorem parse_terminates {other : Type}
    (inherited : str -> nat -> option (list (token other) * nat))
    (src : str) :
  (forall p toks e, inherited src p = Some (toks, e) -> e = 0 \/ p < e) ->
  (forall pos pos' tokens tokens',
     round other inherited src pos tokens = Some (tokens', pos') ->
     pos < pos') /\
  (exists out, parse other inherited src = Some out) /\
  (exists out, parse other no_rule src = Some out).
Proof.
  intros Hadv. split; [|split].
  - intros pos pos' tokens tokens'. now apply round_advances.
  - apply parse_loop_returns; [exact Hadv | lia].
  - apply parse_loop_returns; [discriminate | lia].
Qed.

Lemma star_rule_advances (src : str) (p : nat) (toks : list (token unit))
    (e : nat) :
  star_rule src p = Some (toks, e) -> e = 0 \/ p < e.
Proof.
  unfold star_rule. destruct (skipn p src) as [|c s]; [discriminate|].
  destruct (Ascii.eqb c (chr "*")); [|discriminate].
  intros [= _ <-]. right. lia.
Qed.

Lemma parse_terminates_witness :
  exists out, parse unit star_rule (lit "2*$x$*3") = Some out.
Proof.
  apply (proj1 (proj2 (parse_terminates star_rule (lit "2*$x$*3")
                         (star_rule_advances (lit "2*$x$*3"))))).
Defined.

(** ** Plain text *)

(** X6.  A text without dollars and backslashes that no rule of mistune claims
    is one [text] token, the text itself: no math rule fires.  So is the
    empty text. *)
Theorem parse_plain_text {other : Type}
    (inherited : str -> nat -> option (list (token other) * nat))
    (src : str) :
  plain_text src = true ->
  (forall p, inherited src p = None) ->
  parse other inherited src = Some [tok_text src] /\
  parse other inherited [] = Some [tok_text []].
Proof.
  intros Hplain Hi. split; [|reflexivity].
  unfold parse. rewrite parse_loop_eq.
  destruct (length src <=? 0) eqn:Hle; [reflexivity|].
  pose proof (round_plain_tail inherited [] src [] Hplain) as Hr.
  cbn [app length] in Hr. rewrite Hr; [reflexivity|].
  intros p _. apply Hi.
Qed.

Lemma parse_plain_text_witness :
  parse Empty_set no_rule (lit "a < b & c") = Some [tok_text (lit "a < b & c")].
Proof.
  apply (proj1 (parse_plain_text (other := Empty_set) no_rule
                  (lit "a < b & c") eq_refl (fun p => eq_refl))).
Defined.

(** ** Block level and inline level agree on [$$] *)

Lemma twice_oneof_exec (c : ascii) (r : regex) (st : mstate)
    (k : mstate -> option mstate) :
  exec (Cat (Twice (OneOf [c])) r) st k =
  match strip_prefix [c; c] (after st) with
  | Some rest => exec r (MState (c :: c :: before st) rest (groups st)) k
  | None => None
  end.
Proof.
  unfold Twice. cbn [exec]. unfold one. cbn [mem existsb strip_prefix].
  destruct (after st) as [|x a]; [reflexivity|].
  rewrite orb_false_r, (Ascii.eqb_sym x c).
  destruct (Ascii.eqb c x) eqn:Ex; [|reflexivity].
  apply Ascii.eqb_eq in Ex. subst x. cbn [after before groups].
  destruct a as [|y a]; [reflexivity|].
  rewrite orb_false_r, (Ascii.eqb_sym y c).
  destruct (Ascii.eqb c y) eqn:Ey; [|reflexivity].
  apply Ascii.eqb_eq in Ey. now subst y.
Qed.

(** The closing part [(?<!\\)[$]{2}] of the block rule. *)
Lemma close_multiline_exec (body b rest : str) :
  exec (Cats [NotBehind [backslash]; Twice (OneOf [dollar])])
    (MState (rev body ++ rev (lit "$$") ++ b) rest []) Some =
  if ends_with_backslash (lit "$$" ++ body) then None
  else
    match strip_prefix (lit "$$") rest with
    | Some rest' =>
        Some (MState (rev (lit "$$") ++ rev body ++ rev (lit "$$") ++ b)
                rest' [])
    | None => None
    end.
Proof.
  cbn [Cats]. unfold ends_with_backslash. rewrite rev_app_distr.
  assert (Hx : exec (Cat (Twice (OneOf [dollar])) Eps)
                 (MState (rev body ++ rev (lit "$$") ++ b) rest []) Some =
               match strip_prefix (lit "$$") rest with
               | Some rest' =>
                   Some (MState (rev (lit "$$") ++ rev body
                                   ++ rev (lit "$$") ++ b) rest' [])
               | None => None
               end).
  { rewrite twice_oneof_exec. cbn [after before groups].
    change [dollar; dollar] with (lit "$$").
    now destruct (strip_prefix (lit "$$") rest). }
  cbn [exec before] in *.
  destruct (rev body ++ rev (lit "$$")) as [|c r] eqn:E.
  - apply app_eq_nil in E as [_ E]. discriminate E.
  - rewrite app_assoc, E. cbn [app mem existsb]. rewrite orb_false_r.
    destruct (Ascii.eqb c backslash); [reflexivity|].
    change (c :: r ++ b) with ((c :: r) ++ b).
    rewrite <- E, <- app_assoc. exact Hx.
Qed.

Lemma multiline_math_tex_first (b body rest : str) :
  match b with c :: _ => Ascii.eqb c backslash = false | [] => True end ->
  ends_with_backslash body = false ->
  (forall b1 c b2, body = b1 ++ c :: b2 ->
     startswith (c :: b2 ++ lit "$$" ++ rest) (lit "$$") = true ->
     ends_with_backslash b1 = true) ->
  exec MULTILINE_MATH (MState b (lit "$$" ++ body ++ lit "$$" ++ rest) [])
    Some =
  Some (MState (rev (lit "$$" ++ body ++ lit "$$") ++ b) rest []).
Proof.
  intros Hb Hend Hmin.
  assert (H1 : exec (Cats [NotBehind [backslash]; Twice (OneOf [dollar]);
                           LazyStar Dot; NotBehind [backslash];
                           Twice (OneOf [dollar])])
                 (MState b (lit "$$" ++ body ++ lit "$$" ++ rest) []) Some =
               Some (MState (rev (lit "$$" ++ body ++ lit "$$") ++ b) rest [])).
  { cbn [Cats]. rewrite exec_not_behind by now apply not_behind_backslash.
    rewrite twice_oneof_exec. cbn [after before groups].
    change [dollar; dollar] with (lit "$$"). rewrite strip_prefix_app.
    change (dollar :: dollar :: b) with (rev (lit "$$") ++ b).
    change (exec (Cat (LazyStar Dot)
                    (Cat (NotBehind [backslash])
                       (Cat (Twice (OneOf [dollar])) Eps)))
              (MState (rev (lit "$$") ++ b) (body ++ lit "$$" ++ rest) [])
              Some)
      with (lazy_loop (exec Dot)
              (fun st' =>
                 exec (Cats [NotBehind [backslash]; Twice (OneOf [dollar])])
                   st' Some)
              (length (body ++ lit "$$" ++ rest))
              (MState (rev (lit "$$") ++ b) (body ++ lit "$$" ++ rest) [])).
    apply lazy_dot_first; [reflexivity | |].
    - intros b1 c b2 Hsplit. rewrite close_multiline_exec.
      destruct (ends_with_backslash (lit "$$" ++ b1)) eqn:Hb1; [reflexivity|].
      destruct (strip_prefix (lit "$$") (c :: b2 ++ lit "$$" ++ rest)) eqn:Hs;
        [|reflexivity].
      assert (Hb1' : ends_with_backslash b1 = true).
      { apply (Hmin b1 c b2 Hsplit). unfold startswith. now rewrite Hs. }
      unfold ends_with_backslash in *. rewrite rev_app_distr in Hb1.
      destruct (rev b1) as [|x r]; [discriminate Hb1'|].
      cbn [app] in Hb1. congruence.
    - rewrite close_multiline_exec.
      rewrite (ends_with_backslash_app (lit "$$") body eq_refl Hend).
      rewrite strip_prefix_app.
      rewrite !rev_app_distr, <- !app_assoc. reflexivity. }
  unfold MULTILINE_MATH. cbn [exec]. cbn [exec] in H1. now rewrite H1.
Qed.

(** X7.  The block rule lets through what the inline rule for [$$] reads: where
    [block_math_tex] matches, [multiline_math] matches the same span from
    the same position, and hands it to the paragraph in one piece.  So no
    block rule of mistune gets to split a span that the inline scan would
    read as display math in dollars. *)
Theorem multiline_math_agrees_tex {other : Type} (state : BlockState other)
    (src : str) (pos : nat) (m : Match) :
  match_at BLOCK_MATH_TEX src pos = Some m ->
  exists m',
    match_at MULTILINE_MATH src pos = Some m' /\
    m_0 m' = m_0 m /\
    m_end m' = m_end m /\
    parse_multiline_math other m' state =
      (add_paragraph other state (m_0 m), m_end m).
Proof.
  intros H.
  pose proof H as H'.
  apply (delimited_match (lit "$$") (lit "$$") "math_block_tex") in H'
    as (body & Hs & H0 & _ & He & Hpre & Hend & Hmin);
    [|discriminate|reflexivity].
  assert (Hpos : length (firstn pos src) = pos).
  { apply firstn_length_le.
    destruct (Nat.le_gt_cases pos (length src)) as [Hle | Hgt]; [exact Hle|].
    rewrite skipn_all2 in Hs by lia. discriminate Hs. }
  set (span := lit "$$" ++ body ++ lit "$$") in *.
  set (m' := MkMatch pos (MState (rev span ++ rev (firstn pos src))
                            (after (m_state m)) [])).
  assert (Hm0 : m_0 m' = span).
  { apply (m_0_delimited pos (firstn pos src) span). now rewrite Hpos. }
  assert (Hme : m_end m' = m_end m).
  { rewrite He. unfold m', m_end, cursor. cbn [m_state before].
    rewrite length_app, !length_rev, Hpos. lia. }
  exists m'. split; [|split; [congruence|split; [exact Hme|]]].
  - unfold match_at, at_pos. rewrite Hs.
    rewrite multiline_math_tex_first; [reflexivity | | exact Hend | exact Hmin].
    unfold ends_with_backslash in Hpre.
    destruct (rev (firstn pos src)); [exact I | exact Hpre].
  - unfold parse_multiline_math. now rewrite Hm0, H0, Hme.
Qed.

Lemma multiline_math_agrees_tex_witness :
  exists m',
    match_at MULTILINE_MATH (lit "a $$x\$$y$$ b") 2 = Some m' /\
    m_0 m' = lit "$$x\$$y$$" /\
    m_end m' = 11 /\
    parse_multiline_math Empty_set m' (MkBlockState Empty_set [] [] 0) =
      (add_paragraph Empty_set (MkBlockState Empty_set [] [] 0)
         (lit "$$x\$$y$$"), 11).
Proof.
  apply (multiline_math_agrees_tex (MkBlockState Empty_set [] [] 0)
           (lit "a $$x\$$y$$ b") 2
           (MkMatch 2 (MState (rev (lit "a $$x\$$y$$")) (lit " b")
                         [("math_block_tex"%string, lit "x\$$y")]))).
  reflexivity.
Defined.

(** ** Paragraphs of math *)

Lemma add_paragraph_tokens_nonempty {other : Type}
    (tokens : list (block_token other)) (s : str) :
  add_paragraph_tokens other tokens s <> [].
Proof.
  destruct tokens as [|[t|t] [|b tokens]]; discriminate.
Qed.

Lemma add_paragraph_tokens_cons {other : Type} (b : block_token other)
    (tokens : list (block_token other)) (s : str) :
  tokens <> [] ->
  add_paragraph_tokens other (b :: tokens) s =
  b :: add_paragraph_tokens other tokens s.
Proof.
  destruct tokens as [|b' tokens]; [congruence|]. now destruct b.
Qed.

Lemma add_paragraph_tokens_twice {other : Type}
    (tokens : list (block_token other)) (s1 s2 : str) :
  add_paragraph_tokens other (add_paragraph_tokens other tokens s1) s2 =
  add_paragraph_tokens other tokens (s1 ++ s2).
Proof.
  induction tokens as [|b tokens IH]; [reflexivity|].
  destruct tokens as [|b' tokens].
  - destruct b as [t|t]; cbn [add_paragraph_tokens];
      [now rewrite app_assoc | reflexivity].
  - rewrite !(add_paragraph_tokens_cons b (b' :: tokens)) by discriminate.
    rewrite add_paragraph_tokens_cons by apply add_paragraph_tokens_nonempty.
    now rewrite IH.
Qed.

Lemma add_paragraph_tokens_length {other : Type}
    (tokens : list (block_token other)) (s : str) :
  length (add_paragraph_tokens other tokens s) =
  match rev tokens with
  | paragraph _ :: _ => length tokens
  | _ => S (length tokens)
  end.
Proof.
  induction tokens as [|b tokens IH]; [reflexivity|].
  destruct tokens as [|b' tokens].
  - now destruct b.
  - rewrite add_paragraph_tokens_cons by discriminate.
    cbn [length]. rewrite IH. cbn [rev].
    destruct (rev tokens ++ [b']) as [|x r] eqn:E.
    + now apply app_eq_nil in E as [_ E].
    + cbn [app]. now destruct x.
Qed.

(** X8.  Two matches of [multiline_math] one after the other end up in one
    paragraph, which holds their texts one after the other; and a match
    adds a token only when the last token is not a paragraph, extending
    that paragraph otherwise. *)
Theorem multiline_math_merges {other : Type} (state : BlockState other)
    (m1 m2 : Match) :
  fst (parse_multiline_math other m2
         (fst (parse_multiline_math other m1 state))) =
    add_paragraph other state (m_0 m1 ++ m_0 m2) /\
  length (bs_tokens other (fst (parse_multiline_math other m1 state))) =
    match rev (bs_tokens other state) with
    | paragraph _ :: _ => length (bs_tokens other state)
    | _ => S (length (bs_tokens other state))
    end.
Proof.
  unfold parse_multiline_math, add_paragraph. cbn [fst bs_tokens bs_src
    bs_cursor]. split.
  - now rewrite add_paragraph_tokens_twice.
  - apply add_paragraph_tokens_length.
Qed.

(** ** Escaping *)

Lemma replace_char_app (c : ascii) (by_ a b : str) :
  replace_char c by_ (a ++ b) = replace_char c by_ a ++ replace_char c by_ b.
Proof. unfold replace_char. apply flat_map_app. Qed.

Lemma html_escape_app (a b : str) :
  html_escape (a ++ b) = html_escape a ++ html_escape b.
Proof. unfold html_escape. now rewrite !replace_char_app. Qed.

Lemma html_escape_cons (c : ascii) (s : str) :
  html_escape (c :: s) =
  (if Ascii.eqb c (chr "&") then lit "&amp;"
   else if Ascii.eqb c (chr "<") then lit "&lt;"
   else if Ascii.eqb c (chr ">") then lit "&gt;"
   else [c]) ++ html_escape s.
Proof.
  change (c :: s) with ([c] ++ s). rewrite html_escape_app. f_equal.
  unfold html_escape, replace_char. cbn [flat_map app].
  destruct (Ascii.eqb c (chr "&")) eqn:Ha.
  - reflexivity.
  - cbn [flat_map app]. destruct (Ascii.eqb c (chr "<")) eqn:Hl.
    + reflexivity.
    + cbn [flat_map app]. destruct (Ascii.eqb c (chr ">")) eqn:Hg;
        reflexivity.
Qed.

Lemma well_escaped_no_angle (s : str) (c : ascii) :
  well_escaped s = true ->
  Ascii.eqb c (chr "<") || Ascii.eqb c (chr ">") = true ->
  ~ In c s.
Proof.
  intros Hw Hc. induction s as [|x s IH]; [intros []|].
  cbn [well_escaped] in Hw.
  destruct (Ascii.eqb x (chr "<") || Ascii.eqb x (chr ">")) eqn:Hx;
    [discriminate Hw|].
  intros [-> | Hin]; [congruence|].
  apply IH; [|exact Hin].
  destruct (Ascii.eqb x (chr "&")); [|exact Hw].
  now apply andb_true_iff in Hw.
Qed.

Lemma html_escape_well_escaped (s : str) : well_escaped (html_escape s) = true.
Proof.
  induction s as [|c s IH]; [reflexivity|].
  rewrite html_escape_cons.
  destruct (Ascii.eqb c (chr "&")) eqn:Ha; [exact IH|].
  destruct (Ascii.eqb c (chr "<")) eqn:Hl; [exact IH|].
  destruct (Ascii.eqb c (chr ">")) eqn:Hg; [exact IH|].
  cbn [app well_escaped]. now rewrite Hl, Hg, Ha.
Qed.

Ltac esc_case c :=
  destruct (Ascii.eqb c (chr "&")) eqn:?;
  [|destruct (Ascii.eqb c (chr "<")) eqn:?;
    [|destruct (Ascii.eqb c (chr ">")) eqn:?]].

Lemma html_escape_inj (a b : str) : html_escape a = html_escape b -> a = b.
Proof.
  revert b. induction a as [|x a IH]; intros [|y b] H.
  - reflexivity.
  - rewrite html_escape_cons in H.
    destruct (Ascii.eqb y (chr "&")); [discriminate H|].
    destruct (Ascii.eqb y (chr "<")); [discriminate H|].
    destruct (Ascii.eqb y (chr ">")); discriminate H.
  - rewrite html_escape_cons in H.
    destruct (Ascii.eqb x (chr "&")); [discriminate H|].
    destruct (Ascii.eqb x (chr "<")); [discriminate H|].
    destruct (Ascii.eqb x (chr ">")); discriminate H.
  - rewrite !html_escape_cons in H.
    esc_case x; esc_case y;
      repeat match goal with
             | E : Ascii.eqb _ _ = true |- _ => apply Ascii.eqb_eq in E
             | E : Ascii.eqb _ _ = false |- _ => apply Ascii.eqb_neq in E
             end;
      cbn [lit list_ascii_of_string app chr] in *;
      try discriminate H;
      injection H; intros; subst;
      first [congruence | f_equal; now apply IH].
Qed.

(** X9.  Escaped text is safe inside HTML: it holds no angle bracket, every
    ampersand in it opens one of the three entities, and escaping a text
    piece by piece gives the same as escaping it whole. *)
Theorem escape_html_safe (s t : str) :
  well_escaped (escape_html s) = true /\
  ~ In (chr "<") (escape_html s) /\
  ~ In (chr ">") (escape_html s) /\
  escape_html (s ++ t) = escape_html s ++ escape_html t.
Proof.
  unfold escape_html.
  pose proof (html_escape_well_escaped s) as Hw.
  repeat split.
  - exact Hw.
  - now apply well_escaped_no_angle.
  - now apply well_escaped_no_angle.
  - apply html_escape_app.
Qed.

(** X10.  Escaping loses nothing: two bodies with the same escaped text, the same
    [block_math] markup or the same [inline_math] markup are the same
    body. *)
Theorem math_rendering_injective (a b : str) :
  escape_html a = escape_html b \/
  block_math a = block_math b \/
  inline_math a = inline_math b ->
  a = b.
Proof.
  unfold block_math, inline_math, escape_html.
  intros [H | [H | H]].
  - now apply html_escape_inj.
  - apply app_inv_head in H. apply app_inv_tail in H.
    now apply html_escape_inj.
  - apply app_inv_head in H. apply app_inv_tail in H.
    now apply html_escape_inj.
Qed.

Lemma math_rendering_injective_witness :
  block_math (lit "a<b") = block_math (lit "a<b") /\ lit "a<b" = lit "a<b".
Proof.
  split; [reflexivity|].
  apply (math_rendering_injective (lit "a<b") (lit "a<b")).
  right; left; reflexivity.
Defined.

(** ** Whitespace *)

Ltac bytes :=
  unfold isspace, isspace2, isspace3, continuation in *; cbv zeta in *;
  repeat progress
    (rewrite ?andb_true_iff, ?orb_true_iff, ?andb_false_iff, ?orb_false_iff,
       ?Nat.eqb_eq, ?Nat.eqb_neq, ?Nat.leb_le, ?Nat.leb_gt in *);
  lia.

Lemma isspace_starts (c : ascii) : isspace c = true -> continuation c = false.
Proof. intros H. bytes. Qed.

Lemma isspace2_starts (c1 c2 : ascii) :
  isspace2 c1 c2 = true -> continuation c1 = false.
Proof. intros H. bytes. Qed.

Lemma isspace3_starts (c1 c2 c3 : ascii) :
  isspace3 c1 c2 c3 = true -> continuation c1 = false.
Proof. intros H. bytes. Qed.

Lemma isspace2_continues (c1 c2 : ascii) :
  isspace2 c1 c2 = true -> continuation c2 = true.
Proof. intros H. bytes. Qed.

Lemma isspace3_continues (c1 c2 c3 : ascii) :
  isspace3 c1 c2 c3 = true -> continuation c2 = true /\ continuation c3 = true.
Proof. intros H. bytes. Qed.

Lemma skip_space_starts (s r : str) :
  skip_space s = Some r -> starts_char s = true.
Proof.
  destruct s as [|c1 s1]; [discriminate|]. cbn [skip_space starts_char].
  destruct (isspace c1) eqn:H1.
  { intros _. now rewrite (isspace_starts c1 H1). }
  destruct s1 as [|c2 s2]; [discriminate|].
  destruct (isspace2 c1 c2) eqn:H2.
  { intros _. now rewrite (isspace2_starts c1 c2 H2). }
  destruct s2 as [|c3 s3]; [discriminate|].
  destruct (isspace3 c1 c2 c3) eqn:H3; [|discriminate].
  intros _. now rewrite (isspace3_starts c1 c2 c3 H3).
Qed.

(** No whitespace character ends in a text that starts a character. *)
Lemma skip_space_none_app (s t : str) :
  skip_space s = None -> s <> [] -> starts_char t = true ->
  skip_space (s ++ t) = None.
Proof.
  intros H Hs Ht. destruct s as [|c1 s1]; [congruence|]. clear Hs.
  cbn [skip_space app] in *.
  destruct (isspace c1) eqn:H1; [discriminate|].
  destruct s1 as [|c2 s2].
  { cbn [app]. destruct t as [|x t]; [reflexivity|].
    cbn [starts_char] in Ht. apply negb_true_iff in Ht.
    destruct (isspace2 c1 x) eqn:H2.
    { apply isspace2_continues in H2. congruence. }
    destruct t as [|y t]; [reflexivity|].
    destruct (isspace3 c1 x y) eqn:H3; [|reflexivity].
    apply isspace3_continues in H3 as [H3 _]. congruence. }
  cbn [app]. destruct (isspace2 c1 c2) eqn:H2; [discriminate|].
  destruct s2 as [|c3 s3].
  { cbn [app]. destruct t as [|x t]; [reflexivity|].
    cbn [starts_char] in Ht. apply negb_true_iff in Ht.
    destruct (isspace3 c1 c2 x) eqn:H3; [|reflexivity].
    apply isspace3_continues in H3 as [_ H3]. congruence. }
  cbn [app]. now destruct (isspace3 c1 c2 c3).
Qed.

Lemma all_space_lstrip (s : str) : all_space s = true <-> lstrip s = [].
Proof.
  induction s as [| s r H IH | s Hs H] using skip_space_ind.
  - now split.
  - now rewrite (all_space_some s r H), (lstrip_some s r H).
  - rewrite (all_space_none s Hs H), (lstrip_none s H). now split.
Qed.

Lemma all_space_starts (s : str) : all_space s = true -> starts_char s = true.
Proof.
  intros H. destruct s as [|c s'] eqn:E; [reflexivity|]. rewrite <- E in *.
  destruct (skip_space s) as [r|] eqn:Hs.
  - exact (skip_space_starts s r Hs).
  - rewrite all_space_none in H; [discriminate | subst s; discriminate | exact Hs].
Qed.

(** Whitespace before a text is dropped by [lstrip]. *)
Lemma lstrip_space_app (ws s : str) :
  all_space ws = true -> lstrip (ws ++ s) = lstrip s.
Proof.
  induction ws as [| ws r H IH | ws Hs H] using skip_space_ind; intros Hws.
  - reflexivity.
  - rewrite (lstrip_some _ _ (skip_space_app ws r s H)). apply IH.
    now rewrite <- (all_space_some ws r H).
  - rewrite (all_space_none ws Hs H) in Hws. discriminate.
Qed.

Lemma all_space_app (a b : str) :
  starts_char b = true -> all_space (a ++ b) = all_space a && all_space b.
Proof.
  intros Hb.
  induction a as [| a r H IH | a Ha H] using skip_space_ind.
  - reflexivity.
  - rewrite (all_space_some _ _ (skip_space_app a r b H)), IH.
    now rewrite (all_space_some a r H).
  - rewrite (all_space_none a Ha H). cbn [andb].
    apply all_space_none.
    + destruct a; [congruence | discriminate].
    + now apply skip_space_none_app.
Qed.

Lemma lstrip_app (a b : str) :
  starts_char b = true -> all_space a = false ->
  lstrip (a ++ b) = lstrip a ++ b.
Proof.
  intros Hb.
  induction a as [| a r H IH | a Ha H] using skip_space_ind; intros Hna.
  - discriminate.
  - rewrite (lstrip_some _ _ (skip_space_app a r b H)), (lstrip_some a r H).
    apply IH. now rewrite <- (all_space_some a r H).
  - rewrite (lstrip_none a H). apply lstrip_none.
    now apply skip_space_none_app.
Qed.

Lemma lstrip_idem (s : str) : lstrip (lstrip s) = lstrip s.
Proof. apply lstrip_none, lstrip_head. Qed.

(** ** [rstrip] *)

Lemma rstrip_nil (s : str) : rstrip s = [] <-> all_space s = true.
Proof.
  destruct s as [|c s']; [now split|]. cbn [rstrip].
  destruct (all_space (c :: s')); split; intros H; congruence.
Qed.

Lemma rstrip_decomp (s : str) :
  exists ws, s = rstrip s ++ ws /\ all_space ws = true.
Proof.
  induction s as [|c s IH]; [now exists []|].
  cbn [rstrip]. destruct (all_space (c :: s)) eqn:E.
  - now exists (c :: s).
  - destruct IH as (ws & Hs & Hws). exists ws. split; [|exact Hws].
    cbn [app]. now rewrite <- Hs.
Qed.

(** Whitespace after a text is dropped by [rstrip]. *)
Lemma rstrip_app_space (s ws : str) :
  all_space ws = true -> rstrip (s ++ ws) = rstrip s.
Proof.
  intros Hws. induction s as [|c s IH].
  - cbn [app]. now apply rstrip_nil.
  - cbn [app rstrip]. change (c :: s ++ ws) with ((c :: s) ++ ws).
    rewrite all_space_app by now apply all_space_starts.
    rewrite Hws, andb_true_r, IH. reflexivity.
Qed.

Lemma rstrip_all_space (s : str) : all_space (rstrip s) = all_space s.
Proof.
  destruct (rstrip_decomp s) as (ws & Hs & Hws).
  rewrite Hs at 2. rewrite all_space_app by now apply all_space_starts.
  now rewrite Hws, andb_true_r.
Qed.

Lemma rstrip_idem (s : str) : rstrip (rstrip s) = rstrip s.
Proof.
  destruct (rstrip_decomp s) as (ws & Hs & Hws).
  rewrite Hs at 2. now rewrite rstrip_app_space.
Qed.

(** What [rstrip] leaves of a text that does not start with whitespace does
    not start with whitespace. *)
Lemma rstrip_head (s : str) :
  skip_space s = None -> skip_space (rstrip s) = None.
Proof.
  intros H. destruct (rstrip_decomp s) as (ws & Hs & Hws).
  destruct (skip_space (rstrip s)) as [r|] eqn:E; [|reflexivity].
  rewrite Hs, (skip_space_app _ _ ws E) in H. discriminate.
Qed.

(** ** [strip] *)

Lemma strip_nil (s : str) : strip s = [] <-> all_space s = true.
Proof.
  unfold strip. rewrite rstrip_nil. rewrite !all_space_lstrip.
  now rewrite lstrip_idem.
Qed.

Lemma strip_head (s : str) : skip_space (strip s) = None.
Proof. apply rstrip_head, lstrip_head. Qed.

Lemma strip_all_space (s : str) : all_space (strip s) = all_space s.
Proof.
  unfold strip. rewrite rstrip_all_space.
  destruct (all_space s) eqn:E.
  - apply all_space_lstrip. rewrite lstrip_idem. now apply all_space_lstrip.
  - destruct (all_space (lstrip s)) eqn:E'; [|reflexivity].
    apply all_space_lstrip in E'. rewrite lstrip_idem in E'.
    apply all_space_lstrip in E'. congruence.
Qed.

(** Whitespace around a text does not change what [strip] leaves. *)
Lemma strip_around (ws s ws' : str) :
  all_space ws = true -> all_space ws' = true ->
  strip (ws ++ s ++ ws') = strip s.
Proof.
  intros Hws Hws'. unfold strip. rewrite (lstrip_space_app ws) by exact Hws.
  pose proof (all_space_starts ws' Hws') as Hst.
  destruct (all_space s) eqn:Hs.
  - assert (H : all_space (s ++ ws') = true)
      by (rewrite all_space_app by exact Hst; now rewrite Hs, Hws').
    apply all_space_lstrip in H, Hs. now rewrite H, Hs.
  - rewrite lstrip_app by assumption. now apply rstrip_app_space.
Qed.

Lemma strip_idem (s : str) : strip (strip s) = strip s.
Proof.
  unfold strip at 1. rewrite (lstrip_none _ (strip_head s)).
  unfold strip. apply rstrip_idem.
Qed.

(** ** Words *)

Lemma no_space_head (c : ascii) (s : str) :
  no_space (c :: s) = true -> skip_space (c :: s) = None.
Proof.
  cbn [no_space]. now destruct (skip_space (c :: s)).
Qed.

Lemma take_word_app (word tail : str) :
  no_space word = true ->
  match tail with [] => True | _ => skip_space tail <> None end ->
  take_word (word ++ tail) = word.
Proof.
  intros Hw Ht.
  assert (Hst : starts_char tail = true).
  { destruct tail as [|x tail]; [reflexivity|].
    destruct (skip_space (x :: tail)) as [r|] eqn:E; [|congruence].
    exact (skip_space_starts _ _ E). }
  induction word as [|c word IH].
  - cbn [app]. destruct tail as [|x tail]; [reflexivity|].
    cbn [take_word]. destruct (skip_space (x :: tail)); [reflexivity|congruence].
  - pose proof (no_space_head c word Hw) as Hc.
    cbn [app take_word]. change (c :: word ++ tail) with ((c :: word) ++ tail).
    rewrite skip_space_none_app by (try assumption; discriminate).
    f_equal. apply IH. cbn [no_space] in Hw. now rewrite Hc in Hw.
Qed.

(** Inside a word, and then past a whitespace character, [rstrip] keeps
    what it reads. *)
Lemma rstrip_word_app (word tail : str) :
  no_space word = true -> starts_char tail = true ->
  rstrip (word ++ tail) = word ++ rstrip tail.
Proof.
  intros Hw Hst. induction word as [|c word IH]; [reflexivity|].
  pose proof (no_space_head c word Hw) as Hc.
  cbn [app rstrip]. change (c :: word ++ tail) with ((c :: word) ++ tail).
  rewrite all_space_none;
    [| discriminate | now apply skip_space_none_app; try discriminate].
  f_equal. apply IH. cbn [no_space] in Hw. now rewrite Hc in Hw.
Qed.

(** What [rstrip] leaves of a text that starts with a whitespace character
    is empty or starts with that character. *)
Lemma rstrip_starts_space (tail : str) :
  skip_space tail <> None ->
  match rstrip tail with [] => True | t => skip_space t <> None end.
Proof.
  intros H. destruct (rstrip_decomp tail) as (ws & Ht & Hws).
  destruct (rstrip tail) as [|x t] eqn:E; [exact I|].
  intros Hn. apply H. rewrite Ht.
  apply skip_space_none_app;
    [exact Hn | discriminate | now apply all_space_starts].
Qed.

(** [info.strip().split(None, 1)[0]] drops the whitespace around the first
    word, and what follows the whitespace after it. *)
Lemma split_first_strip (ws word tail : str) :
  all_space ws = true ->
  word <> [] ->
  no_space word = true ->
  match tail with [] => True | _ => skip_space tail <> None end ->
  split_first (strip (ws ++ word ++ tail)) = Some word.
Proof.
  intros Hws Hne Hw Ht.
  assert (Hst : starts_char tail = true).
  { destruct tail as [|x tail]; [reflexivity|].
    destruct (skip_space (x :: tail)) as [r|] eqn:E; [|congruence].
    exact (skip_space_starts _ _ E). }
  destruct word as [|c word]; [congruence|].
  pose proof (no_space_head c word Hw) as Hc.
  assert (Hstrip : strip (ws ++ (c :: word) ++ tail)
                   = (c :: word) ++ rstrip tail).
  { unfold strip. rewrite lstrip_space_app by exact Hws.
    rewrite lstrip_none
      by (apply skip_space_none_app; try assumption; discriminate).
    now apply rstrip_word_app. }
  rewrite Hstrip.
  assert (Ht' : match rstrip tail with
                | [] => True
                | t => skip_space t <> None
                end).
  { destruct tail as [|x tail]; [exact I|]. now apply rstrip_starts_space. }
  assert (Hst' : starts_char (rstrip tail) = true).
  { destruct (rstrip tail) as [|x t] eqn:E; [reflexivity|].
    destruct (skip_space (x :: t)) as [r|] eqn:E'; [|congruence].
    exact (skip_space_starts _ _ E'). }
  unfold split_first.
  rewrite lstrip_none
    by (apply skip_space_none_app; try assumption; discriminate).
  cbn [app]. f_equal. change (c :: word ++ rstrip tail)
    with ((c :: word) ++ rstrip tail).
  apply take_word_app; [exact Hw|].
  destruct (rstrip tail); [exact I | exact Ht'].
Qed.

(** No whitespace character starts with a letter of [mermaid]. *)
Lemma skip_space_mermaid (x : ascii) (t : str) :
  In x (lit "mermaid") -> skip_space (x :: t) = None.
Proof.
  intros Hin. cbn [lit list_ascii_of_string In] in Hin.
  destruct t as [|c2 [|c3 t]];
    repeat (destruct Hin as [<- | Hin]; [reflexivity|]); destruct Hin.
Qed.

Lemma startswith_mermaid_space (s : str) :
  skip_space s <> None -> startswith s (lit "mermaid") = false.
Proof.
  intros Hs. destruct s as [|c s]; [reflexivity|].
  change (lit "mermaid") with (chr "m" :: lit "ermaid").
  rewrite startswith_cons.
  destruct (Ascii.eqb (chr "m") c) eqn:E; [|reflexivity].
  apply Ascii.eqb_eq in E. subst c. exfalso. apply Hs.
  apply skip_space_mermaid. now left.
Qed.

Lemma all_space_not_mermaid (ws s : str) :
  ws <> [] -> all_space ws = true ->
  startswith (ws ++ s) (lit "mermaid") = false.
Proof.
  intros Hne Hws. apply startswith_mermaid_space.
  destruct (skip_space ws) as [r|] eqn:E.
  - now rewrite (skip_space_app ws r s E).
  - rewrite (all_space_none ws Hne E) in Hws. discriminate.
Qed.

(** A prefix made of letters of [mermaid] is not looked for past the
    whitespace that follows a word. *)
Lemma startswith_space_cut (p word tail : str) :
  (forall x, In x p -> In x (lit "mermaid")) ->
  match tail with [] => True | _ => skip_space tail <> None end ->
  startswith (word ++ tail) p = startswith word p.
Proof.
  revert word. induction p as [|x p IH]; intros word Hp Ht; [reflexivity|].
  destruct word as [|c word].
  - cbn [app]. destruct tail as [|y tail]; [reflexivity|].
    rewrite startswith_cons.
    destruct (Ascii.eqb x y) eqn:Hxy; [|reflexivity].
    apply Ascii.eqb_eq in Hxy. subst y. exfalso. apply Ht.
    apply skip_space_mermaid, Hp. now left.
  - cbn [app]. rewrite !startswith_cons. f_equal. apply IH; [|exact Ht].
    intros y Hy. apply Hp. now right.
Qed.

(** ** Code blocks: the edges *)

Section CodeEdges.
Variable lexer : Type.
Variable get_lexer_by_name : str -> option lexer.
Variable highlight : str -> option lexer -> str.
Variable HTMLRenderer_block_code : str -> str.

Local Abbreviation block_code_ :=
  (block_code lexer get_lexer_by_name highlight HTMLRenderer_block_code).

(** What [block_code] does with the first word [lang] of the info text. *)
Lemma block_code_lang (code i lang : str) :
  startswith i (lit "mermaid") = false ->
  split_first (strip i) = Some lang ->
  block_code_ code (Some i) =
  match get_lexer_by_name lang with
  | Some lx => Ok (highlight code (Some lx))
  | None => Ok (HTMLRenderer_block_code (lang ++ [newline] ++ code))
  end.
Proof.
  intros Hm Hw.
  assert (Hi : truthy (Some i) = Some i).
  { destruct i; [discriminate Hw | reflexivity]. }
  pose proof (split_first_nonempty _ _ Hw) as Hne.
  unfold block_code. rewrite Hi, Hm, Hw.
  destruct (get_lexer_by_name lang); cbn [bind]; [|reflexivity].
  destruct lang; [congruence | reflexivity].
Qed.

(** X11.  Without an info text, or with an empty one, the code goes to the plain
    block of mistune as it is.  The one error [block_code] can raise is
    [IndexError], and it raises it exactly on an info text that is not
    empty and holds nothing but whitespace characters, those of ASCII and
    those of Unicode: stripping leaves no word for [[0]] to take. *)
Theorem block_code_errors (code : str) (info : option str) :
  block_code_ code None = Ok (HTMLRenderer_block_code code) /\
  block_code_ code (Some []) = Ok (HTMLRenderer_block_code code) /\
  (forall e, block_code_ code info = Raise e -> e = IndexError) /\
  (block_code_ code info = Raise IndexError <->
   exists i, info = Some i /\ i <> [] /\ all_space i = true).
Proof.
  split; [reflexivity|]. split; [reflexivity|].
  assert (Hcases :
    (exists out, block_code_ code info = Ok out /\
       ~ exists i, info = Some i /\ i <> [] /\ all_space i = true) \/
    (block_code_ code info = Raise IndexError /\
       exists i, info = Some i /\ i <> [] /\ all_space i = true)).
  { destruct info as [[|c i]|].
    - left. eexists. split; [reflexivity|]. intros (i & Hi & Hne & _).
      injection Hi as <-. congruence.
    - destruct (startswith (c :: i) (lit "mermaid")) eqn:Hm.
      + left. exists (block_mermaidjs code). split.
        * unfold block_code. cbn [truthy]. now rewrite Hm.
        * intros (i' & Hi & Hne & Hsp). injection Hi as <-.
          destruct (skip_space (c :: i)) as [r|] eqn:E.
          -- rewrite startswith_mermaid_space in Hm by congruence.
             discriminate.
          -- rewrite (all_space_none _ Hne E) in Hsp. discriminate.
      + destruct (strip (c :: i)) as [|x r] eqn:Hs.
        * right. split.
          -- unfold block_code. cbn [truthy]. now rewrite Hm, Hs.
          -- exists (c :: i). split; [reflexivity|]. split; [discriminate|].
             now apply strip_nil.
        * left.
          assert (Hw : split_first (strip (c :: i)) = Some (take_word (x :: r))).
          { unfold split_first. rewrite (lstrip_none _ (strip_head (c :: i))).
            now rewrite Hs. }
          rewrite (block_code_lang code (c :: i) _ Hm Hw).
          destruct (get_lexer_by_name (take_word (x :: r))); eexists;
            (split; [reflexivity|]);
            intros (i' & Hi & _ & Hsp); injection Hi as <-;
            apply strip_nil in Hsp; congruence.
    - left. eexists. split; [reflexivity|]. intros (i & Hi & _). discriminate. }
  split.
  - intros e He. destruct Hcases as [(out & Hout & _) | [Hr _]]; congruence.
  - split.
    + intros He. destruct Hcases as [(out & Hout & _) | [_ Hi]];
        [congruence | exact Hi].
    + intros Hi. destruct Hcases as [(out & _ & Hno) | [Hr _]];
        [contradiction | exact Hr].
Qed.

(** X12.  Only the first word of the info text counts: the whitespace before
    it and everything from the whitespace character after it are ignored,
    whether the whitespace is of ASCII or not.  Here [ws] is made of
    whitespace characters, no whitespace character starts in [word], and
    [tail] is empty or starts with one.  But an info text is taken for
    mermaid before it is stripped: behind whitespace, [mermaid] is looked up
    as a language like any other word. *)
Theorem block_code_first_word (code ws word tail : str) :
  all_space ws = true ->
  word <> [] ->
  no_space word = true ->
  match tail with [] => True | _ => skip_space tail <> None end ->
  (startswith word (lit "mermaid") = false ->
   block_code_ code (Some (ws ++ word ++ tail)) =
     block_code_ code (Some word)) /\
  (ws <> [] ->
   block_code_ code (Some (ws ++ word ++ tail)) =
     match get_lexer_by_name word with
     | Some lx => Ok (highlight code (Some lx))
     | None => Ok (HTMLRenderer_block_code (word ++ [newline] ++ code))
     end).
Proof.
  intros Hws Hne Hw Ht.
  pose proof (split_first_strip ws word tail Hws Hne Hw Ht) as Hfirst.
  pose proof (split_first_strip [] word [] eq_refl Hne Hw I) as Hword.
  cbn [app] in Hword. rewrite app_nil_r in Hword.
  split.
  - intros Hm.
    rewrite (block_code_lang code word word Hm Hword).
    apply block_code_lang; [|exact Hfirst].
    destruct ws as [|s ws].
    + cbn [app]. rewrite startswith_space_cut; auto.
    + now apply all_space_not_mermaid.
  - intros Hnws. apply block_code_lang; [|exact Hfirst].
    now apply all_space_not_mermaid.
Qed.

End CodeEdges.

Lemma block_code_errors_witness :
  block_code unit only_python mark_highlight plain_block
    (lit "x = 1") (Some (lit " " ++ no_break_space ++ em_space)) =
    Raise IndexError.
Proof.
  apply (proj2 (proj2 (proj2 (proj2
           (block_code_errors unit only_python mark_highlight plain_block
              (lit "x = 1") (Some (lit " " ++ no_break_space ++ em_space))))))).
  exists (lit " " ++ no_break_space ++ em_space).
  repeat split. discriminate.
Defined.

Lemma block_code_first_word_witness :
  block_code unit only_python mark_highlight plain_block
    (lit "x = 1")
    (Some (no_break_space ++ lit "python" ++ (em_space ++ lit "title"))) =
  block_code unit only_python mark_highlight plain_block
    (lit "x = 1") (Some (lit "python")) /\
  block_code unit only_python mark_highlight plain_block
    (lit "graph TD") (Some (lit " " ++ lit "mermaid" ++ [])) =
    Ok (plain_block (lit "mermaid" ++ [newline] ++ lit "graph TD")).
Proof.
  split.
  - apply (proj1 (block_code_first_word unit only_python mark_highlight
                    plain_block (lit "x = 1") no_break_space (lit "python")
                    (em_space ++ lit "title") eq_refl ltac:(discriminate)
                    eq_refl ltac:(vm_compute; discriminate))).
    reflexivity.
  - apply (proj2 (block_code_first_word unit only_python mark_highlight
                    plain_block (lit "graph TD") (lit " ") (lit "mermaid")
                    [] eq_refl ltac:(discriminate) eq_refl I)).
    discriminate.
Defined.

(** ** Mermaid blocks *)

(** X13.  Whitespace around the code of a mermaid block does not show in the
    output, whether it is of ASCII or not: the code is stripped before it is
    put in the container, and stripping it beforehand changes nothing. *)
Theorem block_mermaidjs_trims (ws code ws' : str) :
  all_space ws = true ->
  all_space ws' = true ->
  block_mermaidjs (ws ++ code ++ ws') = block_mermaidjs code /\
  block_mermaidjs (strip code) = block_mermaidjs code.
Proof.
  intros Hws Hws'. unfold block_mermaidjs.
  now rewrite strip_around, strip_idem.
Qed.

Lemma block_mermaidjs_trims_witness :
  block_mermaidjs ((newline :: no_break_space) ++ lit "graph TD"
                     ++ (em_space ++ [newline])) =
  block_mermaidjs (lit "graph TD").
Proof.
  apply (proj1 (block_mermaidjs_trims (newline :: no_break_space)
                  (lit "graph TD") (em_space ++ [newline]) eq_refl eq_refl)).
Defined.

(** ** Images: the errors *)

Lemma replace_char_removes (c : ascii) (s : str) :
  ~ In c (replace_char c [] s).
Proof.
  unfold replace_char. induction s as [|x s IH]; [intros []|].
  cbn [flat_map]. destruct (Ascii.eqb x c) eqn:E; cbn [app]; [exact IH|].
  intros [-> | Hin]; [|now apply IH].
  now rewrite Ascii.eqb_refl in E.
Qed.

Lemma replace_char_filter (c : ascii) (s : str) :
  replace_char c [] s = filter (fun x => negb (Ascii.eqb x c)) s.
Proof.
  unfold replace_char. induction s as [|x s IH]; [reflexivity|].
  cbn [flat_map filter]. rewrite IH. now destruct (Ascii.eqb x c).
Qed.

Section ImageEdges.
Variable HTMLRenderer_image : str -> str -> option str -> str.
Variable os_path_join : str -> str -> str.
Variable fs : str -> option node.
Variable guess_type : str -> option str.
Variable b64encode : str -> str.

Local Abbreviation image_ :=
  (image HTMLRenderer_image os_path_join fs guess_type b64encode).
Local Abbreviation _src_to_base64_ :=
  (_src_to_base64 os_path_join fs guess_type b64encode).

(** X14.  The errors of [image].  The lookup [attachment[mime_type]] never fails:
    [KeyError] is not raised.  [IndexError] is raised exactly for an
    attachment whose MIME mapping is empty, and [IsADirectoryError] exactly
    in embed-images mode for a URL, not an attachment, that names a
    directory under the base path; so it is with the other errors of
    [open] for a URL that names something unreadable. *)
Theorem image_errors (self : IPythonRenderer) (txt url : str)
    (title : option str) :
  image_ self txt url title <> Raise KeyError /\
  (image_ self txt url title = Raise IndexError <->
   exists name, url = attachment_prefix ++ name /\
                dict_get name (attachments self) = Some []) /\
  (image_ self txt url title = Raise IsADirectoryError <->
   startswith url attachment_prefix = false /\
   embed_images self = true /\
   fs (os_path_join (path self) url) = Some Directory) /\
  (image_ self txt url title = Raise OSError <->
   startswith url attachment_prefix = false /\
   embed_images self = true /\
   fs (os_path_join (path self) url) = Some Unreadable).
Proof.
  destruct (strip_prefix attachment_prefix url) as [name|] eqn:Hp.
  - pose proof (strip_prefix_some _ _ _ Hp) as Hurl.
    assert (Hsw : startswith url attachment_prefix = true).
    { unfold startswith. now rewrite Hp. }
    assert (Hname : forall name', url = attachment_prefix ++ name' ->
                                  name' = name).
    { intros name' E. rewrite E in Hurl. now apply app_inv_head in Hurl. }
    destruct (dict_get name (attachments self)) as [[|kv att]|] eqn:Hg.
    + assert (Hr : image_ self txt url title = Raise IndexError).
      { unfold image. now rewrite Hp, Hg. }
      rewrite Hr. split; [discriminate|]. split; [|split].
      * split; [|reflexivity]. intros _. now exists name.
      * split; [discriminate|]. intros [E _]. congruence.
      * split; [discriminate|]. intros [E _]. congruence.
    + destruct (image_attachment HTMLRenderer_image os_path_join fs
                  guess_type b64encode self txt name title (kv :: att) Hg)
        as (mime & data & _ & _ & Hr); [discriminate|].
      rewrite <- Hurl in Hr. rewrite Hr.
      split; [discriminate|]. split; [|split].
      * split; [discriminate|]. intros (name' & E & Hg').
        apply Hname in E. subst name'. congruence.
      * split; [discriminate|]. intros [E _]. congruence.
      * split; [discriminate|]. intros [E _]. congruence.
    + assert (Hr : image_ self txt url title =
                   Raise (InvalidNotebook (lit "missing attachment: " ++ name))).
      { unfold image. now rewrite Hp, Hg. }
      rewrite Hr. split; [discriminate|]. split; [|split].
      * split; [discriminate|]. intros (name' & E & Hg').
        apply Hname in E. subst name'. congruence.
      * split; [discriminate|]. intros [E _]. congruence.
      * split; [discriminate|]. intros [E _]. congruence.
  - assert (Hsw : startswith url attachment_prefix = false).
    { unfold startswith. now rewrite Hp. }
    assert (Hno : ~ exists name, url = attachment_prefix ++ name /\
                    dict_get name (attachments self) = Some []).
    { intros (name & E & _). subst url.
      rewrite strip_prefix_app in Hp. discriminate. }
    unfold image. rewrite Hp. destruct (embed_images self) eqn:He.
    + unfold _src_to_base64.
      destruct (fs (os_path_join (path self) url)) as [[content| |]|] eqn:Hf;
        cbn [bind]; (split; [discriminate|]);
        (split; [split; [discriminate | intros H; now destruct Hno]|]);
        split; split;
        first [ discriminate
              | reflexivity
              | intros _; repeat split; assumption
              | intros (_ & _ & E); discriminate E ].
    + split; [discriminate|]. split; [|split].
      * split; [discriminate | intros H; now destruct Hno].
      * split; [discriminate | intros (_ & E & _); discriminate].
      * split; [discriminate | intros (_ & E & _); discriminate].
Qed.

(** X15.  A data URL from [_src_to_base64] holds the base64 encoding of the
    content of the file, with its newlines left out and nothing else
    changed: it is one line, whatever the encoder puts in, and it is the
    encoding as it stands when that has no newline. *)
Theorem src_to_base64_one_line (self : IPythonRenderer) (src u : str) :
  _src_to_base64_ self src = Ok (Some u) ->
  exists content,
    let mime := format_optional (guess_type (os_path_join (path self) src)) in
    let data :=
      filter (fun c => negb (Ascii.eqb c newline)) (b64encode content) in
    fs (os_path_join (path self) src) = Some (File content) /\
    u = data_url mime data /\
    ~ In newline data /\
    (~ In newline (b64encode content) ->
     u = data_url mime (b64encode content)).
Proof.
  unfold _src_to_base64.
  destruct (fs (os_path_join (path self) src)) as [[content| |]|];
    [|discriminate|discriminate|discriminate].
  intros H. injection H as <-.
  exists content. cbv zeta. rewrite <- replace_char_filter.
  split; [reflexivity|]. split; [reflexivity|].
  split; [apply replace_char_removes|].
  intros Hn. unfold data_url. rewrite replace_char_absent; [reflexivity|].
  apply forallb_forall. intros x Hx. apply negb_true_iff.
  destruct (Ascii.eqb x newline) eqn:E; [|reflexivity].
  apply Ascii.eqb_eq in E. now subst x.
Qed.

End ImageEdges.

Lemma image_errors_witness :
  image show_url concat_path one_file_fs guess_png id_encode
    (MkRenderer false false pilcrow [] [(lit "fig1", [])])
    (lit "alt") (lit "attachment:fig1") None = Raise IndexError.
Proof.
  apply (proj1 (proj2 (image_errors show_url concat_path one_file_fs
                         guess_png id_encode
                         (MkRenderer false false pilcrow []
                            [(lit "fig1", [])])
                         (lit "alt") (lit "attachment:fig1") None))).
  exists (lit "fig1"). split; reflexivity.
Defined.

Lemma src_to_base64_one_line_witness :
  exists content,
    let mime :=
      format_optional (guess_png (concat_path (lit "figures/") (lit "plot"))) in
    let data :=
      filter (fun c => negb (Ascii.eqb c newline)) (lines_encode content) in
    one_file_fs (concat_path (lit "figures/") (lit "plot")) =
      Some (File content) /\
    lit "data:image/png;base64,abc" = data_url mime data /\
    ~ In newline data /\
    (~ In newline (lines_encode content) ->
     lit "data:image/png;base64,abc" = data_url mime (lines_encode content)).
Proof.
  apply (src_to_base64_one_line concat_path one_file_fs guess_png
           lines_encode
           (MkRenderer true false pilcrow (lit "figures/") [])
           (lit "plot") (lit "data:image/png;base64,abc")).
  reflexivity.
Defined.

(** ** Images in raw HTML *)

Lemma PageElement_nested_ind (P : PageElement -> Prop) :
  (forall s, P (NavigableString s)) ->
  (forall name a contents, Forall P contents -> P (Tag name a contents)) ->
  forall e, P e.
Proof.
  intros Hs Ht. fix IH 1. intros [s | name a contents]; [apply Hs|].
  apply Ht. induction contents as [|c cs IHcs]; constructor;
    [apply IH | exact IHcs].
Qed.

Lemma dict_remove_set {V : Type} (key : str) (v : V) (d : dict V) :
  dict_remove key (dict_set key v d) = dict_remove key d.
Proof.
  induction d as [|[k' v'] d IH].
  - cbn [dict_set dict_remove]. now rewrite str_eqb_refl.
  - cbn [dict_set dict_remove]. destruct (str_eqb k' key) eqn:E;
      cbn [dict_remove]; rewrite E; [reflexivity | now rewrite IH].
Qed.

Lemma mapM_ok_same {A : Type} (f : A -> result A) (l : list A) :
  Forall (fun x => f x = Ok x) l -> mapM f l = Ok l.
Proof.
  induction 1 as [|x l Hx _ IH]; [reflexivity|].
  cbn [mapM]. now rewrite Hx, IH.
Qed.

Lemma mapM_ok_map {A B : Type} (f : A -> result A) (g : A -> B)
    (l l' : list A) :
  Forall (fun x => forall y, f x = Ok y -> g y = g x) l ->
  mapM f l = Ok l' -> map g l' = map g l.
Proof.
  intros H. revert l'. induction H as [|x l Hx _ IH]; intros l' Hm.
  - cbn [mapM] in Hm. now injection Hm as <-.
  - cbn [mapM] in Hm. destruct (f x) as [y|] eqn:Hy; [|discriminate Hm].
    cbn [bind] in Hm. destruct (mapM f l) as [l''|]; [|discriminate Hm].
    cbn [bind] in Hm. injection Hm as <-. cbn [map].
    now rewrite (Hx y eq_refl), (IH l'' eq_refl).
Qed.

Section HtmlProperties.
Variable os_path_join : str -> str -> str.
Variable fs : str -> option node.
Variable guess_type : str -> option str.
Variable b64encode : str -> str.
Variable BeautifulSoup : str -> list PageElement.
Variable soup_str : list PageElement -> str.
Variable HTMLRenderer_block_html : str -> str.
Variable HTMLRenderer_inline_html : str -> str.
Variable self : IPythonRenderer.

Local Abbreviation embed_src_ :=
  (embed_src os_path_join fs guess_type b64encode self).
Local Abbreviation embed_images_in_ :=
  (embed_images_in os_path_join fs guess_type b64encode self).
Local Abbreviation _html_embed_images_ :=
  (_html_embed_images os_path_join fs guess_type b64encode BeautifulSoup
     soup_str self).
Local Abbreviation block_html_ :=
  (block_html os_path_join fs guess_type b64encode BeautifulSoup soup_str
     HTMLRenderer_block_html self).
Local Abbreviation inline_html_ :=
  (inline_html os_path_join fs guess_type b64encode BeautifulSoup soup_str
     HTMLRenderer_inline_html self).
Local Abbreviation at_path src := (fs (os_path_join (path self) src)).

Lemma embed_images_in_missing (e : PageElement) :
  (forall src, In src (img_srcs e) -> at_path src = None) ->
  embed_images_in_ e = Ok e.
Proof.
  induction e as [s | name a contents IH] using PageElement_nested_ind;
    intros Hsrc; [reflexivity|].
  cbn [embed_images_in img_srcs] in *.
  assert (Ha : (if str_eqb name (lit "img") then embed_src_ a else Ok a)
               = Ok a).
  { destruct (str_eqb name (lit "img")); [|reflexivity].
    unfold embed_src, _src_to_base64.
    destruct (dict_get (lit "src") a) as [src|]; [|reflexivity].
    rewrite (Hsrc src) by (apply in_or_app; left; now left). reflexivity. }
  rewrite Ha. cbn [bind].
  rewrite mapM_ok_same; [reflexivity|].
  rewrite Forall_forall in *. intros c Hc. apply IH; [exact Hc|].
  intros src Hin. apply Hsrc. apply in_or_app. right.
  apply in_flat_map. now exists c.
Qed.

(** X16.  In embed-images mode the raw HTML goes through [bs4] and back.  When no
    [img] tag of the document names something that exists under the base
    path, no attribute is touched: what mistune is given is the document as
    [bs4] prints it.  Outside embed-images mode the markup is handed on as
    it came, unparsed. *)
Theorem html_embed_nothing_found (html : str) :
  (forall src, In src (flat_map img_srcs (BeautifulSoup html)) ->
               at_path src = None) ->
  _html_embed_images_ html = Ok (soup_str (BeautifulSoup html)) /\
  block_html_ html =
    Ok (HTMLRenderer_block_html
          (if embed_images self then soup_str (BeautifulSoup html)
           else html)) /\
  inline_html_ html =
    Ok (HTMLRenderer_inline_html
          (if embed_images self then soup_str (BeautifulSoup html)
           else html)).
Proof.
  intros Hsrc.
  assert (H : _html_embed_images_ html = Ok (soup_str (BeautifulSoup html))).
  { unfold _html_embed_images. rewrite mapM_ok_same; [reflexivity|].
    rewrite Forall_forall. intros e He. apply embed_images_in_missing.
    intros src Hin. apply Hsrc. apply in_flat_map. now exists e. }
  split; [exact H|]. unfold block_html, inline_html.
  destruct (embed_images self); [rewrite H|]; now split.
Qed.

Lemma embed_src_forget (a a' : dict str) :
  embed_src_ a = Ok a' ->
  dict_remove (lit "src") a' = dict_remove (lit "src") a.
Proof.
  unfold embed_src. destruct (dict_get (lit "src") a) as [src|];
    [|now intros [= <-]].
  destruct (_src_to_base64 os_path_join fs guess_type b64encode self src)
    as [[u|]|]; cbn [bind]; intros H; [| |discriminate H];
    injection H as <-; [apply dict_remove_set | reflexivity].
Qed.

(** X17.  Embedding changes nothing but the [src] attributes of [img] tags: the
    tree [_html_embed_images] prints and the tree it parsed are the same
    once these attributes are left out. *)
Theorem html_embed_only_src (e e' : PageElement) :
  embed_images_in_ e = Ok e' -> forget_src e' = forget_src e.
Proof.
  revert e'.
  induction e as [s | name a contents IH] using PageElement_nested_ind;
    intros e' H.
  - cbn [embed_images_in] in H. now injection H as <-.
  - cbn [embed_images_in] in H.
    destruct (if str_eqb name (lit "img") then embed_src_ a else Ok a)
      as [a'|] eqn:Ha; [|discriminate H].
    cbn [bind] in H.
    destruct (mapM embed_images_in_ contents) as [contents'|] eqn:Hc;
      [|discriminate H].
    cbn [bind] in H. injection H as <-. cbn [forget_src].
    rewrite (mapM_ok_map _ forget_src contents contents' IH Hc).
    f_equal. destruct (str_eqb name (lit "img")).
    + now apply embed_src_forget.
    + now injection Ha as <-.
Qed.

Lemma first_refused_app (a b : list (option node)) :
  first_refused (a ++ b) =
  match first_refused a with
  | Some e => Some e
  | None => first_refused b
  end.
Proof.
  induction a as [|[[content| |]|] a IH]; cbn [app first_refused];
    first [reflexivity | exact IH].
Qed.

Lemma first_refused_none (nodes : list (option node)) :
  first_refused nodes = None <->
  ~ exists n, In n nodes /\ (n = Some Directory \/ n = Some Unreadable).
Proof.
  induction nodes as [|[[content| |]|] nodes IH]; cbn [first_refused].
  - split; [|reflexivity]. now intros _ (n & [] & _).
  - rewrite IH. split; intros H (n & Hin & Hn); apply H.
    + destruct Hin as [<- | Hin]; [destruct Hn; discriminate|]. now exists n.
    + exists n. split; [now right | exact Hn].
  - split; [discriminate|]. intros H. exfalso. apply H.
    exists (Some Directory). split; [now left | now left].
  - split; [discriminate|]. intros H. exfalso. apply H.
    exists (Some Unreadable). split; [now left | now right].
  - rewrite IH. split; intros H (n & Hin & Hn); apply H.
    + destruct Hin as [<- | Hin]; [destruct Hn; discriminate|]. now exists n.
    + exists n. split; [now right | exact Hn].
Qed.

Lemma first_refused_none_dec (nodes : list (option node)) :
  (exists n, In n nodes /\ (n = Some Directory \/ n = Some Unreadable)) \/
  ~ exists n, In n nodes /\ (n = Some Directory \/ n = Some Unreadable).
Proof.
  destruct (first_refused nodes) as [e|] eqn:E.
  - left. induction nodes as [|[[content| |]|] nodes IH];
      cbn [first_refused] in E; [discriminate| | | |].
    + destruct (IH E) as (n & Hin & Hn). exists n. split; [now right|exact Hn].
    + exists (Some Directory). split; [now left | now left].
    + exists (Some Unreadable). split; [now left | now right].
    + destruct (IH E) as (n & Hin & Hn). exists n. split; [now right|exact Hn].
  - right. now apply first_refused_none.
Qed.

Lemma first_refused_errors (nodes : list (option node)) (e : error) :
  first_refused nodes = Some e -> e = IsADirectoryError \/ e = OSError.
Proof.
  induction nodes as [|[[content| |]|] nodes IH]; cbn [first_refused];
    first [discriminate | exact IH | intros [= <-]; auto].
Qed.

(** What a traversal does, given what it does on each item: it stops at the
    first error. *)
Lemma mapM_first_refused {A : Type} (f : A -> result A)
    (srcs : A -> list str) (l : list A) :
  Forall (fun x => match first_refused (map (fun src => at_path src) (srcs x))
                   with
                   | Some e => f x = Raise e
                   | None => exists y, f x = Ok y
                   end) l ->
  match first_refused (map (fun src => at_path src) (flat_map srcs l)) with
  | Some e => mapM f l = Raise e
  | None => exists l', mapM f l = Ok l'
  end.
Proof.
  induction 1 as [|x l Hx _ IH]; [now exists []|].
  cbn [flat_map mapM]. rewrite map_app, first_refused_app.
  destruct (first_refused (map (fun src => at_path src) (srcs x))) as [e|].
  - now rewrite Hx.
  - destruct Hx as (y & ->). cbn [bind].
    destruct (first_refused (map (fun src => at_path src) (flat_map srcs l)))
      as [e|].
    + now rewrite IH.
    + destruct IH as (l' & ->). now exists (y :: l').
Qed.

Lemma embed_images_in_cases (e : PageElement) :
  match first_refused (map (fun src => at_path src) (img_srcs e)) with
  | Some err => embed_images_in_ e = Raise err
  | None => exists e', embed_images_in_ e = Ok e'
  end.
Proof.
  induction e as [s | name a contents IH] using PageElement_nested_ind;
    [now eexists|].
  cbn [embed_images_in img_srcs]. rewrite map_app, first_refused_app.
  pose proof (mapM_first_refused embed_images_in_ img_srcs contents IH) as Hc.
  destruct (str_eqb name (lit "img")).
  - unfold embed_src, _src_to_base64.
    destruct (dict_get (lit "src") a) as [src|]; cbn [map first_refused].
    + destruct (at_path src) as [[content| |]|]; cbn [bind];
        try reflexivity;
        (destruct (first_refused
                     (map (fun src => at_path src)
                        (flat_map img_srcs contents))) as [err|];
         [now rewrite Hc
         | destruct Hc as (l' & ->); now eexists]).
    + cbn [bind].
      destruct (first_refused
                  (map (fun src => at_path src) (flat_map img_srcs contents)))
        as [err|];
        [now rewrite Hc | destruct Hc as (l' & ->); now eexists].
  - cbn [map first_refused bind].
    destruct (first_refused
                (map (fun src => at_path src) (flat_map img_srcs contents)))
      as [err|];
      [now rewrite Hc | destruct Hc as (l' & ->); now eexists].
Qed.

(** X18.  The errors of [_html_embed_images] are those of reading the images:
    it raises exactly when some [img] tag of the document names, under the
    base path, a directory or something else that exists and cannot be
    read, and the error is that of the first such tag in document order,
    [IsADirectoryError] for a directory and the other error of [open]
    otherwise.  In embed-images mode [block_html] and [inline_html] raise
    with it, and outside that mode they do not raise. *)
Theorem html_embed_errors (html : str) (e : error) :
  let srcs := flat_map img_srcs (BeautifulSoup html) in
  let refused :=
    exists src, In src srcs /\
                (at_path src = Some Directory \/
                 at_path src = Some Unreadable) in
  (_html_embed_images_ html = Raise e <->
   first_refused (map (fun src => at_path src) srcs) = Some e) /\
  (_html_embed_images_ html = Raise e ->
   e = IsADirectoryError \/ e = OSError) /\
  ((exists e', _html_embed_images_ html = Raise e') <-> refused) /\
  (block_html_ html = Raise e <->
   embed_images self = true /\ _html_embed_images_ html = Raise e) /\
  (inline_html_ html = Raise e <->
   embed_images self = true /\ _html_embed_images_ html = Raise e).
Proof.
  intros srcs refused.
  assert (Hcases :
    match first_refused (map (fun src => at_path src) srcs) with
    | Some err => _html_embed_images_ html = Raise err
    | None => exists out, _html_embed_images_ html = Ok out
    end).
  { unfold _html_embed_images.
    pose proof (mapM_first_refused embed_images_in_ img_srcs
                  (BeautifulSoup html)) as H.
    fold srcs in H.
    destruct (first_refused (map (fun src => at_path src) srcs)) as [err|].
    - rewrite H; [reflexivity|].
      rewrite Forall_forall. intros x _. apply embed_images_in_cases.
    - destruct H as (l' & ->); [|now eexists].
      rewrite Forall_forall. intros x _. apply embed_images_in_cases. }
  assert (Hiff : _html_embed_images_ html = Raise e <->
                 first_refused (map (fun src => at_path src) srcs) = Some e).
  { destruct (first_refused (map (fun src => at_path src) srcs)) as [err|].
    - rewrite Hcases. split; intros [= ->]; reflexivity.
    - destruct Hcases as (out & ->). split; discriminate. }
  assert (Hrefused : (exists e', _html_embed_images_ html = Raise e')
                     <-> refused).
  { pose proof (first_refused_none (map (fun src => at_path src) srcs)) as Hn.
    assert (Hmap : (exists n, In n (map (fun src => at_path src) srcs) /\
                      (n = Some Directory \/ n = Some Unreadable))
                   <-> refused).
    { split.
      - intros (n & Hin & Hd). apply in_map_iff in Hin as (src & <- & Hin).
        now exists src.
      - intros (src & Hin & Hd). exists (at_path src).
        split; [|exact Hd]. apply in_map_iff. now exists src. }
    destruct (first_refused (map (fun src => at_path src) srcs)) as [err|].
    - split.
      + intros _. apply Hmap.
        destruct (first_refused_none_dec
                    (map (fun src => at_path src) srcs)) as [Hd | Hd];
          [exact Hd|].
        apply Hn in Hd. discriminate.
      + intros _. now exists err.
    - destruct Hcases as (out & Hout). split.
      + intros (e' & He'). congruence.
      + intros Hr. exfalso. apply (proj1 Hn eq_refl). now apply Hmap. }
  split; [exact Hiff|]. split.
  { intros He. apply Hiff in He. exact (first_refused_errors _ _ He). }
  split; [exact Hrefused|].
  unfold block_html, inline_html.
  destruct (embed_images self).
  - destruct (_html_embed_images_ html) as [out|err]; cbn [bind];
      split; (split; [intros H; now split | now intros [_ H]]).
  - split; (split; [discriminate | now intros [H _]]).
Qed.

End HtmlProperties.

Lemma html_embed_nothing_found_witness :
  block_html concat_path empty_fs no_guess id_encode one_image_soup
    show_srcs same_html (MkRenderer true false pilcrow (lit "figures/") [])
    (lit "<a href=plot><img alt=x src=plot>see</a>") = Ok (lit "plot").
Proof.
  apply (proj1 (proj2 (html_embed_nothing_found concat_path empty_fs
                         no_guess id_encode one_image_soup show_srcs
                         same_html same_html
                         (MkRenderer true false pilcrow (lit "figures/") [])
                         (lit "<a href=plot><img alt=x src=plot>see</a>")
                         (fun src _ => eq_refl)))).
Defined.

Lemma html_embed_only_src_witness :
  let img a := Tag (lit "img") a [] in
  forget_src (img [(lit "alt", lit "x");
                   (lit "src", lit "data:image/png;base64,abc")]) =
  forget_src (img [(lit "alt", lit "x"); (lit "src", lit "plot")]).
Proof.
  apply (html_embed_only_src concat_path one_file_fs guess_png id_encode
           (MkRenderer true false pilcrow (lit "figures/") [])).
  reflexivity.
Defined.

Lemma html_embed_errors_witness :
  _html_embed_images concat_path dir_fs no_guess id_encode one_image_soup
    show_srcs (MkRenderer true false pilcrow (lit "figures/") [])
    (lit "<a href=plot><img alt=x src=plot>see</a>") =
    Raise IsADirectoryError /\
  _html_embed_images concat_path locked_fs no_guess id_encode one_image_soup
    show_srcs (MkRenderer true false pilcrow (lit "figures/") [])
    (lit "<a href=plot><img alt=x src=plot>see</a>") = Raise OSError.
Proof.
  split.
  - apply (proj1 (html_embed_errors concat_path dir_fs no_guess
                    id_encode one_image_soup show_srcs same_html same_html
                    (MkRenderer true false pilcrow (lit "figures/") [])
                    (lit "<a href=plot><img alt=x src=plot>see</a>")
                    IsADirectoryError)).
    reflexivity.
  - apply (proj1 (html_embed_errors concat_path locked_fs no_guess
                    id_encode one_image_soup show_srcs same_html same_html
                    (MkRenderer true false pilcrow (lit "figures/") [])
                    (lit "<a href=plot><img alt=x src=plot>see</a>")
                    OSError)).
    reflexivity.
Defined.

(** ** [strip_dollars] *)

Lemma forallb_rev {A : Type} (f : A -> bool) (l : list A) :
  forallb f (rev l) = forallb f l.
Proof.
  induction l as [|x l IH]; [reflexivity|].
  cbn [rev forallb]. rewrite forallb_app, IH. cbn [forallb].
  rewrite andb_true_r. apply andb_comm.
Qed.

Lemma lstrip_chars_app_in (chars : list ascii) (a s : str) :
  forallb (fun c => mem c chars) a = true ->
  lstrip_chars chars (a ++ s) = lstrip_chars chars s.
Proof.
  induction a as [|c a IH]; [reflexivity|].
  cbn [forallb app lstrip_chars]. intros H.
  apply andb_true_iff in H as [-> H]. now apply IH.
Qed.

Lemma lstrip_chars_out (chars : list ascii) (c : ascii) (s : str) :
  mem c chars = false -> lstrip_chars chars (c :: s) = c :: s.
Proof. intros H. cbn [lstrip_chars]. now rewrite H. Qed.

Lemma lstrip_chars_all (chars : list ascii) (a : str) :
  forallb (fun c => mem c chars) a = true -> lstrip_chars chars a = [].
Proof.
  intros H. rewrite <- (app_nil_r a). now rewrite lstrip_chars_app_in.
Qed.

(** [text.strip(chars)] takes the characters of [chars] off both ends and
    nothing else. *)
Lemma strip_chars_spec (chars : list ascii) (a mid b : str) :
  forallb (fun c => mem c chars) a = true ->
  forallb (fun c => mem c chars) b = true ->
  match mid with c :: _ => mem c chars = false | [] => True end ->
  match rev mid with c :: _ => mem c chars = false | [] => True end ->
  strip_chars chars (a ++ mid ++ b) = mid.
Proof.
  intros Ha Hb Hfirst Hlast. unfold strip_chars.
  rewrite lstrip_chars_app_in by exact Ha.
  destruct mid as [|c mid].
  - cbn [app]. rewrite (lstrip_chars_all chars b) by exact Hb. reflexivity.
  - cbn [app]. rewrite lstrip_chars_out by exact Hfirst.
    change (c :: mid ++ b) with ((c :: mid) ++ b). rewrite rev_app_distr.
    rewrite lstrip_chars_app_in by now rewrite forallb_rev.
    destruct (rev (c :: mid)) as [|x r] eqn:Hr.
    + apply (f_equal (@rev ascii)) in Hr. rewrite rev_involutive in Hr.
      discriminate Hr.
    + rewrite lstrip_chars_out by exact Hlast.
      rewrite <- Hr. apply rev_involutive.
Qed.

Lemma lstrip_chars_decomp (chars : list ascii) (s : str) :
  exists a, s = a ++ lstrip_chars chars s /\
            forallb (fun c => mem c chars) a = true /\
            match lstrip_chars chars s with
            | c :: _ => mem c chars = false
            | [] => True
            end.
Proof.
  induction s as [|c s (a & IH & Ha & Hh)]; [now exists []|].
  cbn [lstrip_chars]. destruct (mem c chars) eqn:Hc.
  - exists (c :: a). cbn [app forallb]. rewrite Hc, Ha.
    repeat split; [now f_equal | exact Hh].
  - exists []. now repeat split.
Qed.

(** X20.  [strip_dollars] takes the dollars off both ends of the text, all of
    them, and leaves what is between as it is, inner dollars included:
    the text is dollars, the result, dollars, and the result neither
    starts nor ends with a dollar. *)
Theorem strip_dollars_ends (text : str) :
  exists a b,
    text = a ++ strip_dollars text ++ b /\
    forallb (Ascii.eqb dollar) a = true /\
    forallb (Ascii.eqb dollar) b = true /\
    match strip_dollars text with
    | c :: _ => Ascii.eqb c dollar = false
    | [] => True
    end /\
    match rev (strip_dollars text) with
    | c :: _ => Ascii.eqb c dollar = false
    | [] => True
    end.
Proof.
  assert (Hmem : forall c, mem c [dollar] = Ascii.eqb c dollar).
  { intros c. cbn [mem existsb]. apply orb_false_r. }
  assert (Hall : forall l, forallb (fun c => mem c [dollar]) l = true ->
                           forallb (Ascii.eqb dollar) l = true).
  { intros l H. rewrite forallb_forall in *. intros c Hc.
    specialize (H c Hc). rewrite Hmem in H. now rewrite Ascii.eqb_sym. }
  unfold strip_dollars, strip_chars.
  destruct (lstrip_chars_decomp [dollar] text) as (a & Htext & Ha & Hhead).
  set (m := lstrip_chars [dollar] text) in *.
  destruct (lstrip_chars_decomp [dollar] (rev m)) as (b & Hm & Hb & Hlast).
  set (r := lstrip_chars [dollar] (rev m)) in *.
  assert (Hm' : m = rev r ++ rev b).
  { rewrite <- rev_app_distr, <- Hm. now rewrite rev_involutive. }
  exists a, (rev b). split; [now rewrite <- Hm'|].
  split; [now apply Hall|]. split; [apply Hall; now rewrite forallb_rev|].
  split.
  - destruct (rev r) as [|c r'] eqn:Hr; [exact I|].
    rewrite Hm' in Hhead. cbn [app] in Hhead. now rewrite <- Hmem.
  - rewrite rev_involutive. destruct r as [|c r']; [exact I|].
    now rewrite <- Hmem.
Qed.

(** X21.  Conversely the result is the one middle of that kind.  So a [$$] span
    around a body that neither starts nor ends with a dollar is cut down
    to the body, whatever dollars the body holds inside. *)
Theorem strip_dollars_middle (a mid b : str) :
  forallb (Ascii.eqb dollar) a = true ->
  forallb (Ascii.eqb dollar) b = true ->
  match mid with c :: _ => Ascii.eqb c dollar = false | [] => True end ->
  match rev mid with c :: _ => Ascii.eqb c dollar = false | [] => True end ->
  strip_dollars (a ++ mid ++ b) = mid /\
  strip_dollars (strip_dollars (a ++ mid ++ b)) = mid.
Proof.
  assert (Hmem : forall c, mem c [dollar] = Ascii.eqb c dollar).
  { intros c. cbn [mem existsb]. apply orb_false_r. }
  assert (Hall : forall l, forallb (Ascii.eqb dollar) l = true ->
                           forallb (fun c => mem c [dollar]) l = true).
  { intros l H. rewrite forallb_forall in *. intros c Hc.
    specialize (H c Hc). rewrite Hmem. now rewrite Ascii.eqb_sym. }
  intros Ha Hb Hfirst Hlast.
  assert (Hf : match mid with c :: _ => mem c [dollar] = false | [] => True end).
  { destruct mid; [exact I | now rewrite Hmem]. }
  assert (Hl : match rev mid with c :: _ => mem c [dollar] = false
               | [] => True end).
  { destruct (rev mid); [exact I | now rewrite Hmem]. }
  assert (H1 : strip_dollars (a ++ mid ++ b) = mid).
  { unfold strip_dollars. apply strip_chars_spec; auto. }
  split; [exact H1|]. rewrite H1.
  unfold strip_dollars.
  rewrite <- (app_nil_r mid) at 1. change (mid ++ []) with ([] ++ mid ++ []).
  now apply strip_chars_spec.
Qed.

Lemma strip_dollars_middle_witness :
  strip_dollars (lit "$$" ++ lit "a$b" ++ lit "$") = lit "a$b".
Proof.
  apply (proj1 (strip_dollars_middle (lit "$$") (lit "a$b") (lit "$")
                  eq_refl eq_refl eq_refl eq_refl)).
Defined.

(** ** [rm_fake] *)

Lemma exec_Lits_k (s : string) (st : mstate) (k : mstate -> option mstate) :
  exec (Lits s) st k =
  match advance_over (lit s) st with
  | Some st' => k st'
  | None => None
  end.
Proof.
  unfold Lits, lit. revert st.
  induction s as [|c s IH]; intros st; [reflexivity|].
  cbn [list_ascii_of_string map Cats exec advance_over]. unfold one.
  destruct (after st) as [|x a]; [reflexivity|].
  destruct (Ascii.eqb c x); [apply IH | reflexivity].
Qed.

Lemma quote_not_f (c : ascii) :
  mem c [squote; dquote] = true -> Ascii.eqb "f"%char c = false.
Proof.
  intros H. destruct (Ascii.eqb "f"%char c) eqn:E; [|reflexivity].
  apply Ascii.eqb_eq in E. subst c. discriminate H.
Qed.

Lemma files_url_tail_exec (attr b r : str) (g : list (string * str)) :
  exec (Cats [Lit (chr "="); Group "2" (Opt (OneOf [squote; dquote]));
              Lits "files/"]) (MState b r g) Some =
  match files_url_tail attr r with
  | Some (_, q, rest) =>
      Some (MState (rev (lit "=" ++ q ++ lit "files/") ++ b) rest
              (("2"%string, q) :: g))
  | None => None
  end.
Proof.
  exec_simpl. unfold one. cbn [after before groups].
  destruct r as [|x r]; [reflexivity|].
  unfold files_url_tail.
  change (strip_prefix (lit "=") (x :: r))
    with (if Ascii.eqb "=" x then Some r else None).
  destruct (Ascii.eqb "=" x) eqn:Ex; [|reflexivity].
  apply Ascii.eqb_eq in Ex. subst x.
  assert (Hfiles : forall b' r' q,
    exec (Lits "files/") (MState b' r' (("2"%string, q) :: g))
      (fun st0 => Some st0) =
    match strip_prefix (lit "files/") r' with
    | Some rest => Some (MState (rev (lit "files/") ++ b') rest
                           (("2"%string, q) :: g))
    | None => None
    end).
  { intros b' r' q. rewrite exec_Lits_k, advance_over_strip.
    cbn [after before groups]. now destruct (strip_prefix (lit "files/") r'). }
  assert (Hcap0 : forall b' a',
    captured (MState b' a' g) (MState b' a' g) = []).
  { intros b' a'. apply (captured_app b' a' a' [] g g). }
  assert (Hcap1 : forall b' c a',
    captured (MState b' (c :: a') g) (MState (c :: b') a' g) = [c]).
  { intros b' c a'. apply (captured_app b' (c :: a') a' [c] g g). }
  destruct r as [|c r'].
  - rewrite Hcap0. now rewrite Hfiles.
  - cbn [after before groups].
    change ((c =? squote)%char || ((c =? dquote)%char || false))
      with (mem c [squote; dquote]).
    rewrite Hcap0.
    destruct (mem c [squote; dquote]) eqn:Hq.
    + rewrite Hcap1.
      rewrite !Hfiles.
      assert (Hno : strip_prefix (lit "files/") (c :: r') = None).
      { change (strip_prefix (lit "files/") (c :: r'))
          with (if Ascii.eqb "f" c then strip_prefix (lit "iles/") r'
                else None).
        now rewrite (quote_not_f c Hq). }
      rewrite Hno.
      destruct (strip_prefix (lit "files/") r') as [rest|]; [|reflexivity].
      reflexivity.
    + rewrite Hfiles.
      destruct (strip_prefix (lit "files/") (c :: r')) as [rest|];
        [|reflexivity].
      reflexivity.
Qed.

Lemma files_url_tail_attr (attr r attr' q rest : str) :
  files_url_tail attr r = Some (attr', q, rest) ->
  attr' = attr /\ r = lit "=" ++ q ++ lit "files/" ++ rest.
Proof.
  unfold files_url_tail.
  destruct (strip_prefix (lit "=") r) as [r1|] eqn:H1; [|discriminate].
  apply strip_prefix_some in H1. subst r.
  destruct r1 as [|c r'].
  - destruct (strip_prefix (lit "files/") []) as [rest'|] eqn:H2;
      [|discriminate].
    apply strip_prefix_some in H2. intros [= <- <- <-]. now rewrite H2.
  - destruct (mem c [squote; dquote]).
    + destruct (strip_prefix (lit "files/") r') as [rest'|] eqn:H2;
        [|discriminate].
      apply strip_prefix_some in H2. intros [= <- <- <-]. now rewrite H2.
    + destruct (strip_prefix (lit "files/") (c :: r')) as [rest'|] eqn:H2;
        [|discriminate].
      apply strip_prefix_some in H2. intros [= <- <- <-]. now rewrite H2.
Qed.

Lemma files_url_head_text (s attr q rest : str) :
  files_url_head s = Some (attr, q, rest) ->
  s = attr ++ lit "=" ++ q ++ lit "files/" ++ rest /\
  (attr = lit "src" \/ attr = lit "href") /\
  (q = [] \/ q = [squote] \/ q = [dquote]).
Proof.
  assert (Hq : forall attr0 r, files_url_tail attr0 r = Some (attr, q, rest) ->
                               q = [] \/ q = [squote] \/ q = [dquote]).
  { unfold files_url_tail. intros attr0 r.
    destruct (strip_prefix (lit "=") r) as [r1|]; [|discriminate].
    destruct r1 as [|c r'].
    - destruct (strip_prefix (lit "files/") []); [|discriminate].
      intros [= _ <- _]. now left.
    - destruct (mem c [squote; dquote]) eqn:Hc.
      + destruct (strip_prefix (lit "files/") r'); [|discriminate].
        intros [= _ <- _]. right. cbn [mem existsb] in Hc.
        apply orb_true_iff in Hc as [Hc | Hc].
        * apply Ascii.eqb_eq in Hc. subst c. now left.
        * rewrite orb_false_r in Hc. apply Ascii.eqb_eq in Hc. subst c.
          now right.
      + destruct (strip_prefix (lit "files/") (c :: r')); [|discriminate].
        intros [= _ <- _]. now left. }
  unfold files_url_head.
  destruct (strip_prefix (lit "src") s) as [r|] eqn:Hs.
  - intros H. pose proof (Hq _ _ H) as Hq'.
    apply files_url_tail_attr in H as [-> ->].
    apply strip_prefix_some in Hs. split; [exact Hs|]. split; [now left|].
    exact Hq'.
  - destruct (strip_prefix (lit "href") s) as [r|] eqn:Hh; [|discriminate].
    intros H. pose proof (Hq _ _ H) as Hq'.
    apply files_url_tail_attr in H as [-> ->].
    apply strip_prefix_some in Hh. split; [exact Hh|]. split; [now right|].
    exact Hq'.
Qed.

Lemma files_url_exec (b a : str) :
  exec files_url_pattern (MState b a []) Some =
  match files_url_head a with
  | Some (attr, q, rest) =>
      Some (MState (rev (attr ++ lit "=" ++ q ++ lit "files/") ++ b) rest
              [("2"%string, q); ("1"%string, attr)])
  | None => None
  end.
Proof.
  change files_url_pattern
    with (Cat (Group "1" (Or (Lits "src") (Lits "href")))
            (Cats [Lit (chr "="); Group "2" (Opt (OneOf [squote; dquote]));
                   Lits "files/"])).
  cbn [exec]. rewrite !exec_Lits_k, !advance_over_strip.
  cbn [after before groups]. unfold files_url_head.
  assert (Hout : forall attr r,
    exec (Cats [Lit (chr "="); Group "2" (Opt (OneOf [squote; dquote]));
                Lits "files/"])
      (MState (rev attr ++ b) r
         [("1"%string,
           captured (MState b a []) (MState (rev attr ++ b) r []))]) Some =
    match files_url_tail attr r with
    | Some (attr', q, rest) =>
        Some (MState (rev (attr' ++ lit "=" ++ q ++ lit "files/") ++ b) rest
                [("2"%string, q); ("1"%string, attr')])
    | None => None
    end).
  { intros attr r. rewrite captured_app, (files_url_tail_exec attr).
    destruct (files_url_tail attr r) as [[[attr' q] rest]|] eqn:Ht;
      [|reflexivity].
    apply files_url_tail_attr in Ht as [-> _].
    rewrite (rev_app_distr attr), <- app_assoc. reflexivity. }
  destruct (strip_prefix (lit "src") a) as [r|] eqn:Hs.
  - cbn [after before groups]. rewrite Hout.
    destruct (files_url_tail (lit "src") r) as [[[attr' q] rest]|];
      [reflexivity|].
    apply strip_prefix_some in Hs. subst a. reflexivity.
  - destruct (strip_prefix (lit "href") a) as [r|] eqn:Hh; [|reflexivity].
    cbn [after before groups]. apply Hout.
Qed.

(** Where [files_url_pattern] matches depends on the text from there on
    alone. *)
Lemma files_url_match_at (src : str) (pos : nat) :
  match_at files_url_pattern src pos =
  match files_url_head (skipn pos src) with
  | Some (attr, q, rest) =>
      Some (MkMatch pos
              (MState (rev (attr ++ lit "=" ++ q ++ lit "files/")
                         ++ rev (firstn pos src)) rest
                 [("2"%string, q); ("1"%string, attr)]))
  | None => None
  end.
Proof.
  unfold match_at, at_pos. rewrite files_url_exec.
  now destruct (files_url_head (skipn pos src)) as [[[attr q] rest]|].
Qed.

Lemma files_url_head_nil : files_url_head [] = None.
Proof. reflexivity. Qed.

Lemma rm_fake_repl_groups (start : nat) (b a attr q : str) :
  rm_fake_repl
    (MkMatch start (MState b a [("2"%string, q); ("1"%string, attr)])) =
  attr ++ lit "=" ++ q.
Proof. reflexivity. Qed.

(** A search in a text from [pos] on and the search in the text after
    [pos] find the same match, [pos] characters apart. *)
Lemma files_url_search_shift (src : str) (pos n k : nat) :
  match search_from files_url_pattern src n (pos + k),
        search_from files_url_pattern (skipn pos src) n k with
  | Some m, Some m' =>
      m_start m = pos + m_start m' /\
      m_end m = pos + m_end m' /\
      rm_fake_repl m = rm_fake_repl m' /\
      k <= m_start m' /\
      m_start m' < m_end m' /\
      pos + m_end m' <= length src
  | None, None => True
  | _, _ => False
  end.
Proof.
  revert k. induction n as [|n IH]; intros k.
  - cbn [search_from]. rewrite !files_url_match_at, skipn_skipn.
    rewrite (Nat.add_comm k pos).
    destruct (files_url_head (skipn (pos + k) src)) as [[[attr q] rest]|]
      eqn:Hh; [|exact I].
    apply files_url_head_text in Hh as (Hs & _ & _).
    assert (Hlen : length (skipn (pos + k) src) =
                   length (attr ++ lit "=" ++ q ++ lit "files/") + length rest).
    { rewrite Hs, !length_app. cbn [lit list_ascii_of_string length]. lia. }
    rewrite length_skipn in Hlen.
    unfold m_end, cursor. cbn [m_start m_state before].
    rewrite !rm_fake_repl_groups, !length_app, !length_rev, !length_firstn.
    rewrite length_skipn, !length_app. rewrite !length_app in Hlen.
    cbn [lit list_ascii_of_string length] in *.
    repeat split; try reflexivity; lia.
  - cbn [search_from]. rewrite !files_url_match_at, skipn_skipn.
    rewrite (Nat.add_comm k pos).
    destruct (files_url_head (skipn (pos + k) src)) as [[[attr q] rest]|]
      eqn:Hh.
    + apply files_url_head_text in Hh as (Hs & _ & _).
      assert (Hlen : length (skipn (pos + k) src) =
                     length (attr ++ lit "=" ++ q ++ lit "files/")
                     + length rest).
      { rewrite Hs, !length_app. cbn [lit list_ascii_of_string length]. lia. }
      rewrite length_skipn in Hlen.
      unfold m_end, cursor. cbn [m_start m_state before].
      rewrite !rm_fake_repl_groups, !length_app, !length_rev, !length_firstn.
      rewrite length_skipn, !length_app. rewrite !length_app in Hlen.
      cbn [lit list_ascii_of_string length] in *.
      repeat split; try reflexivity; lia.
    + specialize (IH (S k)). rewrite Nat.add_succ_r in IH.
      destruct (search_from files_url_pattern src n (S (pos + k))) as [m|];
        destruct (search_from files_url_pattern (skipn pos src) n (S k))
          as [m'|]; try exact IH.
      destruct IH as (H1 & H2 & H3 & H4 & H5 & H6). repeat split; lia || auto.
Qed.

Lemma sub_from_S (r : regex) (repl : Match -> str) (src : str)
    (fuel pos : nat) :
  sub_from r repl src (S fuel) pos =
  match search r src pos with
  | None => skipn pos src
  | Some m =>
      slice src pos (m_start m) ++ repl m
        ++ sub_from r repl src fuel (m_end m)
  end.
Proof. reflexivity. Qed.

Lemma sub_from_shift (n : nat) :
  forall (src : str) (pos fuel fuel' : nat),
    length src - pos <= n -> n <= fuel -> n <= fuel' ->
    sub_from files_url_pattern rm_fake_repl src fuel pos =
    sub_from files_url_pattern rm_fake_repl (skipn pos src) fuel' 0.
Proof.
  induction n as [|n IH]; intros src pos fuel fuel' Hn Hf Hf'.
  - assert (Hnil : skipn pos src = []) by (apply skipn_all2; lia).
    assert (Hs : search files_url_pattern src pos = None).
    { unfold search. replace (length src - pos) with 0 by lia.
      cbn [search_from]. rewrite files_url_match_at, Hnil. reflexivity. }
    rewrite Hnil.
    destruct fuel, fuel'; cbn [sub_from]; rewrite ?Hs, ?Hnil; reflexivity.
  - destruct fuel as [|f]; [lia|]. destruct fuel' as [|f']; [lia|].
    cbn [sub_from]. unfold search.
    pose proof (files_url_search_shift src pos (length src - pos) 0) as H.
    rewrite Nat.add_0_r in H. rewrite length_skipn, Nat.sub_0_r.
    destruct (search_from files_url_pattern src (length src - pos) pos)
      as [m|];
      destruct (search_from files_url_pattern (skipn pos src)
                  (length src - pos) 0) as [m'|]; try contradiction.
    + destruct H as (H1 & H2 & H3 & _ & H5 & H6).
      rewrite H3. unfold slice. rewrite H1, Nat.sub_0_r. cbn [skipn].
      replace (pos + m_start m' - pos) with (m_start m') by lia.
      f_equal. f_equal.
      rewrite (IH src (m_end m) f n) by lia.
      rewrite (IH (skipn pos src) (m_end m') f' n)
        by (rewrite ?length_skipn; lia).
      rewrite skipn_skipn, H2. now rewrite (Nat.add_comm (m_end m') pos).
    + reflexivity.
Qed.

Lemma occurs_app (d a b : str) : occurs d (a ++ d ++ b) = true.
Proof.
  induction a as [|c a IH].
  - cbn [app]. destruct (d ++ b) eqn:E; cbn [occurs];
      rewrite <- E; unfold startswith; rewrite strip_prefix_app; reflexivity.
  - cbn [app occurs]. rewrite IH. apply orb_true_r.
Qed.

Lemma rm_fake_equations (c : ascii) (s attr q rest : str) :
  rm_fake [] = [] /\
  (files_url_head s = Some (attr, q, rest) ->
   s = attr ++ lit "=" ++ q ++ lit "files/" ++ rest /\
   rm_fake s = attr ++ lit "=" ++ q ++ rm_fake rest) /\
  (files_url_head (c :: s) = None -> rm_fake (c :: s) = c :: rm_fake s).
Proof.
  split; [reflexivity|]. split.
  - intros Hh. pose proof (files_url_head_text _ _ _ _ Hh) as (Hs & _ & _).
    split; [exact Hs|].
    unfold rm_fake, sub.
    destruct (length s) as [|f] eqn:Hlen.
    { rewrite Hs, !length_app in Hlen.
      cbn [lit list_ascii_of_string length] in Hlen. lia. }
    cbn [sub_from]. unfold search.
    rewrite (search_from_here files_url_pattern s (length s - 0) 0
               (MkMatch 0
                  (MState (rev (attr ++ lit "=" ++ q ++ lit "files/")
                             ++ rev (firstn 0 s)) rest
                     [("2"%string, q); ("1"%string, attr)])))
      by (rewrite files_url_match_at; cbn [skipn]; now rewrite Hh).
    rewrite rm_fake_repl_groups. unfold slice. cbn [m_start].
    rewrite Nat.sub_diag. cbn [firstn app].
    rewrite <- !app_assoc. do 3 f_equal.
    unfold m_end, cursor. cbn [m_state before firstn rev].
    rewrite app_nil_r, length_rev.
    set (mt := attr ++ lit "=" ++ q ++ lit "files/").
    assert (Hs' : s = mt ++ rest).
    { unfold mt. now rewrite <- !app_assoc. }
    assert (Hskip : skipn (length mt) s = rest).
    { rewrite Hs'. rewrite skipn_app, Nat.sub_diag, skipn_all. reflexivity. }
    assert (Hl : length s = length mt + length rest).
    { rewrite Hs'. apply length_app. }
    assert (Hmt : 0 < length mt).
    { unfold mt. rewrite !length_app. cbn [lit list_ascii_of_string length].
      lia. }
    rewrite (sub_from_shift (length rest) s (length mt) f (length rest))
      by lia.
    now rewrite Hskip.
  - intros Hh. unfold rm_fake, sub. cbn [length].
    rewrite sub_from_S.
    assert (Hsearch : search files_url_pattern (c :: s) 0 =
                      search_from files_url_pattern (c :: s) (length s) 1).
    { unfold search. cbn [length]. rewrite Nat.sub_0_r. cbn [search_from].
      rewrite files_url_match_at. cbn [skipn]. now rewrite Hh. }
    rewrite Hsearch. clear Hsearch.
    destruct (length s) as [|f] eqn:Hlen.
    { apply length_zero_iff_nil in Hlen. subst s. reflexivity. }
    rewrite sub_from_S.
    assert (Hsearch : search files_url_pattern s 0 =
                      search_from files_url_pattern s (S f) 0).
    { unfold search. now rewrite Hlen, Nat.sub_0_r. }
    rewrite Hsearch. clear Hsearch.
    pose proof (files_url_search_shift (c :: s) 1 (S f) 0) as H.
    cbn [Nat.add skipn] in H.
    destruct (search_from files_url_pattern (c :: s) (S f) 1) as [m|];
      destruct (search_from files_url_pattern s (S f) 0) as [m'|];
      try contradiction; [|reflexivity].
    destruct H as (H1 & H2 & H3 & _ & H5 & H6). cbn [length] in H6.
    rewrite H3. unfold slice. rewrite H1, !Nat.sub_0_r. cbn [skipn firstn app].
    do 3 f_equal.
    rewrite (sub_from_shift f (c :: s) (m_end m) (S f) f)
      by (cbn [length]; lia).
    rewrite (sub_from_shift f s (m_end m') f f) by lia.
    rewrite H2. reflexivity.
Qed.

(** X22.  [rm_fake] reads the text from left to right: where [src=] or [href=],
    a quote or none, and [files/] stand, the [files/] is left out and the
    scan goes on after it; any other character is kept. *)
Theorem rm_fake_scan (c : ascii) (s attr q rest : str) :
  rm_fake [] = [] /\
  (files_url_head s = Some (attr, q, rest) ->
   s = attr ++ lit "=" ++ q ++ lit "files/" ++ rest /\
   rm_fake s = attr ++ lit "=" ++ q ++ rm_fake rest) /\
  (files_url_head (c :: s) = None -> rm_fake (c :: s) = c :: rm_fake s).
Proof. apply rm_fake_equations. Qed.

(** X23.  A text in which [files/] does not occur is left as it is. *)
Theorem rm_fake_without_files (text : str) :
  occurs (lit "files/") text = false -> rm_fake text = text.
Proof.
  induction text as [|c s IH]; intros Hocc; [reflexivity|].
  destruct (files_url_head (c :: s)) as [[[attr q] rest]|] eqn:Hh.
  - apply files_url_head_text in Hh as (Hs & _ & _).
    rewrite Hs in Hocc.
    replace (attr ++ lit "=" ++ q ++ lit "files/" ++ rest)
      with ((attr ++ lit "=" ++ q) ++ lit "files/" ++ rest) in Hocc
      by now rewrite <- !app_assoc.
    now rewrite occurs_app in Hocc.
  - rewrite (proj2 (proj2 (rm_fake_equations c s [] [] [])) Hh).
    f_equal. apply IH.
    exact (occurs_suffix (lit "files/") [c] s Hocc).
Qed.

Lemma rm_fake_scan_witness :
  rm_fake (lit "src='files/a.png'") =
    lit "src" ++ lit "=" ++ [squote] ++ rm_fake (lit "a.png'") /\
  rm_fake (lit " src=files/a.png") = space :: rm_fake (lit "src=files/a.png").
Proof.
  split.
  - apply (proj2 (proj1 (proj2 (rm_fake_scan space (lit "src='files/a.png'")
                                  (lit "src") [squote] (lit "a.png'")))
                    eq_refl)).
  - apply (proj2 (proj2 (rm_fake_scan space (lit "src=files/a.png")
                           [] [] [])) eq_refl).
Defined.

Lemma rm_fake_without_files_witness :
  rm_fake (lit "<img src='/file/a.png'>") = lit "<img src='/file/a.png'>".
Proof.
  apply (rm_fake_without_files (lit "<img src='/file/a.png'>")). reflexivity.
Defined.

(** ** Splitting and joining *)

Lemma str_split_nonempty (sep : ascii) (s : str) : str_split sep s <> [].
Proof.
  destruct s as [|c s]; [discriminate|]. cbn [str_split].
  destruct (Ascii.eqb c sep); [discriminate|].
  destruct (str_split sep s); discriminate.
Qed.

Lemma str_join_cons (sep piece : str) (pieces : list str) :
  pieces <> [] ->
  str_join sep (piece :: pieces) = piece ++ sep ++ str_join sep pieces.
Proof. destruct pieces; [congruence | reflexivity]. Qed.

(** Splitting at a character and joining with a text replaces the
    character by the text. *)
Lemma str_join_split (sep : ascii) (by_ s : str) :
  str_join by_ (str_split sep s) = replace_char sep by_ s.
Proof.
  unfold replace_char. induction s as [|c s IH]; [reflexivity|].
  cbn [str_split flat_map]. destruct (Ascii.eqb c sep).
  - rewrite str_join_cons by apply str_split_nonempty. now rewrite IH.
  - pose proof (str_split_nonempty sep s) as Hne.
    destruct (str_split sep s) as [|piece pieces]; [congruence|].
    rewrite <- IH. destruct pieces as [|p ps]; reflexivity.
Qed.

Lemma replace_char_same (c : ascii) (s : str) : replace_char c [c] s = s.
Proof.
  unfold replace_char. induction s as [|x s IH]; [reflexivity|].
  cbn [flat_map]. destruct (Ascii.eqb x c) eqn:E.
  - apply Ascii.eqb_eq in E. subst x. cbn [app]. now f_equal.
  - cbn [app]. now f_equal.
Qed.

Lemma str_split_free (sep : ascii) (s : str) :
  ~ In sep s -> str_split sep s = [s].
Proof.
  induction s as [|c s IH]; [reflexivity|]. intros Hn.
  cbn [str_split]. destruct (Ascii.eqb c sep) eqn:E.
  - apply Ascii.eqb_eq in E. subst c. destruct Hn. now left.
  - rewrite IH; [reflexivity|]. intros H. apply Hn. now right.
Qed.

Lemma str_split_app (sep : ascii) (a rest : str) :
  ~ In sep a -> str_split sep (a ++ sep :: rest) = a :: str_split sep rest.
Proof.
  induction a as [|c a IH]; intros Hn.
  - cbn [app str_split]. now rewrite Ascii.eqb_refl.
  - cbn [app str_split]. destruct (Ascii.eqb c sep) eqn:E.
    + apply Ascii.eqb_eq in E. subst c. destruct Hn. now left.
    + rewrite IH; [reflexivity|]. intros H. apply Hn. now right.
Qed.

Lemma str_split_pieces_free (sep : ascii) (s : str) :
  Forall (fun piece => ~ In sep piece) (str_split sep s).
Proof.
  induction s as [|c s IH]; [repeat constructor; now intros []|].
  cbn [str_split]. destruct (Ascii.eqb c sep) eqn:E.
  - constructor; [now intros []|exact IH].
  - destruct (str_split sep s) as [|piece pieces]; inversion IH; subst.
    + repeat constructor. intros [-> | []]. now rewrite Ascii.eqb_refl in E.
    + constructor; [|assumption]. intros [-> | Hin]; [|contradiction].
      now rewrite Ascii.eqb_refl in E.
Qed.

(** Joining pieces that are free of the separator, each behind a prefix
    free of it, and splitting again gives the prefixed pieces back. *)
Lemma str_split_join (sep : ascii) (prefix : str) (pieces : list str) :
  pieces <> [] ->
  ~ In sep prefix ->
  Forall (fun piece => ~ In sep piece) pieces ->
  str_split sep (prefix ++ str_join (sep :: prefix) pieces) =
  map (app prefix) pieces.
Proof.
  intros Hne Hp Hfree. revert Hne.
  induction Hfree as [|piece pieces Hpiece Hfree IH]; intros Hne;
    [now destruct Hne|].
  assert (Hpp : ~ In sep (prefix ++ piece)).
  { intros H. apply in_app_or in H as [H | H]; contradiction. }
  destruct pieces as [|p ps].
  - cbn [str_join map]. now apply str_split_free.
  - rewrite str_join_cons by discriminate. cbn [map].
    rewrite app_assoc. cbn [app]. rewrite str_split_app by exact Hpp.
    f_equal. apply IH. discriminate.
Qed.

(** ** [python_comment] *)

(** X24.  Every line of the text comes back behind [# ], and no line is added or
    lost: the lines of the comment are the lines of the text, each behind
    [# ].  The comment is the text with [# ] put at its start and after
    each of its line breaks. *)
Theorem python_comment_lines (text : str) :
  str_split newline (python_comment text) =
    map (app (lit "# ")) (str_split newline text) /\
  python_comment text =
    lit "# " ++ replace_char newline (newline :: lit "# ") text.
Proof.
  unfold python_comment. split.
  - apply str_split_join.
    + apply str_split_nonempty.
    + intros [H | [H | []]]; discriminate H.
    + apply str_split_pieces_free.
  - now rewrite str_join_split.
Qed.

(** ** [get_lines] *)

Lemma list_slice_all {A : Type} (l : list A) : list_slice l None None = l.
Proof.
  unfold list_slice, slice_index. rewrite Nat.sub_0_r. cbn [skipn].
  apply firstn_all.
Qed.

Lemma str_join_app (sep : str) (l1 l2 : list str) :
  l1 <> [] -> l2 <> [] ->
  str_join sep (l1 ++ l2) = str_join sep l1 ++ sep ++ str_join sep l2.
Proof.
  intros H1 H2. induction l1 as [|x l1 IH]; [congruence|].
  destruct l1 as [|y l1].
  - cbn [app]. now rewrite str_join_cons.
  - change ((x :: y :: l1) ++ l2) with (x :: (y :: l1) ++ l2).
    rewrite !str_join_cons by discriminate.
    rewrite IH by discriminate. now rewrite <- !app_assoc.
Qed.

Lemma slice_index_nat (n k : nat) (d : nat) :
  slice_index n (Some (Z.of_nat k)) d = Nat.min n k.
Proof.
  unfold slice_index.
  destruct (Z.ltb_spec (Z.of_nat k) 0); [lia|]. now rewrite Nat2Z.id.
Qed.

Lemma slice_index_neg (n k : nat) (d : nat) :
  0 < k ->
  slice_index n (Some (- Z.of_nat k)%Z) d = n - k.
Proof.
  intros Hk. unfold slice_index.
  destruct (Z.ltb_spec (- Z.of_nat k) 0); lia.
Qed.

(** X25.  The lines of a text, put together again, are the text: with no bounds
    [get_lines] gives the text back.  With bounds it gives the lines from
    [start] up to, not including, [end], counted from 0; the head up to a
    line and the tail from that line on, joined by a line break, are the
    whole text again.  A bound past the last line is clipped, and a
    negative one counts from the end. *)
Theorem get_lines_bounds (text : str) (i j : nat) :
  let lines := str_split newline text in
  get_lines text None None = text /\
  get_lines text (Some (Z.of_nat i)) (Some (Z.of_nat j)) =
    str_join [newline] (firstn (j - i) (skipn i lines)) /\
  (0 < i < length lines ->
   get_lines text None (Some (Z.of_nat i)) ++ [newline]
     ++ get_lines text (Some (Z.of_nat i)) None = text) /\
  (length lines <= i -> get_lines text (Some (Z.of_nat i)) None = []) /\
  (0 < i ->
   get_lines text (Some (- Z.of_nat i)%Z) None =
     str_join [newline] (skipn (length lines - i) lines)).
Proof.
  intros lines.
  assert (Hall : str_join [newline] lines = text).
  { unfold lines. rewrite str_join_split. apply replace_char_same. }
  unfold get_lines. fold lines. repeat split.
  - now rewrite list_slice_all.
  - unfold list_slice. rewrite !slice_index_nat.
    destruct (Nat.le_gt_cases (length lines) i) as [Hi | Hi].
    + rewrite (Nat.min_l _ i) by exact Hi.
      rewrite !skipn_all2 by lia. now rewrite !firstn_nil.
    + rewrite (Nat.min_r _ i) by lia.
      destruct (Nat.le_gt_cases (length lines) j) as [Hj | Hj].
      * rewrite (Nat.min_l _ j) by exact Hj.
        rewrite !firstn_all2 by (rewrite length_skipn; lia). reflexivity.
      * now rewrite (Nat.min_r _ j) by lia.
  - intros [Hi0 Hi]. unfold list_slice. rewrite !slice_index_nat.
    unfold slice_index. rewrite Nat.min_r by lia.
    rewrite Nat.sub_0_r. cbn [skipn].
    rewrite (firstn_all2 (skipn i lines)) by (rewrite length_skipn; lia).
    rewrite <- str_join_app.
    + now rewrite firstn_skipn.
    + intros H. apply (f_equal (@length str)) in H. rewrite length_firstn in H.
      cbn [length] in H. lia.
    + intros H. apply (f_equal (@length str)) in H. rewrite length_skipn in H.
      cbn [length] in H. lia.
  - intros Hi. unfold list_slice. rewrite slice_index_nat.
    unfold slice_index. rewrite Nat.min_l by exact Hi.
    now rewrite skipn_all2, firstn_nil by lia.
  - intros Hi. unfold list_slice. rewrite slice_index_neg by exact Hi.
    unfold slice_index.
    now rewrite firstn_all2 by (rewrite length_skipn; lia).
Qed.

Lemma get_lines_bounds_witness :
  let text := lit "a" ++ [newline] ++ lit "b" ++ [newline] ++ lit "c" in
  get_lines text None (Some 2%Z) ++ [newline] ++ get_lines text (Some 2%Z) None
    = text /\
  get_lines text (Some 3%Z) None = [] /\
  get_lines text (Some (-1)%Z) None = lit "c".
Proof.
  intros text.
  pose proof (get_lines_bounds text) as H.
  split; [|split].
  - apply (proj1 (proj2 (proj2 (H 2 0)))). vm_compute. lia.
  - apply (proj1 (proj2 (proj2 (proj2 (H 3 0))))). vm_compute. lia.
  - apply (proj2 (proj2 (proj2 (proj2 (H 1 0))))). lia.
Defined.

(** ** [rm_math_space] *)

Lemma last_of_cons (last : option ascii) (c : ascii) (s : str) :
  last_of last (c :: s) = last_of (Some c) s.
Proof.
  unfold last_of. cbn [rev]. destruct (rev s) as [|x r]; reflexivity.
Qed.

Lemma last_of_app (last : option ascii) (a b : str) :
  last_of last (a ++ b) = last_of (last_of last a) b.
Proof.
  unfold last_of. rewrite rev_app_distr.
  destruct (rev b) as [|x r]; [now rewrite app_nil_l | reflexivity].
Qed.

Lemma dollars_escaped_app (last : option ascii) (a b : str) :
  dollars_escaped last (a ++ b) =
  dollars_escaped last a && dollars_escaped (last_of last a) b.
Proof.
  revert last. induction a as [|c a IH]; intros last; [reflexivity|].
  cbn [app dollars_escaped]. rewrite IH, last_of_cons. apply andb_assoc.
Qed.

Lemma rm_math_space_loop_app (text : str) (index : nat) (a b : str)
    (st : math_state) :
  rm_math_space_loop text index (a ++ b) st =
  rm_math_space_loop text (index + length a) b
    (rm_math_space_loop text index a st).
Proof.
  revert index st. induction a as [|c a IH]; intros index st.
  - cbn [app length rm_math_space_loop]. now rewrite Nat.add_0_r.
  - cbn [app length rm_math_space_loop]. rewrite IH. f_equal. lia.
Qed.

(** Outside a math region, characters that open none are copied. *)
Lemma rm_math_space_outside (text rest : str) (index : nat)
    (rg : list (nat * nat)) (ln si : nat) (pt : str) (lc : option ascii) :
  dollars_escaped lc rest = true ->
  rm_math_space_loop text index rest (MathState rg ln false si pt lc false) =
  MathState rg ln false si (pt ++ rest) (last_of lc rest) false.
Proof.
  revert index pt lc. induction rest as [|c rest IH]; intros index pt lc H.
  - cbn [rm_math_space_loop]. now rewrite app_nil_r.
  - cbn [dollars_escaped] in H. apply andb_true_iff in H as [Hc H].
    cbn [rm_math_space_loop]. unfold rm_math_space_step.
    cbn [last_character within_math skip math_regions math_lines
         math_start_index ptext].
    assert (Hd : Ascii.eqb c dollar && negb (is_backslash lc) = false).
    { destruct (Ascii.eqb c dollar); [|reflexivity].
      cbn [negb orb] in Hc. now rewrite Hc. }
    rewrite Hd.
    replace (if Ascii.eqb c newline
             then MathState rg ln false si pt lc false
             else MathState rg ln false si pt lc false)
      with (MathState rg ln false si pt lc false)
      by now destruct (Ascii.eqb c newline).
    cbn [last_character within_math skip math_regions math_lines
         math_start_index ptext negb andb].
    rewrite IH by exact H. rewrite last_of_cons, <- app_assoc. reflexivity.
Qed.

(** Inside a math region nothing is copied, as long as no dollar closes it
    and no second line break cancels it. *)
Lemma rm_math_space_inside (text body : str) (index : nat)
    (rg : list (nat * nat)) (ln si : nat) (pt : str) (lc : option ascii) :
  dollars_escaped lc body = true ->
  ln + line_breaks body <= 1 ->
  rm_math_space_loop text index body (MathState rg ln true si pt lc false) =
  MathState rg (ln + line_breaks body) true si pt (last_of lc body) false.
Proof.
  revert index ln lc. induction body as [|c body IH]; intros index ln lc H Hl.
  - cbn [rm_math_space_loop line_breaks filter length].
    now rewrite Nat.add_0_r.
  - cbn [dollars_escaped] in H. apply andb_true_iff in H as [Hc H].
    cbn [rm_math_space_loop]. unfold rm_math_space_step.
    cbn [last_character within_math skip math_regions math_lines
         math_start_index ptext].
    assert (Hd : Ascii.eqb c dollar && negb (is_backslash lc) = false).
    { destruct (Ascii.eqb c dollar); [|reflexivity].
      cbn [negb orb] in Hc. now rewrite Hc. }
    rewrite Hd. unfold line_breaks in *. cbn [filter] in *.
    rewrite (Ascii.eqb_sym newline c) in *.
    destruct (Ascii.eqb c newline) eqn:Hn.
    + cbn [length] in *.
      assert (H0 : ln = 0) by lia. subst ln.
      cbn [Nat.add Nat.ltb Nat.leb].
      cbn [last_character within_math skip math_regions math_lines
           math_start_index ptext negb andb].
      rewrite IH; [|exact H|lia].
      now rewrite last_of_cons.
    + cbn [last_character within_math skip math_regions math_lines
           math_start_index ptext negb andb].
      rewrite IH by assumption. now rewrite last_of_cons.
Qed.

Lemma slice_middle (a b c : str) :
  slice (a ++ b ++ c) (length a) (length a + length b) = b.
Proof.
  unfold slice. rewrite skipn_app, Nat.sub_diag, skipn_all. cbn [skipn app].
  replace (length a + length b - length a) with (length b) by lia.
  rewrite firstn_app, Nat.sub_diag, firstn_all. cbn [firstn].
  apply app_nil_r.
Qed.

(** X26.  A text whose dollars all come right after a backslash holds no math
    region, and is left as it is. *)
Theorem rm_math_space_no_math (text : str) :
  dollars_escaped None text = true -> rm_math_space text = text.
Proof.
  intros H. unfold rm_math_space, math_state_init.
  now rewrite rm_math_space_outside.
Qed.

Lemma rm_math_space_no_math_witness :
  rm_math_space (lit "costs \$5, not \$6") = lit "costs \$5, not \$6".
Proof.
  apply (rm_math_space_no_math (lit "costs \$5, not \$6")). reflexivity.
Defined.

Lemma rm_math_space_open (text pre : str) :
  dollars_escaped None pre = true ->
  is_backslash (last_of None pre) = false ->
  rm_math_space_loop text 0 (pre ++ [dollar]) math_state_init =
  MathState [] 0 true (length pre) pre (Some dollar) false.
Proof.
  intros Hpre Hlast. rewrite rm_math_space_loop_app. unfold math_state_init.
  rewrite rm_math_space_outside by exact Hpre.
  cbn [rm_math_space_loop app Nat.add]. unfold rm_math_space_step.
  cbn [last_character within_math skip math_regions math_lines
       math_start_index ptext].
  rewrite Ascii.eqb_refl, Hlast. reflexivity.
Qed.

Lemma rm_math_space_region_loop (text pre body post : str) :
  dollars_escaped None pre = true ->
  is_backslash (last_of None pre) = false ->
  dollars_escaped (Some dollar) body = true ->
  is_backslash (last_of (Some dollar) body) = false ->
  line_breaks body <= 1 ->
  dollars_escaped (Some dollar) post = true ->
  ptext (rm_math_space_loop text 0
           ((pre ++ [dollar]) ++ body ++ [dollar] ++ post) math_state_init) =
  pre ++ [dollar]
    ++ strip (slice text (length pre + 1) (length (pre ++ [dollar])
                                             + length body))
    ++ [dollar] ++ post.
Proof.
  intros Hpre Hlast Hbody Hblast Hlines Hpost.
  rewrite rm_math_space_loop_app.
  rewrite (rm_math_space_open text pre Hpre Hlast).
  rewrite rm_math_space_loop_app.
  rewrite rm_math_space_inside by (cbn [Nat.add]; assumption).
  cbn [Nat.add app rm_math_space_loop]. unfold rm_math_space_step at 1.
  cbn [last_character within_math skip math_regions math_lines
       math_start_index ptext].
  rewrite Ascii.eqb_refl, Hblast.
  cbn [negb andb last_character within_math skip math_regions math_lines
       math_start_index ptext].
  rewrite rm_math_space_outside by exact Hpost.
  cbn [ptext lit list_ascii_of_string]. fold dollar.
  now rewrite <- !app_assoc.
Qed.

(** X27.  One math region: a dollar, a body with at most one line break, a
    dollar, none of them right after a backslash, and around them text
    whose dollars all come right after a backslash.  The body is stripped
    of the whitespace characters at its ends, those outside ASCII too, and
    everything else is kept. *)
Theorem rm_math_space_region (pre body post : str) :
  dollars_escaped None pre = true ->
  is_backslash (last_of None pre) = false ->
  dollars_escaped (Some dollar) body = true ->
  is_backslash (last_of (Some dollar) body) = false ->
  line_breaks body <= 1 ->
  dollars_escaped (Some dollar) post = true ->
  rm_math_space (pre ++ lit "$" ++ body ++ lit "$" ++ post) =
    pre ++ lit "$" ++ strip body ++ lit "$" ++ post.
Proof.
  intros Hpre Hlast Hbody Hblast Hlines Hpost.
  unfold rm_math_space. change (lit "$") with [dollar].
  set (text := pre ++ [dollar] ++ body ++ [dollar] ++ post).
  assert (Htext : text = (pre ++ [dollar]) ++ body ++ [dollar] ++ post).
  { unfold text. now rewrite <- app_assoc. }
  rewrite Htext at 2.
  rewrite rm_math_space_region_loop by assumption.
  replace (length pre + 1) with (length (pre ++ [dollar]))
    by (rewrite length_app; reflexivity).
  rewrite Htext, slice_middle. reflexivity.
Qed.

Lemma rm_math_space_region_witness :
  rm_math_space (lit "so " ++ lit "$" ++ (no_break_space ++ lit "x+1 ")
                   ++ lit "$" ++ lit " \$5") =
    lit "so $x+1$ \$5".
Proof.
  change (lit "so $x+1$ \$5")
    with (lit "so " ++ lit "$" ++ strip (no_break_space ++ lit "x+1 ")
            ++ lit "$" ++ lit " \$5").
  apply (rm_math_space_region (lit "so ") (no_break_space ++ lit "x+1 ")
           (lit " \$5"));
    try reflexivity.
  vm_compute. lia.
Defined.

Lemma second_line_break (body : str) (n : nat) :
  n + 1 <= line_breaks body ->
  exists b1 b2, body = b1 ++ newline :: b2 /\ line_breaks b1 = n.
Proof.
  unfold line_breaks. revert n.
  induction body as [|c body IH]; intros n H; [cbn in H; lia|].
  cbn [filter] in H. destruct (Ascii.eqb newline c) eqn:Hc.
  - apply Ascii.eqb_eq in Hc. subst c. cbn [length] in H.
    destruct n as [|n].
    + now exists [], body.
    + destruct (IH n) as (b1 & b2 & -> & Hb1); [lia|].
      exists (newline :: b1), b2. split; [reflexivity|].
      cbn [filter]. rewrite Ascii.eqb_refl. cbn [length]. now rewrite Hb1.
  - destruct (IH n H) as (b1 & b2 & -> & Hb1).
    exists (c :: b1), b2. split; [reflexivity|].
    cbn [filter]. now rewrite Hc.
Qed.

Lemma rm_math_space_cancel_loop (text pre b1 b2 : str) :
  dollars_escaped None pre = true ->
  is_backslash (last_of None pre) = false ->
  dollars_escaped (Some dollar) (b1 ++ newline :: b2) = true ->
  line_breaks b1 = 1 ->
  ptext (rm_math_space_loop text 0
           ((pre ++ [dollar]) ++ b1 ++ newline :: b2) math_state_init) =
  pre ++ slice text (length pre) (length (pre ++ [dollar]) + length b1)
    ++ newline :: b2.
Proof.
  intros Hpre Hlast Hbody Hlines.
  rewrite dollars_escaped_app in Hbody.
  apply andb_true_iff in Hbody as [Hb1 Hb2].
  cbn [dollars_escaped] in Hb2. apply andb_true_iff in Hb2 as [_ Hb2].
  rewrite rm_math_space_loop_app.
  rewrite (rm_math_space_open text pre Hpre Hlast).
  rewrite rm_math_space_loop_app.
  rewrite rm_math_space_inside by first [assumption | cbn [Nat.add]; lia].
  rewrite Hlines.
  cbn [Nat.add app rm_math_space_loop]. unfold rm_math_space_step at 1.
  cbn [last_character within_math skip math_regions math_lines
       math_start_index ptext].
  replace (Ascii.eqb newline dollar) with false by reflexivity.
  rewrite Ascii.eqb_refl.
  cbn [andb Nat.add Nat.ltb Nat.leb negb last_character within_math skip
       math_regions math_lines math_start_index ptext].
  rewrite rm_math_space_outside by exact Hb2.
  cbn [ptext]. now rewrite <- !app_assoc.
Qed.

(** X28.  A dollar that nothing closes.  When at most one line break follows it,
    the text from the dollar on is lost: the result is what stands before
    the dollar.  When two line breaks or more follow, the second one
    cancels the region and the text is kept whole. *)
Theorem rm_math_space_unclosed (pre body : str) :
  dollars_escaped None pre = true ->
  is_backslash (last_of None pre) = false ->
  dollars_escaped (Some dollar) body = true ->
  (line_breaks body <= 1 ->
   rm_math_space (pre ++ lit "$" ++ body) = pre) /\
  (2 <= line_breaks body ->
   rm_math_space (pre ++ lit "$" ++ body) = pre ++ lit "$" ++ body).
Proof.
  intros Hpre Hlast Hbody. change (lit "$") with [dollar]. split.
  - intros Hlines. unfold rm_math_space.
    set (text := pre ++ [dollar] ++ body).
    unfold text at 2. rewrite app_assoc, rm_math_space_loop_app.
    rewrite (rm_math_space_open text pre Hpre Hlast).
    now rewrite rm_math_space_inside by (cbn [Nat.add]; assumption).
  - intros Hlines.
    destruct (second_line_break body 1 Hlines) as (b1 & b2 & -> & Hb1).
    unfold rm_math_space.
    set (text := pre ++ [dollar] ++ b1 ++ newline :: b2).
    assert (Htext : text = pre ++ ([dollar] ++ b1) ++ newline :: b2).
    { unfold text. now rewrite <- !app_assoc. }
    unfold text at 2. rewrite app_assoc.
    rewrite rm_math_space_cancel_loop by assumption.
    rewrite length_app. cbn [length].
    replace (length pre + 1 + length b1)
      with (length pre + length ([dollar] ++ b1))
      by (rewrite length_app; cbn [length]; lia).
    rewrite Htext at 1. rewrite slice_middle.
    unfold text. now rewrite <- !app_assoc.
Qed.

Lemma rm_math_space_unclosed_witness :
  rm_math_space (lit "a price of " ++ lit "$" ++ lit "5, no more") =
    lit "a price of ".
Proof.
  apply (proj1 (rm_math_space_unclosed (lit "a price of ") (lit "5, no more")
                  eq_refl eq_refl eq_refl)).
  vm_compute. lia.
Defined.
